(** * Injectors of codes/models/steps/injectors.py

    A shallow embedding of the injector classes and of their factory
    [create_injector].  An injector reads named entries of the step's
    state dictionary and returns a dictionary of new state variables.

    Python exceptions are values of [error]; a call that raises returns
    [Err].  The state dictionary is threaded through every [forward] by
    a small state-and-error monad, so that "forward does not write to
    the state" is a theorem about the code and not a typing accident. *)

From Stdlib Require Import List ZArith Lia String Bool.
From stdpp Require Import base option list gmap strings fin_maps pretty.

Import ListNotations.
#[local] Set Warnings "-clear-no-such-hyp".
Local Open Scope string_scope.

(** ** Exceptions and results *)

Inductive error : Type :=
| KeyError (k : string)          (* a dict subscript on an absent key *)
| AttributeError (a : string)    (* an attribute that was never set *)
| NameError (n : string)         (* a global name that is not defined *)
| TypeError                      (* e.g. an unhashable dict key *)
| AssertionError
| IndexError
| NotImplementedError
| RuntimeError                   (* raised inside a torch primitive *)
| ValueError.                    (* an argument outside its range *)

Inductive result (A : Type) : Type :=
| Ok (a : A)
| Err (e : error).
Arguments Ok {A} a.
Arguments Err {A} e.

Definition is_KeyError (e : error) : bool :=
  match e with KeyError _ => true | _ => false end.

(** [d[k]] on a dictionary whose keys are a fixed set of fields: the
    field is [None] when the key is absent. *)
Definition getitem {A : Type} (k : string) (field : option A) : result A :=
  match field with
  | Some a => Ok a
  | None => Err (KeyError k)
  end.

(** ** Configuration

    [opt['in']] and [opt['out']] hold one state key or a list of state
    keys; [isinstance(_, list)] tells them apart. *)

Inductive keys : Type :=
| Key (k : string)
| Keys (ks : list string).

Definition keys_set (o : keys) : gset string :=
  match o with
  | Key k => {[ k ]}
  | Keys ks => list_to_set ks
  end.

(** ** Tensors and values *)

(** The element type of tensors and the Python float, with the
    arithmetic torch performs on it. [rmean] is the reduction that
    [torch.mean] applies to the elements it averages. *)
Class Scalar : Type := {
  scalar : Type;
  rzero : scalar;
  radd : scalar -> scalar -> scalar;
  rmul : scalar -> scalar -> scalar;
  rmean : list scalar -> scalar
}.

(** A tensor: its shape and its elements in row-major order. *)
Record tensor `{Scalar} : Type := mkTensor {
  shape : list nat;
  data : list scalar
}.
Arguments mkTensor {_} shape data.

Definition numel (sh : list nat) : nat := fold_right Nat.mul 1 sh.

Definition tensor_wf `{Scalar} (t : tensor) : Prop :=
  length (data t) = numel (shape t).

(** Values held by the state: tensors, Python floats, lists and tuples. *)
#[local] Set Warnings "-register-all".
Inductive value `{Scalar} : Type :=
| VTensor (t : tensor)
| VFloat (x : scalar)
| VList (l : list value)
| VTuple (l : list value).
Arguments VTensor {_} t.
Arguments VFloat {_} x.
Arguments VList {_} l.
Arguments VTuple {_} l.

(** [opt['scale']] of the noise injector: a state key (a [str]) or a
    fixed number. *)
Inductive scale_opt `{Scalar} : Type :=
| ScaleKey (k : string)
| ScaleLit (x : scalar).
Arguments ScaleKey {_} k.
Arguments ScaleLit {_} x.

(** Collaborators that live outside this file: the weight scheduler
    (data.weight_scheduler), the image gradient (SPSR_arch) and torch's
    interpolation and broadcasting of a binary operator over two
    tensors of different shapes. *)
Class Collaborators `{Scalar} : Type := {
  sched_opt : Type;            (* opt['scheduler'] *)
  scheduler_t : Type;          (* what get_scheduler_for_opt returns *)
  get_scheduler_for_opt : sched_opt -> result scheduler_t;
  get_weight_for_step : scheduler_t -> Z -> result value;
  img_grad_fn : value -> result value;
  interpolate : value -> scalar -> string -> result value;
  broadcast : (scalar -> scalar -> scalar) -> tensor -> tensor -> result tensor
}.

Section Injectors.

Context `{Collaborators}.

(** The injector's slice of the configuration: a dictionary with these
    keys, each absent ([None]) or present. *)
Record options : Type := mkOptions {
  opt_type : option string;
  opt_in : option keys;
  opt_out : option keys;
  opt_generator : option string;
  opt_discriminator : option string;
  opt_scheduler : option sched_opt;
  opt_scale : option scale_opt;
  opt_scale_factor : option scalar;
  opt_mode : option string
}.

(** A sub-network called with positional arguments. *)
Definition model : Type := list value -> result value.

(** The environment dictionary [env], shared by all injectors; an
    injector keeps a reference to it, so [forward] sees its current
    contents, which are passed to it here. *)
Record environment : Type := mkEnv {
  env_generators : option (gmap string model);
  env_discriminators : option (gmap string model);
  env_device : option string;
  env_step : option Z
}.

(** The classes, with the attributes a subclass adds in its
    [__init__]. *)
Inductive class : Type :=
| ImageGeneratorInjector
| DiscriminatorInjector
| ScheduledScalarInjector (sched : scheduler_t)
| ImageGradientInjector
| AddNoiseInjector
| GreyInjector
| InterpolateInjector.

(** An instance: [self.opt], [self.input] (set only when 'in' is in
    opt) and [self.output]. *)
Record injector : Type := mkInjector {
  cls : class;
  opt : options;
  input : option keys;
  output : keys
}.

(** ** The state and the monad of [forward] *)

Definition M (A : Type) : Type :=
  gmap string value -> result A * gmap string value.

Definition ret {A} (a : A) : M A := fun st => (Ok a, st).

Definition raise {A} (e : error) : M A := fun st => (Err e, st).

Definition bind {A B} (m : M A) (f : A -> M B) : M B :=
  fun st =>
    match m st with
    | (Ok a, st') => f a st'
    | (Err e, st') => (Err e, st')
    end.

Definition lift {A} (r : result A) : M A := fun st => (r, st).

Notation "x <- m ;; f" := (bind m (fun x => f))
  (at level 100, m at next level, right associativity).

(** [state[k]] *)
Definition state_getitem (k : string) : M value :=
  fun st =>
    match st !! k with
    | Some v => (Ok v, st)
    | None => (Err (KeyError k), st)
    end.

(** [state[ks]] where [ks] may be a list, which is unhashable. *)
Definition state_subscript (ks : keys) : M value :=
  match ks with
  | Key k => state_getitem k
  | Keys _ => raise TypeError
  end.

(** [[state[i] for i in ks]] *)
Fixpoint state_getitems (ks : list string) : M (list value) :=
  match ks with
  | [] => ret []
  | k :: ks' =>
      v <- state_getitem k ;;
      vs <- state_getitems ks' ;;
      ret (v :: vs)
  end.

(** [{k: v}] where [k] may be a list, which is unhashable. *)
Definition dict_display (k : keys) (v : value) : result (gmap string value) :=
  match k with
  | Key k => Ok {[ k := v ]}
  | Keys _ => Err TypeError
  end.

(** ** Injector.__init__ *)

Definition Injector_init (c : class) (o : options) (env : environment)
  : result injector :=
  match opt_out o with
  | Some out => Ok (mkInjector c o (opt_in o) out)
  | None => Err (KeyError "out")
  end.

(** ** ImageGeneratorInjector and DiscriminatorInjector *)

(** [for i, k in enumerate(self.output): new_state[k] = results[i]] *)
Fixpoint enumerate_store (ks : list string) (i : nat) (results : list value)
    (new_state : gmap string value) : result (gmap string value) :=
  match ks with
  | [] => Ok new_state
  | k :: ks' =>
      match results !! i with
      | Some v => enumerate_store ks' (S i) results (<[ k := v ]> new_state)
      | None => Err IndexError
      end
  end.

(** Lines 57-66 and 81-90: the results are written to a fresh
    dictionary. *)
Definition store_results (out : keys) (results : value)
  : result (gmap string value) :=
  match out with
  | Keys ks =>
      match results with
      | VList l | VTuple l => enumerate_store ks 0 l ∅
      | _ => Err AssertionError
      end
  | Key k => Ok (<[ k := results ]> ∅)
  end.

(** [self.input]: the attribute exists only when 'in' was in opt. *)
Definition self_input (self : injector) : result keys :=
  match input self with
  | Some i => Ok i
  | None => Err (AttributeError "input")
  end.

(** Lines 52-56 and 76-80: the call of the sub-network. *)
Definition call_model (g : model) (self : injector) : M value :=
  i <- lift (self_input self) ;;
  match i with
  | Keys ks =>
      params <- state_getitems ks ;;
      lift (g params)
  | Key k =>
      v <- state_getitem k ;;
      lift (g [v])
  end.

Definition ImageGeneratorInjector_results (self : injector) (env : environment)
  : M value :=
  gens <- lift (getitem "generators" (env_generators env)) ;;
  name <- lift (getitem "generator" (opt_generator (opt self))) ;;
  gen <- lift (getitem name (gens !! name)) ;;
  call_model gen self.

Definition ImageGeneratorInjector_forward (self : injector) (env : environment)
  : M (gmap string value) :=
  results <- ImageGeneratorInjector_results self env ;;
  lift (store_results (output self) results).

Definition DiscriminatorInjector_results (self : injector) (env : environment)
  : M value :=
  ds <- lift (getitem "discriminators" (env_discriminators env)) ;;
  name <- lift (getitem "discriminator" (opt_discriminator (opt self))) ;;
  d <- lift (getitem name (ds !! name)) ;;
  call_model d self.

Definition DiscriminatorInjector_forward (self : injector) (env : environment)
  : M (gmap string value) :=
  results <- DiscriminatorInjector_results self env ;;
  lift (store_results (output self) results).

(** ** Injector.forward *)

Definition Injector_forward (self : injector) : M (gmap string value) :=
  raise NotImplementedError.

(** ** ImageGradientInjector *)

Definition ImageGradientInjector_init (o : options) (env : environment)
  : result injector :=
  match Injector_init ImageGradientInjector o env with
  | Ok self =>
      match getitem "device" (env_device env) with
      | Ok _ => Ok self
      | Err e => Err e
      end
  | Err e => Err e
  end.

Definition ImageGradientInjector_forward (self : injector)
  : M (gmap string value) :=
  out <- lift (getitem "out" (opt_out (opt self))) ;;
  i <- lift (getitem "in" (opt_in (opt self))) ;;
  x <- state_subscript i ;;
  g <- lift (img_grad_fn x) ;;
  lift (dict_display out g).

(** ** ScheduledScalarInjector *)

Definition ScheduledScalarInjector_init (o : options) (env : environment)
  : result injector :=
  match opt_out o with
  | Some out =>
      match getitem "scheduler" (opt_scheduler o) with
      | Ok so =>
          match get_scheduler_for_opt so with
          | Ok sched =>
              Ok (mkInjector (ScheduledScalarInjector sched) o (opt_in o) out)
          | Err e => Err e
          end
      | Err e => Err e
      end
  | None => Err (KeyError "out")
  end.

Definition ScheduledScalarInjector_forward (sched : scheduler_t)
    (self : injector) (env : environment) : M (gmap string value) :=
  out <- lift (getitem "out" (opt_out (opt self))) ;;
  step <- lift (getitem "step" (env_step env)) ;;
  w <- lift (get_weight_for_step sched step) ;;
  lift (dict_display out w).

(** ** AddNoiseInjector *)

(** [torch.randn_like(x)]: a tensor of the shape of [x] filled with
    the next draws of the random source [rng]. *)
Definition randn_like (rng : nat -> scalar) (x : value) : result tensor :=
  match x with
  | VTensor t => Ok (mkTensor (shape t) (map rng (seq 0 (numel (shape t)))))
  | _ => Err TypeError
  end.

(** A binary operator on two tensors: elementwise on equal shapes,
    torch's broadcasting otherwise. *)
Definition tensor_binop (f : scalar -> scalar -> scalar) (a b : tensor)
  : result tensor :=
  if bool_decide (shape a = shape b)
  then Ok (mkTensor (shape a) (zip_with f (data a) (data b)))
  else broadcast f a b.

Definition as_value (r : result tensor) : result value :=
  match r with
  | Ok t => Ok (VTensor t)
  | Err e => Err e
  end.

(** [noise * scale] *)
Definition tensor_mul (t : tensor) (s : value) : result value :=
  match s with
  | VFloat x => Ok (VTensor (mkTensor (shape t) (map (fun e => rmul e x) (data t))))
  | VTensor u => as_value (tensor_binop rmul t u)
  | VList _ | VTuple _ => Err TypeError
  end.

(** [a + b] *)
Definition value_add (a b : value) : result value :=
  match a, b with
  | VTensor t, VTensor u => as_value (tensor_binop radd t u)
  | VTensor t, VFloat y =>
      Ok (VTensor (mkTensor (shape t) (map (fun e => radd e y) (data t))))
  | VFloat x, VTensor u =>
      Ok (VTensor (mkTensor (shape u) (map (fun e => radd x e) (data u))))
  | VFloat x, VFloat y => Ok (VFloat (radd x y))
  | VList l, VList l' => Ok (VList (l ++ l'))
  | VTuple l, VTuple l' => Ok (VTuple (l ++ l'))
  | _, _ => Err TypeError
  end.

(** Lines 121-124: the scale is a state key or a fixed number. *)
Definition resolve_scale (self : injector) : M value :=
  sc <- lift (getitem "scale" (opt_scale (opt self))) ;;
  match sc with
  | ScaleKey k => state_getitem k
  | ScaleLit x => ret (VFloat x)
  end.

Definition AddNoiseInjector_forward (self : injector) (env : environment)
    (rng : nat -> scalar) : M (gmap string value) :=
  scale <- resolve_scale self ;;
  i <- lift (getitem "in" (opt_in (opt self))) ;;
  x <- state_subscript i ;;
  _ <- lift (getitem "device" (env_device env)) ;;
  r <- lift (randn_like rng x) ;;
  noise <- lift (tensor_mul r scale) ;;
  out <- lift (getitem "out" (opt_out (opt self))) ;;
  i' <- lift (getitem "in" (opt_in (opt self))) ;;
  x' <- state_subscript i' ;;
  y <- lift (value_add x' noise) ;;
  lift (dict_display out y).

(** ** GreyInjector *)

(** [torch.mean(t, dim=1, keepdim=True)]: entry [(n, 0, r)] averages
    the entries [(n, c, r)] of [t] over [c]. *)
Definition mean_dim1_keepdim (t : tensor) : result tensor :=
  match shape t with
  | d0 :: d1 :: rest =>
      let inner := numel rest in
      Ok (mkTensor (d0 :: 1 :: rest)
            (flat_map (fun n =>
               map (fun r =>
                 rmean (map (fun c => nth ((n * d1 + c) * inner + r) (data t) rzero)
                            (seq 0 d1)))
                   (seq 0 inner))
               (seq 0 d0)))
  | _ => Err IndexError
  end.

(** [t.repeat(1, k, 1, 1)]: a tensor of fewer than four dimensions is
    given leading dimensions of size 1, one of more than four is
    refused; each block along dimension 0 is laid out [k] times. *)
Definition repeat_1_k_1_1 (k : nat) (t : tensor) : result tensor :=
  let sh4 :=
    match shape t with
    | [] => Some (1, 1, 1, 1)
    | [d] => Some (1, 1, 1, d)
    | [c; d] => Some (1, 1, c, d)
    | [b; c; d] => Some (1, b, c, d)
    | [a; b; c; d] => Some (a, b, c, d)
    | _ => None
    end in
  match sh4 with
  | Some (a, b, c, d) =>
      let blk := b * (c * d) in
      Ok (mkTensor [a; k * b; c; d]
            (flat_map (fun n =>
               concat (repeat (firstn blk (skipn (n * blk) (data t))) k))
               (seq 0 a)))
  | None => Err RuntimeError
  end.

Definition GreyInjector_forward (self : injector) : M (gmap string value) :=
  i <- lift (getitem "in" (opt_in (opt self))) ;;
  x <- state_subscript i ;;
  mean <- lift (match x with
                | VTensor t => mean_dim1_keepdim t
                | _ => Err TypeError
                end) ;;
  mean <- lift (repeat_1_k_1_1 3 mean) ;;
  out <- lift (getitem "out" (opt_out (opt self))) ;;
  lift (dict_display out (VTensor mean)).

(** ** InterpolateInjector *)

Definition InterpolateInjector_forward (self : injector)
  : M (gmap string value) :=
  i <- lift (getitem "in" (opt_in (opt self))) ;;
  x <- state_subscript i ;;
  sf <- lift (getitem "scale_factor" (opt_scale_factor (opt self))) ;;
  mode <- lift (getitem "mode" (opt_mode (opt self))) ;;
  scaled <- lift (interpolate x sf mode) ;;
  out <- lift (getitem "out" (opt_out (opt self))) ;;
  lift (dict_display out scaled).

(** ** create_injector *)

Definition create_injector (opt_inject : options) (env : environment)
  : result injector :=
  match getitem "type" (opt_type opt_inject) with
  | Err e => Err e
  | Ok type =>
      if String.eqb type "generator" then
        Injector_init ImageGeneratorInjector opt_inject env
      else if String.eqb type "discriminator" then
        Injector_init DiscriminatorInjector opt_inject env
      else if String.eqb type "scheduled_scalar" then
        ScheduledScalarInjector_init opt_inject env
      else if String.eqb type "img_grad" then
        ImageGradientInjector_init opt_inject env
      else if String.eqb type "add_noise" then
        Injector_init AddNoiseInjector opt_inject env
      else if String.eqb type "greyscale" then
        Injector_init GreyInjector opt_inject env
      else if String.eqb type "interpolate" then
        Injector_init InterpolateInjector opt_inject env
      else if String.eqb type "imageflow" then
        (* ImageFlowInjector is not defined: its import is commented out *)
        Err (NameError "ImageFlowInjector")
      else
        Err NotImplementedError
  end.

(** The method [forward] that an instance of each class runs. [rng] is
    the stream of draws that the random source hands out during the
    call. *)
Definition forward (self : injector) (env : environment) (rng : nat -> scalar)
  : M (gmap string value) :=
  match cls self with
  | ImageGeneratorInjector => ImageGeneratorInjector_forward self env
  | DiscriminatorInjector => DiscriminatorInjector_forward self env
  | ScheduledScalarInjector sched => ScheduledScalarInjector_forward sched self env
  | ImageGradientInjector => ImageGradientInjector_forward self
  | AddNoiseInjector => AddNoiseInjector_forward self env rng
  | GreyInjector => GreyInjector_forward self
  | InterpolateInjector => InterpolateInjector_forward self
  end.

End Injectors.

(** The tag under which [create_injector] builds each class, and the
    tags its chain of comparisons lists. *)
Definition class_tag `{Collaborators} (c : class) : string :=
  match c with
  | ImageGeneratorInjector => "generator"
  | DiscriminatorInjector => "discriminator"
  | ScheduledScalarInjector _ => "scheduled_scalar"
  | ImageGradientInjector => "img_grad"
  | AddNoiseInjector => "add_noise"
  | GreyInjector => "greyscale"
  | InterpolateInjector => "interpolate"
  end.

Definition constructed_tags : list string :=
  ["generator"; "discriminator"; "scheduled_scalar"; "img_grad";
   "add_noise"; "greyscale"; "interpolate"].

Definition dispatch_tags : list string := constructed_tags ++ ["imageflow"].

(** The items of a list or tuple; [None] for any other value. *)
Definition seq_items `{Scalar} (v : value) : option (list value) :=
  match v with
  | VList l | VTuple l => Some l
  | _ => None
  end.

(** Entry [(n, c, h, w)] of a four-dimensional tensor. *)
Definition at4 `{Scalar} (t : tensor) (n c h w : nat) : scalar :=
  match shape t with
  | [_; d1; d2; d3] => nth (((n * d1 + c) * d2 + h) * d3 + w) (data t) rzero
  | _ => rzero
  end.

(** The state keys that [forward] looks up: the keys of [self.input]
    for the two classes that call a sub-network, the key [opt['in']]
    for the others, and [opt['scale']] of the noise injector when it is
    a string. *)
Definition keys_list (o : option keys) : list string :=
  match o with
  | Some (Key k) => [k]
  | Some (Keys ks) => ks
  | None => []
  end.

Definition single_key (o : option keys) : list string :=
  match o with
  | Some (Key k) => [k]
  | _ => []
  end.

Definition scale_key `{Scalar} (o : option scale_opt) : list string :=
  match o with
  | Some (ScaleKey k) => [k]
  | _ => []
  end.

Definition declared_keys `{Collaborators} (self : injector) : list string :=
  match cls self with
  | ImageGeneratorInjector | DiscriminatorInjector => keys_list (input self)
  | ScheduledScalarInjector _ => []
  | AddNoiseInjector =>
      scale_key (opt_scale (opt self)) ++ single_key (opt_in (opt self))
  | ImageGradientInjector | GreyInjector | InterpolateInjector =>
      single_key (opt_in (opt self))
  end.

(** ** An instance over the integers, to run the definitions *)

Definition Z_scalar : Scalar := {|
  scalar := Z;
  rzero := 0%Z;
  radd := Z.add;
  rmul := Z.mul;
  rmean := fun l => (fold_right Z.add 0 l / Z.of_nat (length l))%Z
|}.

Definition Z_collaborators : @Collaborators Z_scalar := {|
  sched_opt := Z;
  scheduler_t := Z;
  get_scheduler_for_opt := fun slope => Ok slope;
  get_weight_for_step := fun slope step => Ok (@VFloat Z_scalar (slope * step)%Z);
  img_grad_fn := fun v => Ok v;
  interpolate := fun v _ _ => Ok v;
  broadcast := fun _ _ _ => Err RuntimeError
|}.

(** ** A small configuration over the integers *)

Definition ex_options (type : string) (i o : option keys) (sc : @scale_opt Z_scalar)
  : @options Z_scalar Z_collaborators :=
  @mkOptions Z_scalar Z_collaborators (Some type) i o
    (Some "netG") (Some "netD") (Some 2%Z) (Some sc) (Some 2%Z) (Some "nearest").

(** A sub-network that returns a tuple of three values. *)
Definition ex_three_results : @model Z_scalar :=
  fun _ => Ok (@VTuple Z_scalar
                 [@VFloat Z_scalar 1%Z; @VFloat Z_scalar 2%Z; @VFloat Z_scalar 3%Z]).

Definition ex_env (step : Z) : @environment Z_scalar :=
  @mkEnv Z_scalar (Some {[ "netG" := ex_three_results ]})
    (Some {[ "netD" := ex_three_results ]}) (Some "cuda") (Some step).

(** An image of shape (1, 2, 1, 2): two channels of one row. *)
Definition ex_image : @tensor Z_scalar :=
  @mkTensor Z_scalar [1; 2; 1; 2] [1%Z; 3%Z; 5%Z; 9%Z].

Definition ex_state : gmap string (@value Z_scalar) :=
  {[ "lr" := @VTensor Z_scalar ex_image ]}.

Definition ex_injector (c : @class Z_scalar Z_collaborators) (i : option keys)
    (o : keys) (sc : @scale_opt Z_scalar) : @injector Z_scalar Z_collaborators :=
  @mkInjector Z_scalar Z_collaborators c
    (ex_options (class_tag c) i (Some o) sc) i o.

Definition ex_scale : @scale_opt Z_scalar := @ScaleLit Z_scalar 3%Z.

Definition ex_zero_rng : nat -> Z := fun _ => 0%Z.

(** A generator injector and a discriminator injector with two output
    keys, for a sub-network that returns three values. *)
Definition ex_gen : @injector Z_scalar Z_collaborators :=
  ex_injector ImageGeneratorInjector (Some (Key "lr")) (Keys ["a"; "b"]) ex_scale.

Definition ex_disc : @injector Z_scalar Z_collaborators :=
  ex_injector DiscriminatorInjector (Some (Key "lr")) (Keys ["a"; "b"]) ex_scale.

Definition ex_grey : @injector Z_scalar Z_collaborators :=
  ex_injector GreyInjector (Some (Key "lr")) (Key "grey") ex_scale.

Definition ex_noise : @injector Z_scalar Z_collaborators :=
  ex_injector AddNoiseInjector (Some (Key "lr")) (Key "noisy_lr") ex_scale.

Definition ex_sched : @injector Z_scalar Z_collaborators :=
  ex_injector (@ScheduledScalarInjector Z_scalar Z_collaborators 2%Z) None (Key "weight") ex_scale.

(** * The diffusion network of codes/models/audio/music/transformer_diffusion9.py

    The layers of torch and of the other modules of the repository are
    taken as given: a layer is described by the call that builds it
    and by whether that call raises, a sub-network by the function it
    computes of its input and of the random source. What is embedded
    is what this file itself decides: the arguments each layer is
    built with, the order and the conditions under which the layers
    are built and the sub-networks are called, and the arithmetic on
    steps and temperatures. *)

Definition rbind {A B} (r : result A) (f : A -> result B) : result B :=
  match r with
  | Ok a => f a
  | Err e => Err e
  end.

Notation "'do' x <- m ; f" := (rbind m (fun x => f))
  (at level 10, x name, m at level 100, f at level 200).

(** ** ResBlock.__init__ *)

(** The layers a ResBlock is built from, each named by the call that
    builds it. *)
Inductive layer `{Scalar} : Type :=
| normalization (channels : Z)
| SiLU
| conv_nd (dims in_channels out_channels kernel_size padding : Z)
| linear (in_features out_features : Z)
| Dropout (p : scalar)
| zero_module (l : layer)
| Identity.

Record ResBlock `{Scalar} : Type := mkResBlock {
  channels : Z;
  emb_channels : Z;
  dropout : scalar;
  out_channels : Z;
  use_scale_shift_norm : bool;
  in_layers : list layer;
  emb_layers : list layer;
  out_layers : list layer;
  skip_connection : layer
}.

(** [a or b] on an optional integer: [None] and 0 are false. *)
Definition py_or (a : option Z) (b : Z) : Z :=
  match a with
  | Some x => if Z.eqb x 0 then b else x
  | None => b
  end.

(** [{1: 0, 3: 1, 5: 2}] *)
Definition kernel_padding : gmap Z Z :=
  <[ 5%Z := 2%Z ]> (<[ 3%Z := 1%Z ]> (<[ 1%Z := 0%Z ]> ∅)).

(** The constructors of the layers are those of torch and of
    models.diffusion.nn: each may refuse its arguments ([nn.Dropout] a
    probability outside [0, 1], [normalization] a channel count it
    finds no groups for, a convolution or a linear layer a negative
    size). What each raises, if anything, is taken as given. *)
Class LayerConstructors `{Scalar} : Type := {
  normalization_raises : Z -> option error;
  conv_nd_raises : Z -> Z -> Z -> Z -> Z -> option error;
                                 (* dims, in_channels, out_channels, kernel_size, padding *)
  linear_raises : Z -> Z -> option error;
  Dropout_raises : scalar -> option error
}.

(** The call that builds the layer [l]: it returns [l] unless the
    constructor raises. [nn.SiLU()], [nn.Identity()] and [zero_module]
    of a layer already built do not raise. *)
Definition construct `{LayerConstructors} (l : layer) : result layer :=
  let raised :=
    match l with
    | normalization channels => normalization_raises channels
    | conv_nd dims in_channels out_channels kernel_size padding =>
        conv_nd_raises dims in_channels out_channels kernel_size padding
    | linear in_features out_features => linear_raises in_features out_features
    | Dropout p => Dropout_raises p
    | SiLU | zero_module _ | Identity => None
    end in
  match raised with
  | Some e => Err e
  | None => Ok l
  end.

Definition ResBlock_init `{LayerConstructors} (channels emb_channels : Z) (dropout : scalar)
    (out_channels : option Z) (dims kernel_size : Z)
    (efficient_config use_scale_shift_norm : bool) : result ResBlock :=
  let out_channels := py_or out_channels channels in
  do padding <- getitem (pretty kernel_size) (kernel_padding !! kernel_size) ;
  let eff_kernel := if efficient_config then 1%Z else 3%Z in
  let eff_padding := if efficient_config then 0%Z else 1%Z in
  do in_norm <- construct (normalization channels) ;
  do in_conv <- construct (conv_nd dims channels out_channels eff_kernel eff_padding) ;
  let in_layers := [in_norm; SiLU; in_conv] in
  do emb_linear <-
    construct (linear emb_channels
                 (if use_scale_shift_norm then 2 * out_channels else out_channels)%Z) ;
  let emb_layers := [SiLU; emb_linear] in
  do out_norm <- construct (normalization out_channels) ;
  do out_dropout <- construct (Dropout dropout) ;
  do out_conv <- construct (conv_nd dims out_channels out_channels kernel_size padding) ;
  let out_layers := [out_norm; SiLU; out_dropout; zero_module out_conv] in
  do skip_connection <-
    (if Z.eqb out_channels channels then Ok Identity
     else construct (conv_nd dims channels out_channels eff_kernel eff_padding)) ;
  Ok (mkResBlock _ channels emb_channels dropout out_channels use_scale_shift_norm
        in_layers emb_layers out_layers skip_connection).

(** The length of a spatial dimension after a layer: a convolution of
    stride 1 and dilation 1 (as [conv_nd] builds them here) maps a
    length [L] to [L + 2 * padding - kernel_size + 1]; the other
    layers keep the length. *)
Fixpoint layer_length `{Scalar} (l : layer) (L : Z) : Z :=
  match l with
  | conv_nd _ _ _ kernel_size padding => (L + 2 * padding - kernel_size + 1)%Z
  | zero_module l' => layer_length l' L
  | _ => L
  end.

Definition sequential_length `{Scalar} (ls : list layer) (L : Z) : Z :=
  fold_left (fun L l => layer_length l L) ls L.

(** The number of channels after a layer, for an input of [c]
    channels. *)
Fixpoint layer_channels `{Scalar} (l : layer) (c : Z) : Z :=
  match l with
  | conv_nd _ _ out_channels _ _ => out_channels
  | linear _ out_features => out_features
  | zero_module l' => layer_channels l' c
  | _ => c
  end.

Definition sequential_channels `{Scalar} (ls : list layer) (c : Z) : Z :=
  fold_left (fun c l => layer_channels l c) ls c.

(** ** ResBlock._forward, lines 96-97 *)

(** [emb_out[..., None]]: one more dimension of size 1 at the end,
    over the same elements. *)
Definition unsqueeze_last `{Scalar} (t : tensor) : tensor :=
  mkTensor (shape t ++ [1]) (data t).

(** [while len(emb_out.shape) < len(h.shape): emb_out = emb_out[..., None]],
    run for at most [fuel] iterations; [None] when the fuel runs out
    before the loop ends. *)
Fixpoint expand_emb_out `{Scalar} (fuel : nat) (h_rank : nat) (emb_out : tensor)
  : option tensor :=
  if Nat.ltb (length (shape emb_out)) h_rank then
    match fuel with
    | O => None
    | S fuel' => expand_emb_out fuel' h_rank (unsqueeze_last emb_out)
    end
  else Some emb_out.

(** ** DiffusionLayer.__init__ *)

(** [ResBlock(model_channels, model_channels, dropout, model_channels,
    dims=1, use_scale_shift_norm=True)], with the defaults
    [kernel_size=3] and [efficient_config=False]. *)
Definition DiffusionLayer_resblk `{LayerConstructors} (model_channels : Z)
    (dropout : scalar) : result ResBlock :=
  ResBlock_init model_channels model_channels dropout (Some model_channels)
    1 3 false true.

(** ** The random source of torch

    Dropout, the Gumbel noise of the quantizer and [torch.rand] draw
    from the generator of torch. A computation that may draw takes the
    stream of the draws to come and returns, beside its result, the
    stream that is left for the computations after it. *)
Definition rand `{Scalar} (A : Type) : Type :=
  (nat -> scalar) -> result A * (nat -> scalar).

Definition rand_ret `{Scalar} {A} (a : A) : rand A := fun rng => (Ok a, rng).

(** A computation that draws nothing. *)
Definition rand_lift `{Scalar} {A} (r : result A) : rand A := fun rng => (r, rng).

Definition rand_bind `{Scalar} {A B} (m : rand A) (f : A -> rand B) : rand B :=
  fun rng =>
    match m rng with
    | (Ok a, rng') => f a rng'
    | (Err e, rng') => (Err e, rng')
    end.

Notation "'rdo' x <- m ; f" := (rand_bind m (fun x => f))
  (at level 10, x name, m at level 100, f at level 200).

(** ** TransformerDiffusion *)

(** Comparison and powers of Python floats, beside [Scalar]. *)
Class FloatOps `{Scalar} : Type := {
  rltb : scalar -> scalar -> bool;     (* a < b *)
  rpow : scalar -> Z -> scalar         (* a ** n for an int n *)
}.

(** The operations of torch that the network calls on whole tensors. *)
Class TorchOps `{Scalar} : Type := {
  torch_repeat : tensor -> list nat -> result tensor;      (* t.repeat(...) *)
  torch_permute : tensor -> list nat -> result tensor;     (* t.permute(...) *)
  torch_cat : list tensor -> Z -> result tensor;           (* torch.cat(ts, dim) *)
  F_interpolate_nearest : tensor -> nat -> result tensor;  (* F.interpolate(t, size, 'nearest') *)
  torch_rand_lt : list nat -> scalar -> rand tensor;       (* torch.rand(shape) < p *)
  torch_where : tensor -> tensor -> tensor -> result tensor;
  timestep_embedding : tensor -> Z -> result tensor
}.

(** The network: its settings and the function each sub-network
    computes, in the mode ([training] or not) the network is in. The
    code converter and the layers are built with dropout, so what they
    compute may depend on the random source. *)
Record TransformerDiffusion `{Scalar} : Type := mkTransformerDiffusion {
  model_channels : Z;
  unconditioned_percentage : scalar;
  training : bool;
  inp_block : tensor -> rand tensor;
  time_embed : tensor -> rand tensor;
  input_converter : tensor -> rand tensor;
  code_converter : tensor -> rand tensor;
  code_converter_parameters : list tensor;
  unconditioned_embedding : tensor;
  intg : tensor -> rand tensor;
  layers : list (tensor -> tensor -> rand tensor);
  out : tensor -> rand tensor
}.

(** [t.shape[0]] and [t.shape[-1]] *)
Definition shape_first `{Scalar} (t : tensor) : result nat :=
  match shape t with
  | d :: _ => Ok d
  | [] => Err IndexError
  end.

Definition shape_last `{Scalar} (t : tensor) : result nat :=
  match last (shape t) with
  | Some d => Ok d
  | None => Err IndexError
  end.

(** A sub-network called on [None] in place of a tensor. *)
Definition call_on `{Scalar} (f : tensor -> rand tensor) (x : option tensor)
  : rand tensor :=
  match x with
  | Some t => f t
  | None => rand_lift (Err TypeError)
  end.

Definition timestep_independent `{FloatOps} `{!TorchOps}
    (self : TransformerDiffusion)
    (codes : option tensor) (expected_seq_len : nat) : rand tensor :=
  rdo code_emb <- call_on (input_converter self) codes ;
  rdo code_emb <-
    (if training self && rltb rzero (unconditioned_percentage self) then
       rdo b <- rand_lift (shape_first code_emb) ;
       rdo unconditioned_batches <-
         torch_rand_lt [b; 1; 1] (unconditioned_percentage self) ;
       rdo cb <- rand_lift match codes with
                           | Some c => shape_first c
                           | None => Err (AttributeError "shape")
                           end ;
       rdo u <- rand_lift (torch_repeat (unconditioned_embedding self) [cb; 1; 1]) ;
       rand_lift (torch_where unconditioned_batches u code_emb)
     else rand_ret code_emb) ;
  rdo code_emb <- code_converter self code_emb ;
  rdo p <- rand_lift (torch_permute code_emb [0; 2; 1]) ;
  rdo i <- rand_lift (F_interpolate_nearest p expected_seq_len) ;
  rand_lift (torch_permute i [0; 2; 1]).

(** [for layer in self.layers: x = checkpoint(layer, x, blk_emb)] *)
Fixpoint run_layers `{Scalar} (ls : list (tensor -> tensor -> rand tensor))
    (x blk_emb : tensor) : rand tensor :=
  match ls with
  | [] => rand_ret x
  | layer :: ls' =>
      rdo x' <- layer x blk_emb ;
      run_layers ls' x' blk_emb
  end.

(** Lines 203-225: the output of the network and the parameters the
    chosen branch has not used. *)
Definition TransformerDiffusion_out `{FloatOps} `{!TorchOps}
    (self : TransformerDiffusion) (rng : nat -> scalar)
    (x timesteps : tensor) (codes conditioning_input precomputed_code_embeddings : option tensor)
    (conditioning_free : bool) : result (tensor * list tensor) * (nat -> scalar) :=
  (rdo _ <- rand_lift match precomputed_code_embeddings with
                      | Some _ =>
                          match codes, conditioning_input with
                          | None, None => Ok tt
                          | _, _ => Err AssertionError
                          end
                      | None => Ok tt
                      end ;
   rdo ce <-
     (if conditioning_free then
        rdo b <- rand_lift (shape_first x) ;
        rdo l <- rand_lift (shape_last x) ;
        rdo code_emb <- rand_lift (torch_repeat (unconditioned_embedding self) [b; l; 1]) ;
        rand_ret (code_emb, code_converter_parameters self)
      else
        rdo code_emb <-
          match precomputed_code_embeddings with
          | Some p => rand_ret p
          | None =>
              rdo l <- rand_lift (shape_last x) ;
              timestep_independent self codes l
          end ;
        rand_ret (code_emb, [unconditioned_embedding self])) ;
   let unused_params := snd ce in
   rdo code_emb <- rand_lift (torch_permute (fst ce) [0; 2; 1]) ;
   rdo te <- rand_lift (timestep_embedding timesteps (model_channels self)) ;
   rdo blk_emb <- time_embed self te ;
   rdo x <- inp_block self x ;
   rdo c <- rand_lift (torch_cat [x; code_emb] 1) ;
   rdo x <- intg self c ;
   rdo x <- run_layers (layers self) x blk_emb ;
   rdo o <- out self x ;
   rand_ret (o, unused_params)) rng.

(** Lines 228-231: [extraneous_addition] sums the means of the unused
    parameters, and [out + extraneous_addition * 0] adds that, times
    zero, to every element. *)
Definition extraneous_addition `{Scalar} (unused_params : list tensor) : scalar :=
  fold_left (fun acc p => radd acc (rmean (data p))) unused_params rzero.

Definition add_scalar `{Scalar} (t : tensor) (s : scalar) : tensor :=
  mkTensor (shape t) (map (fun e => radd e s) (data t)).

Definition TransformerDiffusion_forward `{FloatOps} `{!TorchOps}
    (self : TransformerDiffusion) (rng : nat -> scalar)
    (x timesteps : tensor) (codes conditioning_input precomputed_code_embeddings : option tensor)
    (conditioning_free : bool) : result tensor * (nat -> scalar) :=
  (rdo r <- (fun rng => TransformerDiffusion_out self rng x timesteps codes
                          conditioning_input precomputed_code_embeddings
                          conditioning_free) ;
   rand_ret (add_scalar (fst r) (rmul (extraneous_addition (snd r)) rzero))) rng.

(** ** TransformerDiffusionWithQuantizer *)

(** What the network uses of its MusicQuantizer2: the temperature of
    its quantizer, its temperature settings, its parameters and the
    function it computes (the projection and the diversity loss) of
    its input, at the temperature its quantizer has at the call and
    with the draws it takes from the random source. *)
Record MusicQuantizer2 `{Scalar} : Type := mkMusicQuantizer2 {
  temperature : scalar;
  max_gumbel_temperature : scalar;
  min_gumbel_temperature : scalar;
  gumbel_temperature_decay : scalar;
  quantizer_parameters : list tensor;
  quantizer_call : scalar -> tensor -> rand (tensor * tensor)
}.

Record TransformerDiffusionWithQuantizer `{Scalar} : Type := mkWithQuantizer {
  internal_step : Z;
  freeze_quantizer_until : Z;
  diff : TransformerDiffusion;
  quantizer : MusicQuantizer2
}.

Definition set_temperature `{Scalar} (q : MusicQuantizer2) (t : scalar)
  : MusicQuantizer2 :=
  mkMusicQuantizer2 _ t (max_gumbel_temperature q) (min_gumbel_temperature q)
    (gumbel_temperature_decay q) (quantizer_parameters q) (quantizer_call q).

Definition TransformerDiffusionWithQuantizer_init `{Scalar}
    (freeze_quantizer_until : Z) (d : TransformerDiffusion) (q : MusicQuantizer2)
  : TransformerDiffusionWithQuantizer :=
  mkWithQuantizer _ 0 freeze_quantizer_until d
    (set_temperature q (min_gumbel_temperature q)).

(** [max(a, b)] on floats: the first argument unless the second is
    greater. *)
Definition py_max `{FloatOps} (a b : scalar) : scalar :=
  if rltb a b then b else a.

Definition update_for_step `{FloatOps} (self : TransformerDiffusionWithQuantizer)
    (step : Z) : TransformerDiffusionWithQuantizer :=
  let qstep := Z.max 0 (step - freeze_quantizer_until self) in
  mkWithQuantizer _ step (freeze_quantizer_until self) (diff self)
    (set_temperature (quantizer self)
       (py_max
          (rmul (max_gumbel_temperature (quantizer self))
                (rpow (gumbel_temperature_decay (quantizer self)) qstep))
          (min_gumbel_temperature (quantizer self)))).

(** [self.internal_step > self.freeze_quantizer_until] *)
Definition quant_grad_enabled `{Scalar} (self : TransformerDiffusionWithQuantizer)
  : bool :=
  Z.ltb (freeze_quantizer_until self) (internal_step self).

(** Lines 264-266: [unused = unused + p.mean() * 0] over the
    parameters of the quantizer. *)
Definition unused_sum `{Scalar} (ps : list tensor) : scalar :=
  fold_left (fun unused p => radd unused (rmul (rmean (data p)) rzero)) ps rzero.

Definition scale_tensor `{Scalar} (t : tensor) (s : scalar) : tensor :=
  mkTensor (shape t) (map (fun e => rmul e s) (data t)).

(** [torch.set_grad_enabled] switches the recording of gradients and
    changes no value: the quantizer is called the same way in both
    modes, at the temperature it has. *)
Definition TransformerDiffusionWithQuantizer_forward `{FloatOps} `{!TorchOps}
    (self : TransformerDiffusionWithQuantizer) (rng : nat -> scalar)
    (x timesteps truth_mel : tensor) (conditioning_input : option tensor)
    (disable_diversity conditioning_free : bool) : result value * (nat -> scalar) :=
  (rdo q <- quantizer_call (quantizer self) (temperature (quantizer self)) truth_mel ;
   rdo proj <- rand_lift (torch_permute (fst q) [0; 2; 1]) ;
   let diversity_loss := snd q in
   let pd :=
     if negb (quant_grad_enabled self) then
       (add_scalar proj (unused_sum (quantizer_parameters (quantizer self))),
        scale_tensor diversity_loss rzero)
     else (proj, diversity_loss) in
   rdo d <- (fun rng => TransformerDiffusion_forward (diff self) rng x timesteps
                          (Some (fst pd)) conditioning_input None conditioning_free) ;
   if disable_diversity then rand_ret (VTensor d)
   else rand_ret (VTuple [VTensor d; VTensor (snd pd)])) rng.

(** ** MultiGroupEmbedding *)

(** A tensor of token indices (dtype long): its shape and its
    elements in row-major order. *)
Record itensor : Type := mkITensor {
  ishape : list nat;
  idata : list Z
}.

(** An [nn.Embedding]: a table of [num_embeddings] rows of
    [embedding_dim] numbers, in row-major order. *)
Record Embedding `{Scalar} : Type := mkEmbedding {
  num_embeddings : nat;
  embedding_dim : nat;
  weight : list scalar
}.

(** [nn.Embedding(tokens, d)], its weights drawn from [init]. *)
Definition nn_Embedding `{Scalar} (init : nat -> scalar) (tokens d : nat) : Embedding :=
  mkEmbedding _ tokens d (map init (seq 0 (tokens * d))).

(** [[nn.Embedding(tokens, dim // groups) for _ in range(groups)]];
    [init i] draws the weights of the embedding of group [i]. *)
Definition MultiGroupEmbedding_init `{Scalar} (init : nat -> nat -> scalar)
    (tokens groups dim : nat) : list Embedding :=
  map (fun i => nn_Embedding (init i) tokens (dim / groups)) (seq 0 groups).

(** Two exceptions of torch whose kind this file does not decide, and
    which depends on the sizes involved and on the version of torch:
    the one [nn.Embedding] raises for an index outside its table (given
    the size of the table, the width of its rows and the index), and
    the one [torch.cat] raises for an empty list of tensors. *)
Class TorchErrors : Type := {
  embedding_error : nat -> nat -> Z -> error;
  cat_empty_error : error
}.

Fixpoint mapM_result {A B} (f : A -> result B) (l : list A) : result (list B) :=
  match l with
  | [] => Ok []
  | a :: l' =>
      do b <- f a ;
      do bs <- mapM_result f l' ;
      Ok (b :: bs)
  end.

(** The [i]-th run of [n] consecutive elements. *)
Definition block {A} (n i : nat) (l : list A) : list A :=
  firstn n (skipn (i * n) l).

(** [embedding(idx)]: the row of each index, in a new last dimension;
    an index outside the table raises. *)
Definition Embedding_forward `{Scalar} `{!TorchErrors} (e : Embedding) (idx : itensor)
  : result tensor :=
  do rows <- mapM_result
               (fun k : Z =>
                  if (0 <=? k)%Z && (k <? Z.of_nat (num_embeddings e))%Z
                  then Ok (block (embedding_dim e) (Z.to_nat k) (weight e))
                  else Err (embedding_error (num_embeddings e) (embedding_dim e) k))
               (idata idx) ;
  Ok (mkTensor (ishape idx ++ [embedding_dim e]) (concat rows)).

(** [x[:, :, i]] *)
Definition select_dim2 (x : itensor) (i : nat) : result itensor :=
  match ishape x with
  | B :: T :: G :: rest =>
      if Nat.ltb i G then
        Ok (mkITensor (B :: T :: rest)
              (flat_map (fun p => block (numel rest) (p * G + i) (idata x))
                        (seq 0 (B * T))))
      else Err IndexError
  | _ => Err IndexError
  end.

Definition last_dim `{Scalar} (t : tensor) : nat := default 0 (last (shape t)).

(** [torch.cat(h, dim=-1)] on tensors of one or more dimensions: the
    shapes must agree up to the last dimension, and the rows are laid
    end to end. *)
Definition cat_last `{Scalar} `{!TorchErrors} (h : list tensor) : result tensor :=
  match h with
  | [] => Err cat_empty_error
  | t0 :: _ =>
      let outer := removelast (shape t0) in
      if forallb (fun t => bool_decide (shape t ≠ [] /\ removelast (shape t) = outer)) h
      then Ok (mkTensor (outer ++ [list_sum (map last_dim h)])
                 (flat_map (fun q => flat_map (fun t => block (last_dim t) q (data t)) h)
                           (seq 0 (numel outer))))
      else Err RuntimeError
  end.

(** [[embedding(x[:, :, i]) for i, embedding in enumerate(self.m)]],
    from index [i] on. *)
Fixpoint embed_groups `{Scalar} `{!TorchErrors} (m : list Embedding) (i : nat)
    (x : itensor) : result (list tensor) :=
  match m with
  | [] => Ok []
  | embedding :: m' =>
      do xi <- select_dim2 x i ;
      do hi <- Embedding_forward embedding xi ;
      do hs <- embed_groups m' (S i) x ;
      Ok (hi :: hs)
  end.

Definition MultiGroupEmbedding_forward `{Scalar} `{!TorchErrors} (m : list Embedding)
    (x : itensor) : result tensor :=
  do h <- embed_groups m 0 x ;
  cat_last h.

(** The row that the embedding of group [g] gives token [k]. *)
Definition row_of `{Scalar} `{!TorchErrors} (init : nat -> nat -> scalar)
    (tokens d g : nat) (k : Z) : result (list scalar) :=
  if (0 <=? k)%Z && (k <? Z.of_nat tokens)%Z
  then Ok (block d (Z.to_nat k) (map (init g) (seq 0 (tokens * d))))
  else Err (embedding_error tokens d k).

(** Every token that [forward] looks up is in the table: [x] has
    three dimensions or more, at least [groups] entries along the
    third, and the first [groups] of them are indices below [tokens]. *)
Definition tokens_in_range (tokens groups : nat) (x : itensor) : Prop :=
  exists B T G rest,
    ishape x = B :: T :: G :: rest /\ groups <= G /\
    forall p r g, p < B * T -> r < numel rest -> g < groups ->
      (0 <= nth ((p * G + g) * numel rest + r) (idata x) 0 < Z.of_nat tokens)%Z.

(** ** An instance over the integers for the diffusion network

    The operations on whole tensors are stand-ins that return their
    first tensor argument: enough to run the control flow of the
    network, not a model of torch. The constructors of the layers
    accept a part of what the real ones accept: a channel count that
    is a positive multiple of 4 for the normalisation, positive sizes
    and one to three dimensions for a convolution, positive sizes for
    a linear layer, a probability of 0 or 1 for the dropout. *)

Definition Z_float : @FloatOps Z_scalar :=
  @Build_FloatOps Z_scalar Z.ltb Z.pow.

Definition Z_layers : @LayerConstructors Z_scalar :=
  @Build_LayerConstructors Z_scalar
    (fun channels =>
       if (0 <? channels)%Z && (channels mod 4 =? 0)%Z then None
       else Some AssertionError)
    (fun dims in_channels out_channels kernel_size padding =>
       if negb ((1 <=? dims)%Z && (dims <=? 3)%Z) then Some ValueError
       else if (0 <? in_channels)%Z && (0 <? out_channels)%Z &&
               (0 <? kernel_size)%Z && (0 <=? padding)%Z then None
       else Some RuntimeError)
    (fun in_features out_features =>
       if (0 <? in_features)%Z && (0 <? out_features)%Z then None
       else Some RuntimeError)
    (fun p => if (p =? 0)%Z || (p =? 1)%Z then None else Some ValueError).

Definition Z_torch : @TorchOps Z_scalar :=
  @Build_TorchOps Z_scalar
    (fun t _ => Ok t)
    (fun t _ => Ok t)
    (fun ts _ => match ts with
                 | t :: _ => Ok t
                 | [] => Err RuntimeError
                 end)
    (fun t _ => Ok t)
    (fun sh _ rng => (Ok (@mkTensor Z_scalar sh []), fun i => rng (S i)))
    (fun _ _ t => Ok t)
    (fun t _ => Ok t).

(** An index outside the table of an embedding raises IndexError,
    and RuntimeError when the rows of the table have no column. *)
Definition Z_torch_errors : TorchErrors :=
  Build_TorchErrors
    (fun _ embedding_dim _ => if Nat.eqb embedding_dim 0 then RuntimeError else IndexError)
    RuntimeError.

(** A layer with dropout: it adds the next draw to every element. *)
Definition ex_dropout_layer : @tensor Z_scalar -> @rand Z_scalar (@tensor Z_scalar) :=
  fun t rng => (Ok (@add_scalar Z_scalar t (rng 0)), fun i => rng (S i)).

Definition ex_diffusion : @TransformerDiffusion Z_scalar :=
  @mkTransformerDiffusion Z_scalar 2 0%Z false
    (fun t => rand_ret t) (fun t => rand_ret t) (fun t => rand_ret t) ex_dropout_layer
    [ex_image] (@mkTensor Z_scalar [1; 1; 2] [7%Z; 8%Z])
    (fun t => rand_ret t) [fun t _ => ex_dropout_layer t] (fun t => rand_ret t).

(** A quantizer whose projection is its input times its temperature. *)
Definition ex_quantizer : @MusicQuantizer2 Z_scalar :=
  @mkMusicQuantizer2 Z_scalar 0%Z 4%Z 1%Z 1%Z [ex_image]
    (fun temperature t =>
       rand_ret (@scale_tensor Z_scalar t temperature, @mkTensor Z_scalar [] [5%Z])).

Definition ex_with_quantizer : @TransformerDiffusionWithQuantizer Z_scalar :=
  TransformerDiffusionWithQuantizer_init 20000 ex_diffusion ex_quantizer.

(** Three groups for a width of 8: each embedding has 2 columns. *)
Definition ex_embeddings : list (@Embedding Z_scalar) :=
  @MultiGroupEmbedding_init Z_scalar
    (fun g i => (Z.of_nat g * 100 + Z.of_nat i)%Z) 4 3 8.

Definition ex_tokens : itensor := mkITensor [1; 2; 3] [0; 1; 2; 3; 0; 1]%Z.

Definition ex_noise_scheduled : @injector Z_scalar Z_collaborators :=
  ex_injector AddNoiseInjector (Some (Key "lr")) (Key "noisy_lr")
    (@ScaleKey Z_scalar "weight").

Definition ex_grey_list_out : @injector Z_scalar Z_collaborators :=
  ex_injector GreyInjector (Some (Key "lr")) (Keys ["a"; "b"]) ex_scale.

Definition ex_grey_without_in : @injector Z_scalar Z_collaborators :=
  ex_injector GreyInjector None (Key "grey") ex_scale.

(** ** Properties of the monad *)

Section Properties.

Context `{Collaborators}.

Definition read_only {A} (m : M A) : Prop :=
  forall st, snd (m st) = st.

Lemma read_only_ret {A} (a : A) : read_only (ret a).
Proof. intros st. reflexivity. Qed.

Lemma read_only_raise {A} (e : error) : read_only (@raise _ A e).
Proof. intros st. reflexivity. Qed.

Lemma read_only_lift {A} (r : result A) : read_only (lift r).
Proof. intros st. reflexivity. Qed.

Lemma read_only_bind {A B} (m : M A) (f : A -> M B) :
  read_only m -> (forall a, read_only (f a)) -> read_only (bind m f).
Proof.
  intros Hm Hf st. unfold bind.
  specialize (Hm st). destruct (m st) as [[a|e] st']; simpl in *; subst.
  - apply Hf.
  - reflexivity.
Qed.

Lemma read_only_state_getitem k : read_only (state_getitem k).
Proof. intros st. unfold state_getitem. destruct (st !! k); reflexivity. Qed.

Lemma read_only_state_subscript ks : read_only (state_subscript ks).
Proof.
  destruct ks; simpl.
  - apply read_only_state_getitem.
  - apply read_only_raise.
Qed.

Lemma read_only_state_getitems ks : read_only (state_getitems ks).
Proof.
  induction ks as [|k ks IH]; simpl.
  - apply read_only_ret.
  - apply read_only_bind; [apply read_only_state_getitem|].
    intros v. apply read_only_bind; [exact IH|].
    intros vs. apply read_only_ret.
Qed.

Create HintDb read_only.

#[local] Hint Resolve read_only_ret read_only_raise read_only_lift
  read_only_state_getitem read_only_state_subscript
  read_only_state_getitems : read_only.

Ltac read_only_tac :=
  repeat first
    [ apply read_only_bind; [|intros ?]
    | solve [auto with read_only]
    | match goal with |- read_only (match ?x with _ => _ end) => destruct x end ].

Lemma read_only_call_model g self : read_only (call_model g self).
Proof. unfold call_model. read_only_tac. Qed.

Lemma read_only_forward self env rng : read_only (forward self env rng).
Proof.
  unfold forward, ImageGeneratorInjector_forward, ImageGeneratorInjector_results,
    DiscriminatorInjector_forward, DiscriminatorInjector_results,
    ScheduledScalarInjector_forward, ImageGradientInjector_forward,
    AddNoiseInjector_forward, resolve_scale, GreyInjector_forward,
    InterpolateInjector_forward.
  destruct (cls self); read_only_tac.
Qed.

(** Running a [bind]. *)
Lemma bind_run {A B} (m : M A) (f : A -> M B) st a :
  read_only m -> fst (m st) = Ok a -> bind m f st = f a st.
Proof.
  intros Hm Ha. unfold bind. specialize (Hm st).
  destruct (m st) as [r st']; simpl in *; subst. reflexivity.
Qed.

Lemma bind_run_err {A B} (m : M A) (f : A -> M B) st e :
  read_only m -> fst (m st) = Err e -> bind m f st = (Err e, st).
Proof.
  intros Hm Ha. unfold bind. specialize (Hm st).
  destruct (m st) as [r st']; simpl in *; subst. reflexivity.
Qed.

Lemma bind_ok_inv {A B} (m : M A) (f : A -> M B) st b :
  fst (bind m f st) = Ok b ->
  exists a st', m st = (Ok a, st') /\ fst (f a st') = Ok b.
Proof.
  unfold bind. destruct (m st) as [[a|e] st']; simpl; intros Hb.
  - eauto.
  - discriminate.
Qed.

Lemma lift_ok_inv {A} (r : result A) st a :
  fst (lift r st) = Ok a -> r = Ok a.
Proof. intros Hr. exact Hr. Qed.

(** ** The state is only read *)

(** C4: whichever class the injector has and whatever the state, the
    state dictionary after [forward] is the one before it, whether
    [forward] returns or raises; the dictionary it returns is built
    from the empty one. *)
Theorem forward_preserves_state self env rng (st : gmap string value) :
  snd (forward self env rng st) = st.
Proof. apply read_only_forward. Qed.

(** ** Storing the results of a sub-network *)

Lemma enumerate_store_short ks : forall i (l : list value) acc,
  length l < i + length ks ->
  i <= length l ->
  enumerate_store ks i l acc = Err IndexError.
Proof.
  induction ks as [|k ks IH]; intros i l acc Hlt Hle; simpl in *.
  - lia.
  - destruct (l !! i) as [v|] eqn:Hv.
    + apply IH; [lia|]. apply lookup_lt_Some in Hv. lia.
    + reflexivity.
Qed.

Lemma enumerate_store_long ks : forall i (l : list value) acc,
  i + length ks <= length l ->
  exists m,
    enumerate_store ks i l acc = Ok m /\
    dom m = list_to_set ks ∪ dom acc /\
    (forall k, k ∉ ks -> m !! k = acc !! k) /\
    (forall j k, ks !! j = Some k ->
       (forall j', j < j' -> ks !! j' ≠ Some k) ->
       m !! k = l !! (i + j)).
Proof.
  induction ks as [|k ks IH]; intros i l acc Hlen; simpl in *.
  - exists acc. split; [reflexivity|]. split; [set_solver|].
    split; [reflexivity|]. intros j k' Hj. rewrite lookup_nil in Hj. discriminate.
  - destruct (lookup_lt_is_Some_2 l i) as [v Hv]; [lia|].
    rewrite Hv.
    destruct (IH (S i) l (<[k:=v]> acc)) as (m & Hm & Hdom & Hout & Hin); [lia|].
    exists m. split; [exact Hm|]. split; [|split].
    + rewrite Hdom, dom_insert_L. set_solver.
    + intros k' Hk'. rewrite Hout by set_solver.
      apply lookup_insert_ne. set_solver.
    + intros j k' Hj Hlast. destruct j as [|j]; simpl in Hj.
      * injection Hj as ->.
        assert (k' ∉ ks) as Hnotin.
        { intros Hel. apply list_elem_of_lookup in Hel as [j' Hj'].
          apply (Hlast (S j')); [lia|exact Hj']. }
        rewrite Hout by exact Hnotin.
        rewrite lookup_insert_eq, Nat.add_0_r. symmetry. exact Hv.
      * rewrite (Hin j k' Hj).
        -- f_equal. lia.
        -- intros j' Hlt. apply (Hlast (S j')). lia.
Qed.

Lemma enumerate_store_dom ks : forall i (l : list value) acc m,
  enumerate_store ks i l acc = Ok m ->
  dom m = list_to_set ks ∪ dom acc.
Proof.
  induction ks as [|k ks IH]; intros i l acc m Hm; simpl in *.
  - injection Hm as <-. set_solver.
  - destruct (l !! i) as [v|]; [|discriminate].
    rewrite (IH _ _ _ _ Hm), dom_insert_L. set_solver.
Qed.

Lemma store_results_dom out (r : value) m :
  store_results out r = Ok m -> dom m = keys_set out.
Proof.
  destruct out as [k|ks]; simpl; intros Hm.
  - injection Hm as <-. rewrite dom_insert_L. set_solver.
  - destruct r; try discriminate;
      rewrite (enumerate_store_dom _ _ _ _ _ Hm); set_solver.
Qed.

(** What lines 57-66 do with a list of output keys. *)
Lemma store_results_list ks (results : value) :
  match seq_items results with
  | None => store_results (Keys ks) results = Err AssertionError
  | Some l =>
      if decide (length l < length ks)
      then store_results (Keys ks) results = Err IndexError
      else exists m,
        store_results (Keys ks) results = Ok m /\
        dom m = list_to_set ks /\
        (forall j k, ks !! j = Some k ->
           (forall j', j < j' -> ks !! j' ≠ Some k) ->
           m !! k = l !! j)
  end.
Proof.
  assert (forall l : list value,
    if decide (length l < length ks)
    then enumerate_store ks 0 l ∅ = Err IndexError
    else exists m, enumerate_store ks 0 l ∅ = Ok m /\
      dom m = list_to_set ks /\
      (forall j k, ks !! j = Some k ->
         (forall j', j < j' -> ks !! j' ≠ Some k) -> m !! k = l !! j)) as Hl.
  { intros l. destruct (decide (length l < length ks)) as [Hlt|Hge].
    - apply enumerate_store_short; lia.
    - destruct (enumerate_store_long ks 0 l ∅) as (m & Hm & Hdom & _ & Hin); [lia|].
      exists m. split; [exact Hm|]. split; [rewrite Hdom; set_solver|exact Hin]. }
  destruct results; simpl; try reflexivity; apply Hl.
Qed.

Lemma forward_of_results {self} {m : M value} st (results : value) :
  read_only m ->
  fst (m st) = Ok results ->
  fst (bind m (fun results => lift (store_results (output self) results)) st)
  = store_results (output self) results.
Proof. intros Hro Hr. rewrite (bind_run _ _ _ _ Hro Hr). reflexivity. Qed.

Lemma read_only_generator_results self env :
  read_only (ImageGeneratorInjector_results self env).
Proof.
  unfold ImageGeneratorInjector_results. read_only_tac.
Qed.

Lemma read_only_discriminator_results self env :
  read_only (DiscriminatorInjector_results self env).
Proof.
  unfold DiscriminatorInjector_results. read_only_tac.
Qed.

(** C1, as the code has it: with a list of output keys, a result
    that is neither a list nor a tuple fails the assertion, a result
    sequence shorter than the list of keys raises IndexError, and a
    result sequence at least as long is stored, item [j] under key
    [out[j]] (the last occurrence of a repeated key wins) and items
    past the end of the key list ignored. The same holds for the
    generator and the discriminator injector. *)
Theorem model_forward_list_out self env (st : gmap string value) ks results :
  output self = Keys ks ->
  (fst (ImageGeneratorInjector_results self env st) = Ok results ->
   match seq_items results with
   | None => fst (ImageGeneratorInjector_forward self env st) = Err AssertionError
   | Some l =>
       if decide (length l < length ks)
       then fst (ImageGeneratorInjector_forward self env st) = Err IndexError
       else exists m,
         fst (ImageGeneratorInjector_forward self env st) = Ok m /\
         dom m = list_to_set ks /\
         (forall j k, ks !! j = Some k ->
            (forall j', j < j' -> ks !! j' ≠ Some k) ->
            m !! k = l !! j)
   end) /\
  (fst (DiscriminatorInjector_results self env st) = Ok results ->
   match seq_items results with
   | None => fst (DiscriminatorInjector_forward self env st) = Err AssertionError
   | Some l =>
       if decide (length l < length ks)
       then fst (DiscriminatorInjector_forward self env st) = Err IndexError
       else exists m,
         fst (DiscriminatorInjector_forward self env st) = Ok m /\
         dom m = list_to_set ks /\
         (forall j k, ks !! j = Some k ->
            (forall j', j < j' -> ks !! j' ≠ Some k) ->
            m !! k = l !! j)
   end).
Proof.
  intros Hout. split; intros Hres.
  - unfold ImageGeneratorInjector_forward.
    rewrite (forward_of_results st results (read_only_generator_results self env) Hres).
    rewrite Hout. apply store_results_list.
  - unfold DiscriminatorInjector_forward.
    rewrite (forward_of_results st results (read_only_discriminator_results self env) Hres).
    rewrite Hout. apply store_results_list.
Qed.

(** ** The keys of the returned dictionary *)

Lemma dict_display_dom out (v : value) m :
  dict_display out v = Ok m -> dom m = keys_set out.
Proof.
  destruct out as [k|ks]; simpl; intros Hm; [|discriminate].
  injection Hm as <-. apply dom_singleton_L.
Qed.

Lemma lift_getitem_inv {A} k (f : option A) (st st' : gmap string value) a :
  lift (getitem k f) st = (Ok a, st') -> f = Some a.
Proof.
  unfold lift, getitem. destruct f; intros Heq; inversion Heq; reflexivity.
Qed.

Ltac bind_inv H :=
  let a := fresh "a" in
  let st := fresh "st" in
  let Ha := fresh "Ha" in
  apply bind_ok_inv in H as (a & st & Ha & H).

Lemma forward_dom self env rng (st : gmap string value) m :
  opt_out (opt self) = Some (output self) ->
  fst (forward self env rng st) = Ok m ->
  dom m = keys_set (output self).
Proof.
  intros Hout Hm. unfold forward in Hm.
  destruct (cls self).
  - unfold ImageGeneratorInjector_forward in Hm. bind_inv Hm.
    apply lift_ok_inv in Hm. eapply store_results_dom, Hm.
  - unfold DiscriminatorInjector_forward in Hm. bind_inv Hm.
    apply lift_ok_inv in Hm. eapply store_results_dom, Hm.
  - unfold ScheduledScalarInjector_forward in Hm. do 3 bind_inv Hm.
    apply lift_getitem_inv in Ha. rewrite Hout in Ha. injection Ha as <-.
    apply lift_ok_inv in Hm. eapply dict_display_dom, Hm.
  - unfold ImageGradientInjector_forward in Hm. do 4 bind_inv Hm.
    apply lift_getitem_inv in Ha. rewrite Hout in Ha. injection Ha as <-.
    apply lift_ok_inv in Hm. eapply dict_display_dom, Hm.
  - unfold AddNoiseInjector_forward in Hm. do 10 bind_inv Hm.
    apply lift_getitem_inv in Ha5. rewrite Hout in Ha5. injection Ha5 as <-.
    apply lift_ok_inv in Hm. eapply dict_display_dom, Hm.
  - unfold GreyInjector_forward in Hm. do 5 bind_inv Hm.
    apply lift_getitem_inv in Ha3. rewrite Hout in Ha3. injection Ha3 as <-.
    apply lift_ok_inv in Hm. eapply dict_display_dom, Hm.
  - unfold InterpolateInjector_forward in Hm. do 6 bind_inv Hm.
    apply lift_getitem_inv in Ha4. rewrite Hout in Ha4. injection Ha4 as <-.
    apply lift_ok_inv in Hm. eapply dict_display_dom, Hm.
Qed.

(** ** The factory *)

Lemma Injector_init_inv c o env self :
  Injector_init c o env = Ok self ->
  cls self = c /\ opt self = o /\ input self = opt_in o /\
  opt_out o = Some (output self).
Proof.
  unfold Injector_init. destruct (opt_out o) as [out|]; [|discriminate].
  intros Heq. injection Heq as <-. simpl. auto.
Qed.

Lemma ScheduledScalarInjector_init_inv o env self :
  ScheduledScalarInjector_init o env = Ok self ->
  class_tag (cls self) = "scheduled_scalar" /\ opt self = o /\
  input self = opt_in o /\ opt_out o = Some (output self).
Proof.
  unfold ScheduledScalarInjector_init.
  destruct (opt_out o) as [out|]; [|discriminate].
  destruct (getitem "scheduler" (opt_scheduler o)) as [so|]; [|discriminate].
  destruct (get_scheduler_for_opt so) as [sched|]; [|discriminate].
  intros Heq. injection Heq as <-. simpl. auto.
Qed.

Lemma ImageGradientInjector_init_inv o env self :
  ImageGradientInjector_init o env = Ok self ->
  cls self = ImageGradientInjector /\ opt self = o /\
  input self = opt_in o /\ opt_out o = Some (output self).
Proof.
  unfold ImageGradientInjector_init.
  destruct (Injector_init ImageGradientInjector o env) as [self'|] eqn:Hinit;
    [|discriminate].
  destruct (getitem "device" (env_device env)); [|discriminate].
  intros Heq. injection Heq as <-. apply Injector_init_inv in Hinit. exact Hinit.
Qed.

Ltac case_tag ty s :=
  destruct (String.eqb_spec ty s) as [->|?].

Lemma create_injector_inv o env self :
  create_injector o env = Ok self ->
  opt_type o = Some (class_tag (cls self)) /\ opt self = o /\
  input self = opt_in o /\ opt_out o = Some (output self).
Proof.
  unfold create_injector. destruct (opt_type o) as [ty|]; simpl; [|discriminate].
  case_tag ty "generator".
  { intros Hi. apply Injector_init_inv in Hi as (-> & Hi). auto. }
  case_tag ty "discriminator".
  { intros Hi. apply Injector_init_inv in Hi as (-> & Hi). auto. }
  case_tag ty "scheduled_scalar".
  { intros Hi. apply ScheduledScalarInjector_init_inv in Hi as (-> & Hi). auto. }
  case_tag ty "img_grad".
  { intros Hi. apply ImageGradientInjector_init_inv in Hi as (-> & Hi). auto. }
  case_tag ty "add_noise".
  { intros Hi. apply Injector_init_inv in Hi as (-> & Hi). auto. }
  case_tag ty "greyscale".
  { intros Hi. apply Injector_init_inv in Hi as (-> & Hi). auto. }
  case_tag ty "interpolate".
  { intros Hi. apply Injector_init_inv in Hi as (-> & Hi). auto. }
  case_tag ty "imageflow"; discriminate.
Qed.

(** C2: for an injector built by the factory, whatever its class,
    the dictionary that [forward] returns has exactly the configured
    output keys: the single key [out], or the keys of the list [out]. *)
Theorem forward_key_set o env0 self env rng (st : gmap string value) m :
  create_injector o env0 = Ok self ->
  fst (forward self env rng st) = Ok m ->
  exists out, opt_out o = Some out /\ dom m = keys_set out.
Proof.
  intros Hc Hm. apply create_injector_inv in Hc as (_ & Hopt & _ & Hout).
  exists (output self). split; [exact Hout|].
  apply (forward_dom self env rng st); [rewrite Hopt; exact Hout|exact Hm].
Qed.

Lemma constructed_dispatched ty : ty ∈ constructed_tags -> ty ∈ dispatch_tags.
Proof. unfold dispatch_tags. intros Hin. apply elem_of_app. left. exact Hin. Qed.

Lemma create_injector_else o env ty :
  opt_type o = Some ty -> ty ∉ dispatch_tags ->
  create_injector o env = Err NotImplementedError.
Proof.
  intros Hty Hnot. unfold create_injector. rewrite Hty. simpl.
  unfold dispatch_tags, constructed_tags in Hnot.
  repeat match goal with
  | |- context [String.eqb ty ?s] =>
      destruct (String.eqb_spec ty s) as [->|?]; [exfalso; apply Hnot; set_solver|]
  end.
  reflexivity.
Qed.

Lemma create_injector_succeeds o env ty out :
  opt_type o = Some ty -> ty ∈ constructed_tags ->
  opt_out o = Some out ->
  (ty = "scheduled_scalar" ->
     exists so sched, opt_scheduler o = Some so /\
                      get_scheduler_for_opt so = Ok sched) ->
  (ty = "img_grad" -> is_Some (env_device env)) ->
  exists self, create_injector o env = Ok self /\
    class_tag (cls self) = ty /\ opt self = o /\
    input self = opt_in o /\ output self = out.
Proof.
  intros Hty Hin Hout Hsched Hdev. unfold create_injector. rewrite Hty. simpl.
  unfold constructed_tags in Hin.
  unfold Injector_init, ImageGradientInjector_init, ScheduledScalarInjector_init,
    Injector_init.
  rewrite Hout.
  repeat (apply elem_of_cons in Hin as [->|Hin]); simpl.
  - eexists. split; [reflexivity|]. simpl. auto.
  - eexists. split; [reflexivity|]. simpl. auto.
  - destruct Hsched as (so & sched & -> & Hs); [reflexivity|]. simpl. rewrite Hs.
    eexists. split; [reflexivity|]. simpl. auto.
  - destruct Hdev as [dev ->]; [reflexivity|]. simpl.
    eexists. split; [reflexivity|]. simpl. auto.
  - eexists. split; [reflexivity|]. simpl. auto.
  - eexists. split; [reflexivity|]. simpl. auto.
  - eexists. split; [reflexivity|]. simpl. auto.
  - apply elem_of_nil in Hin. destruct Hin.
Qed.

(** C3, as the code has it: a type that is none of the tags the
    factory compares with raises NotImplementedError, inside
    [create_injector] and so before any [forward]; for each of the
    tags generator, discriminator, scheduled_scalar, img_grad,
    add_noise, greyscale and interpolate, whatever the factory returns
    is an injector of the class of that tag holding the configuration,
    and it does return one when the constructor of that class
    succeeds: [out] is present, the scheduler option is present and
    accepted for scheduled_scalar, the device is in the environment
    for img_grad. *)
Theorem create_injector_dispatch o env ty :
  opt_type o = Some ty ->
  (ty ∉ dispatch_tags -> create_injector o env = Err NotImplementedError) /\
  (ty ∈ constructed_tags ->
     (forall self, create_injector o env = Ok self ->
        class_tag (cls self) = ty /\ opt self = o /\
        input self = opt_in o /\ opt_out o = Some (output self)) /\
     (forall out, opt_out o = Some out ->
        (ty = "scheduled_scalar" ->
           exists so sched, opt_scheduler o = Some so /\
                            get_scheduler_for_opt so = Ok sched) ->
        (ty = "img_grad" -> is_Some (env_device env)) ->
        exists self, create_injector o env = Ok self /\
          class_tag (cls self) = ty /\ opt self = o /\
          input self = opt_in o /\ output self = out)).
Proof.
  intros Hty. split; [apply create_injector_else; exact Hty|].
  intros Hin. split.
  - intros self Hc. apply create_injector_inv in Hc as (Htag & Hrest).
    rewrite Hty in Htag. injection Htag as ->. auto.
  - intros out. apply create_injector_succeeds; assumption.
Qed.

(** C8: [out] is required and [in] is optional, for every class of
    injector. Without [out] in the configuration the base constructor,
    the constructor of the scheduled scalar and the constructor of the
    image gradient all raise KeyError on 'out', and so does the
    factory for every class it constructs. With [out] present, and
    whether or not [in] is present, the base constructor succeeds; the
    constructor of the scheduled scalar succeeds once the scheduler
    option is present and accepted; the constructor of the image
    gradient succeeds once the environment holds the device; the
    factory succeeds for each of its seven tags under those same
    conditions. In each case the instance holds the configured [in]
    (no attribute when absent) and [out]. *)
Theorem construct_requires_out o env :
  (opt_out o = None ->
     (forall c, Injector_init c o env = Err (KeyError "out")) /\
     ScheduledScalarInjector_init o env = Err (KeyError "out") /\
     ImageGradientInjector_init o env = Err (KeyError "out") /\
     (forall ty, opt_type o = Some ty -> ty ∈ constructed_tags ->
        create_injector o env = Err (KeyError "out"))) /\
  (forall out, opt_out o = Some out ->
     (forall c, Injector_init c o env = Ok (mkInjector c o (opt_in o) out)) /\
     (forall so sched,
        opt_scheduler o = Some so -> get_scheduler_for_opt so = Ok sched ->
        ScheduledScalarInjector_init o env
          = Ok (mkInjector (ScheduledScalarInjector sched) o (opt_in o) out)) /\
     (forall dev, env_device env = Some dev ->
        ImageGradientInjector_init o env
          = Ok (mkInjector ImageGradientInjector o (opt_in o) out)) /\
     (forall ty, opt_type o = Some ty -> ty ∈ constructed_tags ->
        (ty = "scheduled_scalar" ->
           exists so sched, opt_scheduler o = Some so /\
                            get_scheduler_for_opt so = Ok sched) ->
        (ty = "img_grad" -> is_Some (env_device env)) ->
        exists self, create_injector o env = Ok self /\
          class_tag (cls self) = ty /\ opt self = o /\
          input self = opt_in o /\ output self = out)).
Proof.
  split.
  - intros Hnone. split; [|split; [|split]].
    + intros c. unfold Injector_init. rewrite Hnone. reflexivity.
    + unfold ScheduledScalarInjector_init. rewrite Hnone. reflexivity.
    + unfold ImageGradientInjector_init, Injector_init. rewrite Hnone. reflexivity.
    + intros ty Hty Hin. unfold create_injector. rewrite Hty. simpl.
      unfold ImageGradientInjector_init, ScheduledScalarInjector_init, Injector_init.
      rewrite Hnone. unfold constructed_tags in Hin.
      repeat (apply elem_of_cons in Hin as [->|Hin]); simpl; try reflexivity.
      apply elem_of_nil in Hin. destruct Hin.
  - intros out Hout. split; [|split; [|split]].
    + intros c. unfold Injector_init. rewrite Hout. reflexivity.
    + intros so sched Hso Hsched. unfold ScheduledScalarInjector_init.
      rewrite Hout, Hso. simpl. rewrite Hsched. reflexivity.
    + intros dev Hdev. unfold ImageGradientInjector_init, Injector_init.
      rewrite Hout, Hdev. reflexivity.
    + intros ty Hty Hin. apply create_injector_succeeds; assumption.
Qed.

(** C10: 'imageflow' is one of the tags the factory compares with,
    so it does not reach the final [else]; the branch names a class
    that is not defined, so every call with that type raises NameError;
    every type for which the factory returns an injector is another of
    the dispatched tags. *)
Theorem imageflow_dispatched_not_constructed :
  ("imageflow" ∈ dispatch_tags) /\
  ("imageflow" ∉ constructed_tags) /\
  (forall ty, ty ∈ constructed_tags -> ty ∈ dispatch_tags) /\
  (forall o env, opt_type o = Some "imageflow" ->
     create_injector o env = Err (NameError "ImageFlowInjector")) /\
  (forall o env self, create_injector o env = Ok self ->
     exists ty, opt_type o = Some ty /\ ty ∈ constructed_tags /\ ty ≠ "imageflow").
Proof.
  split; [unfold dispatch_tags, constructed_tags; set_solver|].
  split; [unfold constructed_tags; set_solver|].
  split; [exact constructed_dispatched|].
  split.
  - intros o env Hty. unfold create_injector. rewrite Hty. reflexivity.
  - intros o env self Hc. apply create_injector_inv in Hc as (Hty & _).
    exists (class_tag (cls self)). split; [exact Hty|].
    unfold constructed_tags. destruct (cls self); simpl; split;
      first [set_solver | discriminate].
Qed.

(** ** The scheduled scalar *)

(** C7: [forward] of the scheduled-scalar injector does not depend
    on the state (nor on the random source): two calls under
    environments with the same step return the same result; a returned
    dictionary is [{out: get_weight_for_step(step)}], and that
    dictionary is returned whenever [out] is a single key, the step is
    in the environment and the scheduler returns a weight for it. *)
Theorem scheduled_scalar_pure self sched env1 env2 rng1 rng2
    (st1 st2 : gmap string value) :
  cls self = ScheduledScalarInjector sched ->
  env_step env1 = env_step env2 ->
  fst (forward self env1 rng1 st1) = fst (forward self env2 rng2 st2) /\
  (forall m, fst (forward self env1 rng1 st1) = Ok m ->
     exists k n w, opt_out (opt self) = Some (Key k) /\
       env_step env1 = Some n /\ get_weight_for_step sched n = Ok w /\
       m = {[ k := w ]}) /\
  (forall k n w, opt_out (opt self) = Some (Key k) ->
     env_step env1 = Some n -> get_weight_for_step sched n = Ok w ->
     fst (forward self env1 rng1 st1) = Ok {[ k := w ]}).
Proof.
  intros Hcls Hstep. unfold forward. rewrite Hcls.
  unfold ScheduledScalarInjector_forward, bind, lift, getitem.
  rewrite <- Hstep.
  destruct (opt_out (opt self)) as [out|]; simpl.
  2: { split; [reflexivity|]. split; [discriminate|]. discriminate. }
  destruct (env_step env1) as [n|]; simpl.
  2: { split; [reflexivity|]. split; [discriminate|]. discriminate. }
  destruct (get_weight_for_step sched n) as [w|e] eqn:Hw; simpl.
  2: { split; [reflexivity|]. split; [discriminate|].
       intros k n' w _ Hn. injection Hn as <-. rewrite Hw. discriminate. }
  split; [reflexivity|]. split.
  - intros m Hm. destruct out as [k|ks]; simpl in Hm; [|discriminate].
    injection Hm as <-. exists k, n, w. auto.
  - intros k n' w' Hk Hn Hw'. injection Hk as ->. injection Hn as <-.
    rewrite Hw in Hw'. injection Hw' as <-. reflexivity.
Qed.

(** ** Keys absent from the state *)

Definition fails_key {A} (m : M A) (st : gmap string value) : Prop :=
  exists k, fst (m st) = Err (KeyError k).

Lemma fails_key_state_getitem k (st : gmap string value) :
  st !! k = None -> fails_key (state_getitem k) st.
Proof. intros Hk. exists k. unfold state_getitem. rewrite Hk. reflexivity. Qed.

Lemma fails_key_bind_l {A B} (m : M A) (f : A -> M B) st :
  fails_key m st -> fails_key (bind m f) st.
Proof.
  intros [k Hk]. exists k. unfold bind.
  destruct (m st) as [[a|e] st']; simpl in *; [discriminate|congruence].
Qed.

Lemma fails_key_bind_getitem {A B} k (o : option A) (f : A -> M B) st :
  (forall a, o = Some a -> fails_key (f a) st) ->
  fails_key (bind (lift (getitem k o)) f) st.
Proof.
  intros Hf. destruct o as [a|]; simpl.
  - apply (Hf a). reflexivity.
  - exists k. reflexivity.
Qed.

Lemma fails_key_state_getitems ks k (st : gmap string value) :
  k ∈ ks -> st !! k = None -> fails_key (state_getitems ks) st.
Proof.
  intros Hin Hk. induction ks as [|k0 ks IH]; [apply elem_of_nil in Hin; destruct Hin|].
  simpl. destruct (st !! k0) as [v|] eqn:Hk0.
  - assert (k ∈ ks) as Hin'.
    { apply elem_of_cons in Hin as [->|Hin]; [congruence|exact Hin]. }
    destruct (IH Hin') as [k' Hk']. exists k'.
    unfold bind at 1. unfold state_getitem at 1. rewrite Hk0.
    unfold bind. destruct (state_getitems ks st) as [[vs|e] st']; simpl in *;
      [discriminate|congruence].
  - apply fails_key_bind_l, fails_key_state_getitem, Hk0.
Qed.

Lemma fails_key_call_model g self k (st : gmap string value) :
  k ∈ keys_list (input self) -> st !! k = None ->
  fails_key (call_model g self) st.
Proof.
  intros Hin Hk. unfold call_model, self_input.
  destruct (input self) as [[k0|ks]|]; simpl in Hin.
  - apply list_elem_of_singleton in Hin as ->.
    apply (fails_key_bind_l (state_getitem k0)), fails_key_state_getitem, Hk.
  - apply (fails_key_bind_l (state_getitems ks)).
    apply (fails_key_state_getitems ks k); assumption.
  - apply elem_of_nil in Hin. destruct Hin.
Qed.

Lemma fails_key_subscript_single {B} (o i : keys) (f : value -> M B) k st :
  k ∈ single_key (Some o) -> st !! k = None -> o = i ->
  fails_key (bind (state_subscript i) f) st.
Proof.
  intros Hin Hk <-. destruct o as [k0|ks]; simpl in Hin.
  - apply list_elem_of_singleton in Hin as ->.
    apply fails_key_bind_l, fails_key_state_getitem, Hk.
  - apply elem_of_nil in Hin. destruct Hin.
Qed.

Lemma single_key_Some o k : k ∈ single_key o -> o = Some (Key k).
Proof.
  destruct o as [[k0|ks]|]; simpl; intros Hin.
  - apply list_elem_of_singleton in Hin as ->. reflexivity.
  - apply elem_of_nil in Hin. destruct Hin.
  - apply elem_of_nil in Hin. destruct Hin.
Qed.

Lemma fails_key_resolve_scale_then {B} self (f : value -> M B) st :
  (forall a, fails_key (f a) st) ->
  fails_key (bind (resolve_scale self) f) st.
Proof.
  intros Hf. unfold fails_key in *.
  unfold resolve_scale, bind, lift, getitem, state_getitem, ret.
  destruct (opt_scale (opt self)) as [[k|x]|]; simpl.
  - destruct (st !! k) as [v|]; simpl.
    + apply Hf.
    + exists k. reflexivity.
  - apply Hf.
  - exists "scale". reflexivity.
Qed.

(** C9: when a state key that [forward] is to look up (a key of
    [in], or the string-valued [scale] of the noise injector) is absent
    from the state, [forward] raises KeyError; it returns no
    dictionary, and the state is as before. *)
Theorem forward_missing_key self env rng (st : gmap string value) k :
  k ∈ declared_keys self ->
  st !! k = None ->
  (exists k', fst (forward self env rng st) = Err (KeyError k')) /\
  snd (forward self env rng st) = st.
Proof.
  intros Hin Hk. split; [|apply read_only_forward].
  change (fails_key (forward self env rng) st).
  unfold declared_keys in Hin. unfold forward. destruct (cls self).
  - unfold ImageGeneratorInjector_forward, ImageGeneratorInjector_results.
    apply fails_key_bind_l.
    do 3 (apply fails_key_bind_getitem; intros ? _).
    apply (fails_key_call_model _ self k); assumption.
  - unfold DiscriminatorInjector_forward, DiscriminatorInjector_results.
    apply fails_key_bind_l.
    do 3 (apply fails_key_bind_getitem; intros ? _).
    apply (fails_key_call_model _ self k); assumption.
  - apply elem_of_nil in Hin. destruct Hin.
  - unfold ImageGradientInjector_forward.
    apply fails_key_bind_getitem; intros out _.
    apply fails_key_bind_getitem; intros i Hi.
    apply single_key_Some in Hin. rewrite Hin in Hi. injection Hi as <-.
    apply fails_key_bind_l, fails_key_state_getitem, Hk.
  - unfold AddNoiseInjector_forward.
    apply elem_of_app in Hin as [Hin|Hin].
    + apply fails_key_bind_l. unfold resolve_scale.
      destruct (opt_scale (opt self)) as [[k0|x]|]; simpl in Hin;
        try (apply elem_of_nil in Hin; destruct Hin).
      apply list_elem_of_singleton in Hin as ->.
      simpl. apply fails_key_state_getitem, Hk.
    + apply fails_key_resolve_scale_then. intros scale.
      apply fails_key_bind_getitem; intros i Hi.
      apply single_key_Some in Hin. rewrite Hin in Hi. injection Hi as <-.
      apply fails_key_bind_l, fails_key_state_getitem, Hk.
  - unfold GreyInjector_forward.
    apply fails_key_bind_getitem; intros i Hi.
    apply single_key_Some in Hin. rewrite Hin in Hi. injection Hi as <-.
    apply fails_key_bind_l, fails_key_state_getitem, Hk.
  - unfold InterpolateInjector_forward.
    apply fails_key_bind_getitem; intros i Hi.
    apply single_key_Some in Hin. rewrite Hin in Hi. injection Hi as <-.
    apply fails_key_bind_l, fails_key_state_getitem, Hk.
Qed.

Lemma nth_map_seq {A} (F : nat -> A) d n : forall s i,
  i < n -> nth i (map F (seq s n)) d = F (s + i).
Proof.
  induction n as [|n IH]; intros s i Hi; [lia|].
  destruct i as [|i]; simpl.
  - f_equal. lia.
  - rewrite IH by lia. f_equal. lia.
Qed.

Lemma flat_map_block_length {A} (f : nat -> list A) m n : forall s,
  (forall k, s <= k < s + n -> length (f k) = m) ->
  length (flat_map f (seq s n)) = n * m.
Proof.
  induction n as [|n IH]; intros s Hf; simpl; [reflexivity|].
  rewrite length_app, Hf by lia. rewrite IH; [lia|].
  intros k Hk. apply Hf. lia.
Qed.

Lemma nth_flat_map_block {A} (f : nat -> list A) m d n : forall s i j,
  (forall k, s <= k < s + n -> length (f k) = m) ->
  i < n -> j < m ->
  nth (i * m + j) (flat_map f (seq s n)) d = nth j (f (s + i)) d.
Proof.
  induction n as [|n IH]; intros s i j Hf Hi Hj; [lia|].
  simpl. destruct i as [|i].
  - rewrite app_nth1 by (rewrite Hf; lia). simpl. f_equal. f_equal. lia.
  - rewrite app_nth2 by (rewrite Hf; lia). rewrite Hf by lia.
    replace (S i * m + j - m) with (i * m + j) by lia.
    rewrite IH; [f_equal; f_equal; lia| |lia|lia].
    intros k Hk. apply Hf. lia.
Qed.

Lemma block_flat_map {A} (f : nat -> list A) m n : forall s i,
  (forall k, s <= k < s + n -> length (f k) = m) ->
  i < n ->
  firstn m (skipn (i * m) (flat_map f (seq s n))) = f (s + i).
Proof.
  induction n as [|n IH]; intros s i Hf Hi; [lia|].
  simpl. destruct i as [|i].
  - rewrite skipn_O, firstn_app, Hf by lia. rewrite Nat.sub_diag. simpl.
    rewrite app_nil_r, firstn_all2 by (rewrite Hf; lia). f_equal. lia.
  - rewrite skipn_app, Hf by lia.
    rewrite skipn_all2 by (rewrite Hf; lia). simpl.
    replace (m + i * m - m) with (i * m) by lia.
    rewrite IH; [f_equal; lia| |lia].
    intros k Hk. apply Hf. lia.
Qed.

Lemma concat_repeat_flat_map {A} (l : list A) r : forall s,
  concat (repeat l r) = flat_map (fun _ => l) (seq s r).
Proof.
  induction r as [|r IH]; intros s; simpl; [reflexivity|].
  f_equal. apply IH.
Qed.

Lemma nth_zip_with {A B C} (f : A -> B -> C) da db dc : forall l k i,
  i < length l -> i < length k ->
  nth i (zip_with f l k) dc = f (nth i l da) (nth i k db).
Proof.
  induction l as [|a l IH]; intros k i Hl Hk; simpl in *; [lia|].
  destruct k as [|b k]; simpl in *; [lia|].
  destruct i as [|i]; [reflexivity|]. apply IH; lia.
Qed.

(** ** The grey image *)

Lemma grey_tensor (t : tensor) N C Hh W :
  shape t = [N; C; Hh; W] ->
  exists m o,
    mean_dim1_keepdim t = Ok m /\
    repeat_1_k_1_1 3 m = Ok o /\
    shape o = [N; 3; Hh; W] /\
    tensor_wf o /\
    forall n k h w, n < N -> k < 3 -> h < Hh -> w < W ->
      at4 o n k h w = rmean (map (fun c => at4 t n c h w) (seq 0 C)).
Proof.
  intros Hsh. unfold mean_dim1_keepdim. rewrite Hsh.
  set (inner := numel [Hh; W]).
  assert (inner = Hh * W) as Hinner by (unfold inner; simpl; lia).
  set (F := fun n r =>
    rmean (map (fun c => nth ((n * C + c) * inner + r) (data t) rzero) (seq 0 C))).
  set (B := fun n => map (F n) (seq 0 inner)).
  assert (forall n, length (B n) = inner) as HB.
  { intros n. unfold B. rewrite length_map, length_seq. reflexivity. }
  set (blk := 1 * (Hh * W)).
  assert (blk = inner) as Hblk by (unfold blk; lia).
  set (G := fun n => concat (repeat (firstn blk (skipn (n * blk) (flat_map B (seq 0 N)))) 3)).
  exists (mkTensor [N; 1; Hh; W] (flat_map B (seq 0 N))),
         (mkTensor [N; 3 * 1; Hh; W] (flat_map G (seq 0 N))).
  split; [reflexivity|].
  assert (forall n, n < N -> G n = (B n ++ B n ++ B n)%list) as HG.
  { intros n Hn. unfold G. rewrite Hblk.
    rewrite (block_flat_map B inner N 0 n) by (intros; try apply HB; lia).
    simpl. rewrite app_nil_r. reflexivity. }
  assert (forall n, 0 <= n < 0 + N -> length (G n) = 3 * inner) as HGlen.
  { intros n Hn. rewrite HG by lia. rewrite !length_app, !HB. lia. }
  split; [reflexivity|]. split; [reflexivity|]. split.
  - unfold tensor_wf. cbn [shape data].
    change (length (flat_map G (seq 0 N)) = numel [N; 3 * 1; Hh; W]).
    rewrite (flat_map_block_length G (3 * inner) N 0 HGlen).
    simpl. lia.
  - intros n k h w Hn Hk Hh' Hw. unfold at4. cbn [shape data]. rewrite Hsh.
    change (nth (((n * (3 * 1) + k) * Hh + h) * W + w) (flat_map G (seq 0 N)) rzero
            = rmean (map (fun c => nth (((n * C + c) * Hh + h) * W + w) (data t) rzero)
                         (seq 0 C))).
    assert (h * W + w < inner) as Hr by (rewrite Hinner; nia).
    replace (((n * (3 * 1) + k) * Hh + h) * W + w)
      with (n * (3 * inner) + (k * inner + (h * W + w))) by (rewrite Hinner; nia).
    rewrite (nth_flat_map_block G (3 * inner) rzero N 0 n) by (auto; nia).
    rewrite HG by lia. simpl.
    assert (nth (h * W + w) (B n) rzero
            = rmean (map (fun c => nth (((n * C + c) * Hh + h) * W + w) (data t) rzero)
                         (seq 0 C))) as Hentry.
    { unfold B. rewrite nth_map_seq by exact Hr. unfold F. simpl.
      f_equal. apply map_ext. intros c. f_equal. rewrite Hinner. nia. }
    destruct k as [|[|[|k]]]; [| | |lia].
    + rewrite app_nth1 by (rewrite HB; lia). exact Hentry.
    + rewrite app_nth2 by (rewrite HB; lia). rewrite HB.
      replace (1 * inner + (h * W + w) - inner) with (h * W + w) by lia.
      rewrite app_nth1 by (rewrite HB; lia). exact Hentry.
    + rewrite app_nth2 by (rewrite HB; lia). rewrite HB.
      rewrite app_nth2 by (rewrite HB; lia). rewrite HB.
      replace (2 * inner + (h * W + w) - inner - inner) with (h * W + w) by lia.
      exact Hentry.
Qed.

(** C6: on a four-dimensional input of shape (N, C, H, W) the grey
    injector returns, under [out], a tensor of shape (N, 3, H, W) with
    as many elements as its shape says, each of whose three channels
    holds at every pixel the mean of the C input channels there; the
    three channels are therefore equal. *)
Theorem grey_forward_mean self env rng (st : gmap string value)
    kin kout (t : tensor) N C Hh W :
  cls self = GreyInjector ->
  opt_in (opt self) = Some (Key kin) ->
  opt_out (opt self) = Some (Key kout) ->
  st !! kin = Some (VTensor t) ->
  shape t = [N; C; Hh; W] ->
  exists o,
    fst (forward self env rng st) = Ok {[ kout := VTensor o ]} /\
    shape o = [N; 3; Hh; W] /\
    tensor_wf o /\
    (forall n k h w, n < N -> k < 3 -> h < Hh -> w < W ->
       at4 o n k h w = rmean (map (fun c => at4 t n c h w) (seq 0 C))) /\
    (forall n k k' h w, n < N -> k < 3 -> k' < 3 -> h < Hh -> w < W ->
       at4 o n k h w = at4 o n k' h w).
Proof.
  intros Hcls Hin Hout Hst Hsh.
  destruct (grey_tensor t N C Hh W Hsh) as (m & o & Hm & Ho & Hosh & Hwf & Hat).
  exists o. split; [|split; [exact Hosh|split; [exact Hwf|split; [exact Hat|]]]].
  - unfold forward. rewrite Hcls.
    unfold GreyInjector_forward, bind, lift, getitem, state_subscript, state_getitem.
    rewrite Hin, Hst, Hm, Ho, Hout. reflexivity.
  - intros n k k' h w Hn Hk Hk' Hh' Hw. rewrite !Hat by assumption. reflexivity.
Qed.

(** ** Added noise *)

Lemma zip_with_zero_noise (rng : nat -> scalar) v (l : list scalar) :
  (forall i, rng i = rzero) ->
  (forall a, rmul rzero a = rzero) ->
  (forall a, radd a rzero = a) ->
  forall s, zip_with radd l (map (fun e => rmul e v) (map rng (seq s (length l)))) = l.
Proof.
  intros Hrng Hmul Hadd. induction l as [|a l IH]; intros s; simpl; [reflexivity|].
  rewrite Hrng, Hmul, Hadd, IH. reflexivity.
Qed.

Lemma add_noise_run self env rng (st : gmap string value) kin kout sc s (x : tensor) dev :
  cls self = AddNoiseInjector ->
  opt_in (opt self) = Some (Key kin) ->
  opt_out (opt self) = Some (Key kout) ->
  opt_scale (opt self) = Some sc ->
  env_device env = Some dev ->
  st !! kin = Some (VTensor x) ->
  match sc with
  | ScaleKey k => st !! k = Some s
  | ScaleLit v => s = VFloat v
  end ->
  fst (forward self env rng st) =
    match tensor_mul (mkTensor (shape x) (map rng (seq 0 (numel (shape x))))) s with
    | Ok n =>
        match value_add (VTensor x) n with
        | Ok y => Ok {[ kout := y ]}
        | Err e => Err e
        end
    | Err e => Err e
    end.
Proof.
  intros Hcls Hin Hout Hsc Hdev Hst Hs. unfold forward. rewrite Hcls.
  unfold AddNoiseInjector_forward, resolve_scale, bind, lift, getitem,
    state_subscript, state_getitem, ret.
  rewrite Hsc, Hin, Hout, Hdev. simpl.
  destruct sc as [k|v]; [rewrite Hs|subst s]; simpl; rewrite Hst; simpl.
  - destruct (tensor_mul _ s) as [n|e]; simpl; [|reflexivity].
    rewrite Hst. simpl.
    match goal with |- (match ?r with _ => _ end).1 = _ => destruct r; reflexivity end.
  - rewrite ?Hst. simpl.
    match goal with |- (match ?r with _ => _ end).1 = _ => destruct r; reflexivity end.
Qed.

(** C5: with [in] and [out] single keys, the input a tensor and
    the device in the environment, the scale used is [state[scale]]
    when [opt['scale']] is a string and the configured number
    otherwise; the noise drawn has the shape of the input and holds the
    next draws of the random source, and the value returned under
    [out] is the input plus the noise times the scale. For a scale
    that is a number, element [i] of the output is
    [x_i + noise_i * scale]; when moreover every draw is zero (and
    zero times the scale is zero, adding zero changes nothing), the
    output is the input. *)
Theorem add_noise_forward self env rng (st : gmap string value)
    kin kout sc s (x : tensor) dev :
  cls self = AddNoiseInjector ->
  opt_in (opt self) = Some (Key kin) ->
  opt_out (opt self) = Some (Key kout) ->
  opt_scale (opt self) = Some sc ->
  env_device env = Some dev ->
  st !! kin = Some (VTensor x) ->
  match sc with
  | ScaleKey k => st !! k = Some s
  | ScaleLit v => s = VFloat v
  end ->
  exists noise,
    randn_like rng (VTensor x) = Ok noise /\
    shape noise = shape x /\
    tensor_wf noise /\
    (forall i, i < numel (shape x) -> nth i (data noise) rzero = rng i) /\
    fst (forward self env rng st) =
      match tensor_mul noise s with
      | Ok n =>
          match value_add (VTensor x) n with
          | Ok y => Ok {[ kout := y ]}
          | Err e => Err e
          end
      | Err e => Err e
      end /\
    (forall v, s = VFloat v -> tensor_wf x ->
       exists y,
         fst (forward self env rng st) = Ok {[ kout := VTensor y ]} /\
         shape y = shape x /\ tensor_wf y /\
         forall i, i < numel (shape x) ->
           nth i (data y) rzero = radd (nth i (data x) rzero) (rmul (rng i) v)) /\
    (forall v, s = VFloat v -> tensor_wf x ->
       (forall i, rng i = rzero) ->
       (forall a, rmul rzero a = rzero) ->
       (forall a, radd a rzero = a) ->
       fst (forward self env rng st) = Ok {[ kout := VTensor x ]}).
Proof.
  intros Hcls Hin Hout Hsc Hdev Hst Hs.
  pose proof (add_noise_run self env rng st kin kout sc s x dev
                Hcls Hin Hout Hsc Hdev Hst Hs) as Hrun.
  set (n := numel (shape x)) in *.
  exists (mkTensor (shape x) (map rng (seq 0 n))).
  split; [reflexivity|]. split; [reflexivity|].
  split; [unfold tensor_wf; simpl; rewrite length_map, length_seq; reflexivity|].
  split; [intros i Hi; simpl; apply nth_map_seq; exact Hi|].
  split; [exact Hrun|]. split.
  - intros v -> Hwf. unfold tensor_wf in Hwf. fold n in Hwf.
    rewrite Hrun. simpl. unfold tensor_binop. simpl.
    rewrite bool_decide_eq_true_2 by reflexivity. simpl.
    eexists. split; [reflexivity|]. simpl. split; [reflexivity|]. split.
    + unfold tensor_wf. simpl. fold n.
      rewrite length_zip_with, !length_map, length_seq. lia.
    + intros i Hi.
      rewrite (nth_zip_with radd rzero (rmul rzero v) rzero)
        by (rewrite ?length_map, ?length_seq; lia).
      f_equal.
      rewrite List.map_map.
      rewrite (nth_map_seq (fun j => rmul (rng j) v)); [reflexivity|exact Hi].
  - intros v -> Hwf Hrng Hmul Hadd. unfold tensor_wf in Hwf. fold n in Hwf.
    rewrite Hrun. simpl. unfold tensor_binop. simpl.
    rewrite bool_decide_eq_true_2 by reflexivity. simpl.
    rewrite <- Hwf.
    rewrite (zip_with_zero_noise rng v (data x) Hrng Hmul Hadd 0).
    destruct x; reflexivity.
Qed.

(** ** What [forward] reads of the state *)

Definition agree {A} (m : M A) (st st' : gmap string value) : Prop :=
  fst (m st) = fst (m st').

Lemma agree_lift {A} (r : result A) st st' : agree (lift r) st st'.
Proof. reflexivity. Qed.

Lemma agree_bind {A B} (m : M A) (f : A -> M B) st st' :
  read_only m -> agree m st st' ->
  (forall a, fst (m st) = Ok a -> agree (f a) st st') ->
  agree (bind m f) st st'.
Proof.
  intros Hro Hm Hf. unfold agree, bind in *.
  pose proof (Hro st) as Hs. pose proof (Hro st') as Hs'.
  destruct (m st) as [r s]; destruct (m st') as [r' s']; simpl in *; subst.
  destruct r' as [a|e]; [apply Hf; reflexivity|reflexivity].
Qed.

Lemma agree_bind_lift {A B} (r : result A) (f : A -> M B) st st' :
  (forall a, r = Ok a -> agree (f a) st st') ->
  agree (bind (lift r) f) st st'.
Proof.
  intros Hf. apply agree_bind; [apply read_only_lift|apply agree_lift|exact Hf].
Qed.

Lemma agree_state_getitem k (st st' : gmap string value) :
  st !! k = st' !! k -> agree (state_getitem k) st st'.
Proof.
  intros Hk. unfold agree, state_getitem. rewrite Hk.
  destruct (st' !! k); reflexivity.
Qed.

Lemma agree_state_getitems ks (st st' : gmap string value) :
  (forall k, k ∈ ks -> st !! k = st' !! k) ->
  agree (state_getitems ks) st st'.
Proof.
  induction ks as [|k ks IH]; intros Hks; simpl; [reflexivity|].
  apply agree_bind; [apply read_only_state_getitem| |].
  - apply agree_state_getitem, Hks, list_elem_of_here.
  - intros v _. apply agree_bind; [apply read_only_state_getitems| |reflexivity].
    apply IH. intros k' Hk'. apply Hks, list_elem_of_further, Hk'.
Qed.

Lemma agree_call_model g self (st st' : gmap string value) :
  (forall k, k ∈ keys_list (input self) -> st !! k = st' !! k) ->
  agree (call_model g self) st st'.
Proof.
  intros Hks. unfold call_model, self_input.
  apply agree_bind_lift. intros i Hi.
  destruct (input self) as [i0|]; [|discriminate]. injection Hi as ->.
  destruct i as [k|ks]; simpl in Hks.
  - apply agree_bind; [apply read_only_state_getitem| |intros; apply agree_lift].
    apply agree_state_getitem, Hks, list_elem_of_here.
  - apply agree_bind; [apply read_only_state_getitems| |intros; apply agree_lift].
    apply agree_state_getitems, Hks.
Qed.

Lemma agree_subscript_single o i (st st' : gmap string value) :
  (forall k, k ∈ single_key o -> st !! k = st' !! k) ->
  o = Some i ->
  agree (state_subscript i) st st'.
Proof.
  intros Hks ->. destruct i as [k|ks]; simpl in *; [|reflexivity].
  apply agree_state_getitem, Hks, list_elem_of_here.
Qed.

(** X1: the result of [forward] depends on the state only through
    the keys the injector declares: the keys of [in] (and the
    string-valued [scale] of the noise injector). Two states that
    agree on those keys give the same result, a dictionary or an
    exception, whatever else they hold. *)
Theorem forward_reads_declared_keys self env rng (st st' : gmap string value) :
  (forall k, k ∈ declared_keys self -> st !! k = st' !! k) ->
  fst (forward self env rng st) = fst (forward self env rng st').
Proof.
  intros Hks. change (agree (forward self env rng) st st').
  unfold declared_keys in Hks. unfold forward. destruct (cls self).
  - unfold ImageGeneratorInjector_forward, ImageGeneratorInjector_results.
    apply agree_bind; [apply read_only_generator_results| |intros; apply agree_lift].
    do 3 (apply agree_bind_lift; intros ? _).
    apply agree_call_model, Hks.
  - unfold DiscriminatorInjector_forward, DiscriminatorInjector_results.
    apply agree_bind; [apply read_only_discriminator_results| |intros; apply agree_lift].
    do 3 (apply agree_bind_lift; intros ? _).
    apply agree_call_model, Hks.
  - unfold ScheduledScalarInjector_forward.
    do 3 (apply agree_bind_lift; intros ? _). apply agree_lift.
  - unfold ImageGradientInjector_forward.
    apply agree_bind_lift; intros out _.
    apply agree_bind_lift; intros i Hi.
    apply agree_bind; [apply read_only_state_subscript| |].
    + apply (agree_subscript_single (opt_in (opt self))); [exact Hks|].
      destruct (opt_in (opt self)); [injection Hi as ->; reflexivity|discriminate].
    + intros x _. apply agree_bind_lift; intros g _. apply agree_lift.
  - unfold AddNoiseInjector_forward.
    assert (forall i, getitem "in" (opt_in (opt self)) = Ok i ->
                      agree (state_subscript i) st st') as Hin.
    { intros i Hi.
      apply (agree_subscript_single (opt_in (opt self))).
      - intros k Hk. apply Hks, elem_of_app. right. exact Hk.
      - destruct (opt_in (opt self)); [injection Hi as ->; reflexivity|discriminate]. }
    apply agree_bind.
    { unfold resolve_scale. read_only_tac. }
    { unfold resolve_scale. apply agree_bind_lift. intros sc Hsc.
      destruct sc as [k|x]; [|reflexivity].
      apply agree_state_getitem, Hks, elem_of_app. left.
      destruct (opt_scale (opt self)) as [sc'|]; [|discriminate].
      injection Hsc as ->. apply list_elem_of_here. }
    intros scale _.
    apply agree_bind_lift; intros i Hi.
    apply agree_bind; [apply read_only_state_subscript|apply Hin, Hi|].
    intros x _.
    do 3 (apply agree_bind_lift; intros ? _).
    apply agree_bind_lift; intros out _.
    apply agree_bind_lift; intros i' Hi'.
    apply agree_bind; [apply read_only_state_subscript|apply Hin, Hi'|].
    intros x' _. apply agree_bind_lift; intros y _. apply agree_lift.
  - unfold GreyInjector_forward.
    apply agree_bind_lift; intros i Hi.
    apply agree_bind; [apply read_only_state_subscript| |].
    + apply (agree_subscript_single (opt_in (opt self))); [exact Hks|].
      destruct (opt_in (opt self)); [injection Hi as ->; reflexivity|discriminate].
    + intros x _. do 3 (apply agree_bind_lift; intros ? _). apply agree_lift.
  - unfold InterpolateInjector_forward.
    apply agree_bind_lift; intros i Hi.
    apply agree_bind; [apply read_only_state_subscript| |].
    + apply (agree_subscript_single (opt_in (opt self))); [exact Hks|].
      destruct (opt_in (opt self)); [injection Hi as ->; reflexivity|discriminate].
    + intros x _. do 4 (apply agree_bind_lift; intros ? _). apply agree_lift.
Qed.

(** ** The call of the sub-network *)

Lemma state_getitems_ok ks (st : gmap string value) vs :
  Forall2 (fun k v => st !! k = Some v) ks vs ->
  state_getitems ks st = (Ok vs, st).
Proof.
  intros Hall. induction Hall as [|k v ks vs Hk _ IH]; simpl; [reflexivity|].
  unfold bind at 1. unfold state_getitem at 1. rewrite Hk.
  unfold bind. rewrite IH. reflexivity.
Qed.

Lemma call_model_run g self (st : gmap string value) args :
  match input self with
  | Some (Keys ks) => Forall2 (fun k v => st !! k = Some v) ks args
  | Some (Key k) => exists v, st !! k = Some v /\ args = [v]
  | None => False
  end ->
  call_model g self st = (g args, st).
Proof.
  unfold call_model, self_input, bind, lift.
  destruct (input self) as [[k|ks]|]; simpl; intros Hargs.
  - destruct Hargs as (v & Hv & ->). unfold state_getitem. rewrite Hv. reflexivity.
  - rewrite (state_getitems_ok ks st args Hargs). reflexivity.
  - destruct Hargs.
Qed.

(** X2: when the sub-network is found and every key of [in] is in
    the state, the generator and the discriminator injector call the
    sub-network once, on the state values of the listed keys in list
    order (on the one value for a single key); an exception of the
    sub-network is the exception of [forward], and with a single
    [out] key the whole result, tuple or not, is stored under it. *)
Theorem model_forward_call self env rng (st : gmap string value)
    (table : gmap string model) name (g : model) args :
  match cls self with
  | ImageGeneratorInjector =>
      env_generators env = Some table /\ opt_generator (opt self) = Some name
  | DiscriminatorInjector =>
      env_discriminators env = Some table /\ opt_discriminator (opt self) = Some name
  | _ => False
  end ->
  table !! name = Some g ->
  match input self with
  | Some (Keys ks) => Forall2 (fun k v => st !! k = Some v) ks args
  | Some (Key k) => exists v, st !! k = Some v /\ args = [v]
  | None => False
  end ->
  fst (forward self env rng st) =
    match g args with
    | Ok results => store_results (output self) results
    | Err e => Err e
    end /\
  (forall k results, output self = Key k -> g args = Ok results ->
     fst (forward self env rng st) = Ok {[ k := results ]}).
Proof.
  intros Hcls Hg Hargs.
  assert (fst (forward self env rng st) =
          match g args with
          | Ok results => store_results (output self) results
          | Err e => Err e
          end) as Hrun.
  { unfold forward. destruct (cls self); try (destruct Hcls; fail);
      destruct Hcls as [Ht Hn].
    - unfold ImageGeneratorInjector_forward, ImageGeneratorInjector_results.
      unfold bind, lift, getitem. rewrite Ht, Hn. cbv beta iota. rewrite Hg. cbv beta iota.
      rewrite (call_model_run g self st args Hargs).
      destruct (g args); reflexivity.
    - unfold DiscriminatorInjector_forward, DiscriminatorInjector_results.
      unfold bind, lift, getitem. rewrite Ht, Hn. cbv beta iota. rewrite Hg. cbv beta iota.
      rewrite (call_model_run g self st args Hargs).
      destruct (g args); reflexivity. }
  split; [exact Hrun|].
  intros k results Hout Hres. rewrite Hrun, Hres, Hout. reflexivity.
Qed.

(** ** Configurations that construct but cannot run *)

Definition raises {A} (P : error -> Prop) (m : M A) (st : gmap string value) : Prop :=
  exists e, fst (m st) = Err e /\ P e.

Lemma raises_bind_l {A B} P (m : M A) (f : A -> M B) st :
  raises P m st -> raises P (bind m f) st.
Proof.
  intros (e & He & HP). exists e. split; [|exact HP]. unfold bind.
  destruct (m st) as [[a|e'] st']; simpl in *; [discriminate|congruence].
Qed.

Lemma raises_bind {A B} P (m : M A) (f : A -> M B) st :
  read_only m ->
  (forall e, fst (m st) = Err e -> P e) ->
  (forall a, fst (m st) = Ok a -> raises P (f a) st) ->
  raises P (bind m f) st.
Proof.
  intros Hro Herr Hok. unfold raises, bind in *. specialize (Hro st).
  destruct (m st) as [[a|e] st']; simpl in *; subst.
  - apply Hok. reflexivity.
  - exists e. split; [reflexivity|]. apply Herr. reflexivity.
Qed.

Lemma raises_bind_getitem {A B} (P : error -> Prop) k (o : option A) (f : A -> M B) st :
  P (KeyError k) ->
  (forall a, o = Some a -> raises P (f a) st) ->
  raises P (bind (lift (getitem k o)) f) st.
Proof.
  intros HP Hf. destruct o as [a|]; simpl.
  - apply (Hf a). reflexivity.
  - exists (KeyError k). split; [reflexivity|exact HP].
Qed.

Definition attribute_or_key (e : error) : Prop :=
  e = AttributeError "input" \/ exists k, e = KeyError k.

Lemma attribute_or_key_KeyError k : attribute_or_key (KeyError k).
Proof. right. exists k. reflexivity. Qed.

Lemma raises_resolve_scale {B} P self (f : value -> M B) st :
  (forall k, P (KeyError k)) ->
  (forall a, raises P (f a) st) ->
  raises P (bind (resolve_scale self) f) st.
Proof.
  intros HP Hf. apply raises_bind.
  - unfold resolve_scale. read_only_tac.
  - intros e. unfold resolve_scale, bind, lift, getitem, state_getitem, ret.
    destruct (opt_scale (opt self)) as [[k|x]|]; simpl.
    + destruct (st !! k); simpl; intros He; [discriminate|].
      injection He as <-. apply HP.
    + discriminate.
    + intros He. injection He as <-. apply HP.
  - intros a _. apply Hf.
Qed.

(** X3: the factory accepts a configuration without [in], but the
    injector it returns cannot run unless it is the scheduled scalar:
    [forward] always raises, AttributeError on [self.input] for the
    generator and the discriminator once the sub-network is found,
    KeyError otherwise. *)
Theorem forward_without_in o env0 self env rng (st : gmap string value) :
  create_injector o env0 = Ok self ->
  opt_in o = None ->
  class_tag (cls self) ≠ "scheduled_scalar" ->
  (exists e, fst (forward self env rng st) = Err e /\
     (e = AttributeError "input" \/ exists k, e = KeyError k)) /\
  (forall (table : gmap string model) name (g : model),
     match cls self with
     | ImageGeneratorInjector =>
         env_generators env = Some table /\ opt_generator (opt self) = Some name
     | DiscriminatorInjector =>
         env_discriminators env = Some table /\ opt_discriminator (opt self) = Some name
     | _ => False
     end ->
     table !! name = Some g ->
     fst (forward self env rng st) = Err (AttributeError "input")).
Proof.
  intros Hc Hnone Htag.
  apply create_injector_inv in Hc as (_ & Hopt & Hinput & _).
  rewrite Hnone in Hinput. rewrite <- Hopt in Hnone. clear Hopt.
  split.
  - change (raises attribute_or_key (forward self env rng) st).
    unfold forward. destruct (cls self); simpl in Htag.
    + unfold ImageGeneratorInjector_forward, ImageGeneratorInjector_results.
      apply raises_bind_l.
      do 3 (apply raises_bind_getitem; [apply attribute_or_key_KeyError|intros ? _]).
      unfold call_model, self_input. rewrite Hinput.
      exists (AttributeError "input"). split; [reflexivity|left; reflexivity].
    + unfold DiscriminatorInjector_forward, DiscriminatorInjector_results.
      apply raises_bind_l.
      do 3 (apply raises_bind_getitem; [apply attribute_or_key_KeyError|intros ? _]).
      unfold call_model, self_input. rewrite Hinput.
      exists (AttributeError "input"). split; [reflexivity|left; reflexivity].
    + congruence.
    + unfold ImageGradientInjector_forward.
      apply raises_bind_getitem; [apply attribute_or_key_KeyError|intros out _].
      rewrite Hnone. exists (KeyError "in").
      split; [reflexivity|apply attribute_or_key_KeyError].
    + unfold AddNoiseInjector_forward.
      apply raises_resolve_scale; [apply attribute_or_key_KeyError|].
      intros scale. rewrite Hnone. exists (KeyError "in").
      split; [reflexivity|apply attribute_or_key_KeyError].
    + unfold GreyInjector_forward. rewrite Hnone. exists (KeyError "in").
      split; [reflexivity|apply attribute_or_key_KeyError].
    + unfold InterpolateInjector_forward. rewrite Hnone. exists (KeyError "in").
      split; [reflexivity|apply attribute_or_key_KeyError].
  - intros table name g Hcls Hg. unfold forward.
    destruct (cls self); try (destruct Hcls; fail); destruct Hcls as [Ht Hn].
    + unfold ImageGeneratorInjector_forward, ImageGeneratorInjector_results,
        call_model, self_input, bind, lift, getitem.
      rewrite Ht, Hn. cbv beta iota. rewrite Hg, Hinput. reflexivity.
    + unfold DiscriminatorInjector_forward, DiscriminatorInjector_results,
        call_model, self_input, bind, lift, getitem.
      rewrite Ht, Hn. cbv beta iota. rewrite Hg, Hinput. reflexivity.
Qed.

(** X4: the five classes that build [{opt['out']: v}] and subscript
    the state with [opt['in']] cannot run with a list in either
    place, a list being unhashable: with a list of output keys, or
    (the scheduled scalar apart, which reads no input) a list of input
    keys, [forward] always raises and returns no dictionary. Only the
    generator and the discriminator injector take lists. *)
Theorem forward_list_keys_raise self env rng (st : gmap string value) ks :
  cls self ≠ ImageGeneratorInjector ->
  cls self ≠ DiscriminatorInjector ->
  opt_out (opt self) = Some (Keys ks) \/
  (class_tag (cls self) ≠ "scheduled_scalar" /\ opt_in (opt self) = Some (Keys ks)) ->
  exists e, fst (forward self env rng st) = Err e.
Proof.
  intros Hg Hd Hlist.
  destruct (fst (forward self env rng st)) as [m|e] eqn:Hm; [exfalso|eauto].
  assert (forall v m, dict_display (Keys ks) v ≠ Ok m) as Hdisp by (intros; discriminate).
  assert (forall (i : keys) (a : value) (st0 st1 : gmap string value),
            state_subscript (Keys ks) st0 ≠ (Ok a, st1)) as Hsub
    by (intros; discriminate).
  unfold forward in Hm. destruct (cls self); try congruence; simpl in Hlist.
  - unfold ScheduledScalarInjector_forward in Hm. do 3 bind_inv Hm.
    apply lift_getitem_inv in Ha. apply lift_ok_inv in Hm.
    destruct Hlist as [Hout|[Hne _]]; [|congruence].
    rewrite Hout in Ha. injection Ha as <-. exact (Hdisp _ _ Hm).
  - unfold ImageGradientInjector_forward in Hm. do 4 bind_inv Hm.
    apply lift_getitem_inv in Ha, Ha0. apply lift_ok_inv in Hm.
    destruct Hlist as [Hout|[_ Hin]].
    + rewrite Hout in Ha. injection Ha as <-. exact (Hdisp _ _ Hm).
    + rewrite Hin in Ha0. injection Ha0 as <-. exact (Hsub (Keys ks) _ _ _ Ha1).
  - unfold AddNoiseInjector_forward in Hm. do 10 bind_inv Hm.
    apply lift_getitem_inv in Ha0, Ha5. apply lift_ok_inv in Hm.
    destruct Hlist as [Hout|[_ Hin]].
    + rewrite Hout in Ha5. injection Ha5 as <-. exact (Hdisp _ _ Hm).
    + rewrite Hin in Ha0. injection Ha0 as <-. exact (Hsub (Keys ks) _ _ _ Ha1).
  - unfold GreyInjector_forward in Hm. do 5 bind_inv Hm.
    apply lift_getitem_inv in Ha, Ha3. apply lift_ok_inv in Hm.
    destruct Hlist as [Hout|[_ Hin]].
    + rewrite Hout in Ha3. injection Ha3 as <-. exact (Hdisp _ _ Hm).
    + rewrite Hin in Ha. injection Ha as <-. exact (Hsub (Keys ks) _ _ _ Ha0).
  - unfold InterpolateInjector_forward in Hm. do 6 bind_inv Hm.
    apply lift_getitem_inv in Ha, Ha4. apply lift_ok_inv in Hm.
    destruct Hlist as [Hout|[_ Hin]].
    + rewrite Hout in Ha4. injection Ha4 as <-. exact (Hdisp _ _ Hm).
    + rewrite Hin in Ha. injection Ha as <-. exact (Hsub (Keys ks) _ _ _ Ha0).
Qed.

(** ** Inputs of the wrong kind *)

Lemma grey_run self env rng (st : gmap string value) kin kout x :
  cls self = GreyInjector ->
  opt_in (opt self) = Some (Key kin) ->
  opt_out (opt self) = Some (Key kout) ->
  st !! kin = Some x ->
  fst (forward self env rng st) =
    match x with
    | VTensor t =>
        match mean_dim1_keepdim t with
        | Ok m =>
            match repeat_1_k_1_1 3 m with
            | Ok o => Ok {[ kout := VTensor o ]}
            | Err e => Err e
            end
        | Err e => Err e
        end
    | _ => Err TypeError
    end.
Proof.
  intros Hcls Hin Hout Hst. unfold forward. rewrite Hcls.
  unfold GreyInjector_forward, bind, lift, getitem, state_subscript, state_getitem.
  rewrite Hin, Hst, Hout. cbv beta iota.
  destruct x as [t| | |]; try reflexivity.
  destruct (mean_dim1_keepdim t) as [m|e]; [|reflexivity].
  destruct (repeat_1_k_1_1 3 m) as [o|e]; reflexivity.
Qed.

(** X5: the grey injector does not check the rank of its input. A
    value that is not a tensor raises TypeError, a tensor of fewer
    than two dimensions IndexError, one of more than four
    RuntimeError; a tensor of two or three dimensions is accepted and
    gives an output that is four-dimensional but not an image of the
    input: shape (1, 3, a, 1) from (a, b) and (1, 3a, 1, c) from
    (a, b, c). *)
Theorem grey_forward_rank self env rng (st : gmap string value) kin kout x :
  cls self = GreyInjector ->
  opt_in (opt self) = Some (Key kin) ->
  opt_out (opt self) = Some (Key kout) ->
  st !! kin = Some x ->
  match x with
  | VTensor t =>
      match shape t with
      | [] | [_] => fst (forward self env rng st) = Err IndexError
      | [a; b] =>
          exists o, fst (forward self env rng st) = Ok {[ kout := VTensor o ]} /\
                    shape o = [1; 3; a; 1]
      | [a; b; c] =>
          exists o, fst (forward self env rng st) = Ok {[ kout := VTensor o ]} /\
                    shape o = [1; 3 * a; 1; c]
      | [a; b; c; d] =>
          exists o, fst (forward self env rng st) = Ok {[ kout := VTensor o ]} /\
                    shape o = [a; 3; c; d]
      | _ => fst (forward self env rng st) = Err RuntimeError
      end
  | _ => fst (forward self env rng st) = Err TypeError
  end.
Proof.
  intros Hcls Hin Hout Hst.
  rewrite (grey_run self env rng st kin kout x Hcls Hin Hout Hst).
  destruct x as [t| | |]; try reflexivity.
  unfold mean_dim1_keepdim, repeat_1_k_1_1.
  destruct (shape t) as [|a [|b [|c [|d [|e rest]]]]]; cbn [shape data];
    try reflexivity; eexists; split; reflexivity.
Qed.

Lemma add_noise_prefix self env rng (st : gmap string value) kin sc s x dev :
  cls self = AddNoiseInjector ->
  opt_in (opt self) = Some (Key kin) ->
  opt_scale (opt self) = Some sc ->
  env_device env = Some dev ->
  st !! kin = Some x ->
  match sc with
  | ScaleKey k => st !! k = Some s
  | ScaleLit v => s = VFloat v
  end ->
  fst (forward self env rng st) =
    match randn_like rng x with
    | Ok r =>
        match tensor_mul r s with
        | Ok n =>
            match getitem "out" (opt_out (opt self)) with
            | Ok out =>
                match value_add x n with
                | Ok y => dict_display out y
                | Err e => Err e
                end
            | Err e => Err e
            end
        | Err e => Err e
        end
    | Err e => Err e
    end.
Proof.
  intros Hcls Hin Hsc Hdev Hst Hs. unfold forward. rewrite Hcls.
  unfold AddNoiseInjector_forward, resolve_scale, bind, lift, getitem,
    state_subscript, state_getitem, ret.
  rewrite Hsc, Hin, Hdev. cbv beta iota.
  destruct sc as [k|v]; [rewrite Hs|subst s]; cbv beta iota;
  rewrite Hst; cbv beta iota;
  (destruct (randn_like rng x) as [r|e]; [|reflexivity]);
  (destruct (tensor_mul r _) as [n|e]; [|reflexivity]);
  (destruct (opt_out (opt self)) as [out|]; [|reflexivity]);
  rewrite ?Hst; cbv beta iota;
  (destruct (value_add x n) as [y|e]; reflexivity).
Qed.

(** X6: the noise injector needs a tensor input and a scale that is
    a number or a tensor: with the keys present and the device in the
    environment, an input that is not a tensor raises TypeError (a
    number, a list or a tuple cannot be given to randn_like), and so
    does a tensor input with a scale that is a list or a tuple. *)
Theorem add_noise_type_errors self env rng (st : gmap string value)
    kin sc s x dev :
  cls self = AddNoiseInjector ->
  opt_in (opt self) = Some (Key kin) ->
  opt_scale (opt self) = Some sc ->
  env_device env = Some dev ->
  st !! kin = Some x ->
  match sc with
  | ScaleKey k => st !! k = Some s
  | ScaleLit v => s = VFloat v
  end ->
  match x, s with
  | VTensor _, (VList _ | VTuple _) => fst (forward self env rng st) = Err TypeError
  | VTensor _, _ => True
  | _, _ => fst (forward self env rng st) = Err TypeError
  end.
Proof.
  intros Hcls Hin Hsc Hdev Hst Hs.
  rewrite (add_noise_prefix self env rng st kin sc s x dev Hcls Hin Hsc Hdev Hst Hs).
  destruct x as [t| | |]; destruct s; simpl; try reflexivity; exact I.
Qed.

(** ** Injectors in sequence *)

(** X7: the scheduled scalar feeds the noise injector. When the
    scheduled-scalar injector has returned its dictionary and the
    state of a later noise injector holds that dictionary's entry (the
    state extends it), a noise injector whose [scale] names that key
    adds the noise scaled by the scheduled weight of the current step:
    element [i] of its output is [x_i + noise_i * weight]. *)
Theorem scheduled_scale_feeds_noise sched s1 s2 env rng1 rng2
    (st st' m : gmap string value) kw kin kout (x : tensor) dev n v :
  cls s1 = ScheduledScalarInjector sched ->
  opt_out (opt s1) = Some (Key kw) ->
  env_step env = Some n ->
  get_weight_for_step sched n = Ok (VFloat v) ->
  fst (forward s1 env rng1 st) = Ok m ->
  m ⊆ st' ->
  cls s2 = AddNoiseInjector ->
  opt_scale (opt s2) = Some (ScaleKey kw) ->
  opt_in (opt s2) = Some (Key kin) ->
  opt_out (opt s2) = Some (Key kout) ->
  env_device env = Some dev ->
  st' !! kin = Some (VTensor x) ->
  tensor_wf x ->
  exists y,
    fst (forward s2 env rng2 st') = Ok {[ kout := VTensor y ]} /\
    shape y = shape x /\
    forall i, i < numel (shape x) ->
      nth i (data y) rzero = radd (nth i (data x) rzero) (rmul (rng2 i) v).
Proof.
  intros Hc1 Hout1 Hstep Hw Hm Hsub Hc2 Hsc Hin Hout Hdev Hx Hwf.
  assert (m = {[ kw := VFloat v ]}) as ->.
  { unfold forward in Hm. rewrite Hc1 in Hm.
    unfold ScheduledScalarInjector_forward, bind, lift, getitem in Hm.
    rewrite Hout1, Hstep in Hm. cbv beta iota in Hm. rewrite Hw in Hm.
    simpl in Hm. injection Hm as <-. reflexivity. }
  assert (st' !! kw = Some (VFloat v)) as Hkw.
  { apply (lookup_weaken _ _ _ _ (lookup_singleton_eq kw (VFloat v)) Hsub). }
  rewrite (add_noise_prefix s2 env rng2 st' kin (ScaleKey kw) (VFloat v) (VTensor x) dev
             Hc2 Hin Hsc Hdev Hx Hkw).
  unfold tensor_wf in Hwf. set (len := numel (shape x)) in *.
  simpl. rewrite Hout. simpl. unfold tensor_binop. simpl.
  rewrite bool_decide_eq_true_2 by reflexivity. simpl.
  eexists. split; [reflexivity|]. simpl. split; [reflexivity|].
  intros i Hi.
  rewrite (nth_zip_with radd rzero (rmul rzero v) rzero)
    by (rewrite ?length_map, ?length_seq; lia).
  f_equal. rewrite List.map_map.
  rewrite (nth_map_seq (fun j => rmul (rng2 j) v)); [reflexivity|exact Hi].
Qed.

(** X8: greying a grey image changes nothing when the mean of three
    equal numbers is that number: a second grey injector applied to
    the output of a first one on an (N, C, H, W) input returns a
    tensor of the same shape (N, 3, H, W) with the same entry at every
    position. *)
Theorem grey_forward_idempotent g1 g2 env rng (st st' : gmap string value)
    kin kout kin' kout' (t : tensor) N C Hh W :
  (forall a, rmean [a; a; a] = a) ->
  cls g1 = GreyInjector ->
  opt_in (opt g1) = Some (Key kin) ->
  opt_out (opt g1) = Some (Key kout) ->
  st !! kin = Some (VTensor t) ->
  shape t = [N; C; Hh; W] ->
  cls g2 = GreyInjector ->
  opt_in (opt g2) = Some (Key kin') ->
  opt_out (opt g2) = Some (Key kout') ->
  exists o,
    fst (forward g1 env rng st) = Ok {[ kout := VTensor o ]} /\
    (st' !! kin' = Some (VTensor o) ->
     exists o',
       fst (forward g2 env rng st') = Ok {[ kout' := VTensor o' ]} /\
       shape o' = shape o /\
       forall n k h w, n < N -> k < 3 -> h < Hh -> w < W ->
         at4 o' n k h w = at4 o n k h w).
Proof.
  intros Hmean Hc1 Hin1 Hout1 Hst Hsh Hc2 Hin2 Hout2.
  destruct (grey_tensor t N C Hh W Hsh) as (m & o & Hm & Ho & Hosh & _ & Hat).
  exists o. split.
  - rewrite (grey_run g1 env rng st kin kout (VTensor t) Hc1 Hin1 Hout1 Hst).
    rewrite Hm, Ho. reflexivity.
  - intros Hst'.
    destruct (grey_tensor o N 3 Hh W Hosh) as (m' & o' & Hm' & Ho' & Hosh' & _ & Hat').
    exists o'. split; [|split].
    + rewrite (grey_run g2 env rng st' kin' kout' (VTensor o) Hc2 Hin2 Hout2 Hst').
      rewrite Hm', Ho'. reflexivity.
    + rewrite Hosh, Hosh'. reflexivity.
    + intros n k h w Hn Hk Hh' Hw. rewrite Hat' by assumption. simpl.
      rewrite !Hat by (assumption || lia). apply Hmean.
Qed.

(** ** The residual block of the diffusion network *)

Lemma kernel_padding_lookup k :
  kernel_padding !! k =
    if Z.eqb k 5 then Some 2%Z
    else if Z.eqb k 3 then Some 1%Z
    else if Z.eqb k 1 then Some 0%Z
    else None.
Proof.
  unfold kernel_padding.
  destruct (Z.eqb_spec k 5) as [->|H5]; [reflexivity|].
  rewrite lookup_insert_ne by congruence.
  destruct (Z.eqb_spec k 3) as [->|H3]; [reflexivity|].
  rewrite lookup_insert_ne by congruence.
  destruct (Z.eqb_spec k 1) as [->|H1]; [reflexivity|].
  rewrite lookup_insert_ne by congruence. apply lookup_empty.
Qed.

Lemma kernel_padding_same k p :
  kernel_padding !! k = Some p -> (2 * p + 1 = k)%Z.
Proof.
  rewrite kernel_padding_lookup.
  destruct (Z.eqb_spec k 5) as [->|_]; [intros Heq; injection Heq as <-; reflexivity|].
  destruct (Z.eqb_spec k 3) as [->|_]; [intros Heq; injection Heq as <-; reflexivity|].
  destruct (Z.eqb_spec k 1) as [->|_]; [intros Heq; injection Heq as <-; reflexivity|].
  discriminate.
Qed.

Lemma construct_ok `{!LayerConstructors} (l l' : layer) :
  construct l = Ok l' -> l' = l.
Proof.
  unfold construct.
  destruct (match l with
            | normalization channels => normalization_raises channels
            | conv_nd dims in_channels out_channels kernel_size padding =>
                conv_nd_raises dims in_channels out_channels kernel_size padding
            | linear in_features out_features => linear_raises in_features out_features
            | Dropout p => Dropout_raises p
            | _ => None
            end); [discriminate|].
  intros Heq. injection Heq as <-. reflexivity.
Qed.

Lemma ResBlock_init_inv `{!LayerConstructors} (ch ech : Z) (dr : scalar) (oc : option Z)
    (dims k : Z) (eff ssn : bool) b :
  ResBlock_init ch ech dr oc dims k eff ssn = Ok b ->
  exists p, kernel_padding !! k = Some p /\
    b = mkResBlock _ ch ech dr (py_or oc ch) ssn
          [normalization ch; SiLU;
           conv_nd dims ch (py_or oc ch) (if eff then 1 else 3)%Z (if eff then 0 else 1)%Z]
          [SiLU; linear ech (if ssn then 2 * py_or oc ch else py_or oc ch)%Z]
          [normalization (py_or oc ch); SiLU; Dropout dr;
           zero_module (conv_nd dims (py_or oc ch) (py_or oc ch) k p)]
          (if Z.eqb (py_or oc ch) ch then Identity
           else conv_nd dims ch (py_or oc ch) (if eff then 1 else 3)%Z
                  (if eff then 0 else 1)%Z).
Proof.
  unfold ResBlock_init. destruct (kernel_padding !! k) as [p|]; simpl; [|discriminate].
  repeat match goal with
  | |- context [construct ?l] =>
      let E := fresh "E" in
      let l' := fresh "l" in
      destruct (construct l) as [l'|] eqn:E; simpl;
        [apply construct_ok in E; subst l'|discriminate]
  end.
  destruct (Z.eqb (py_or oc ch) ch); simpl;
    intros Heq; injection Heq as <-; exists p; split; reflexivity.
Qed.

Lemma ResBlock_init_run `{!LayerConstructors} (ch ech : Z) (dr : scalar) (oc : option Z)
    (dims k p : Z) (eff ssn : bool) :
  kernel_padding !! k = Some p ->
  normalization_raises ch = None ->
  conv_nd_raises dims ch (py_or oc ch) (if eff then 1 else 3)%Z (if eff then 0 else 1)%Z
    = None ->
  linear_raises ech (if ssn then 2 * py_or oc ch else py_or oc ch)%Z = None ->
  normalization_raises (py_or oc ch) = None ->
  Dropout_raises dr = None ->
  conv_nd_raises dims (py_or oc ch) (py_or oc ch) k p = None ->
  exists b, ResBlock_init ch ech dr oc dims k eff ssn = Ok b.
Proof.
  intros Hp Hn1 Hc1 Hl Hn2 Hd Hc2. unfold ResBlock_init, construct.
  rewrite Hp. simpl. rewrite Hn1. simpl. rewrite Hc1. simpl. rewrite Hl. simpl.
  rewrite Hn2. simpl. rewrite Hd. simpl. rewrite Hc2. simpl.
  destruct (Z.eqb (py_or oc ch) ch); simpl; eexists; reflexivity.
Qed.

(** X9: a ResBlock can only be built with a kernel size of 1, 3 or
    5. Any other kernel size raises KeyError on the padding table
    before any layer is built, whatever the constructors of the layers
    would do. With one of the three, the output convolution is padded
    by [(kernel_size - 1) / 2], and the block is built as soon as the
    constructors of its layers accept their arguments: the two
    normalisations, the input convolution (which is also the skip
    convolution), the linear layer, the dropout and the output
    convolution. *)
Theorem ResBlock_init_kernel_size `{!LayerConstructors} (ch ech : Z) (dr : scalar)
    (oc : option Z) (dims k : Z) (eff ssn : bool) :
  (k ≠ 1%Z -> k ≠ 3%Z -> k ≠ 5%Z ->
   ResBlock_init ch ech dr oc dims k eff ssn = Err (KeyError (pretty k))) /\
  (k = 1%Z \/ k = 3%Z \/ k = 5%Z ->
   normalization_raises ch = None ->
   conv_nd_raises dims ch (py_or oc ch) (if eff then 1 else 3)%Z (if eff then 0 else 1)%Z
     = None ->
   linear_raises ech (if ssn then 2 * py_or oc ch else py_or oc ch)%Z = None ->
   normalization_raises (py_or oc ch) = None ->
   Dropout_raises dr = None ->
   conv_nd_raises dims (py_or oc ch) (py_or oc ch) k ((k - 1) / 2) = None ->
   exists b,
     ResBlock_init ch ech dr oc dims k eff ssn = Ok b /\
     nth 3 (out_layers b) Identity
       = zero_module (conv_nd dims (py_or oc ch) (py_or oc ch) k ((k - 1) / 2))).
Proof.
  split.
  - intros Hk1 Hk3 Hk5. unfold ResBlock_init. rewrite kernel_padding_lookup.
    destruct (Z.eqb_spec k 5); [contradiction|].
    destruct (Z.eqb_spec k 3); [contradiction|].
    destruct (Z.eqb_spec k 1); [contradiction|]. reflexivity.
  - intros Hk Hn1 Hc1 Hl Hn2 Hd Hc2.
    assert (kernel_padding !! k = Some ((k - 1) / 2)%Z) as Hp.
    { rewrite kernel_padding_lookup.
      destruct Hk as [ -> | [ -> | -> ] ]; reflexivity. }
    destruct (ResBlock_init_run ch ech dr oc dims k _ eff ssn Hp Hn1 Hc1 Hl Hn2 Hd Hc2)
      as [b Hb].
    exists b. split; [exact Hb|].
    apply ResBlock_init_inv in Hb as (p & Hp' & ->).
    rewrite Hp in Hp'. injection Hp' as <-. reflexivity.
Qed.

(** X10: every convolution of a ResBlock pads by half its kernel,
    so the block keeps the length of the spatial dimension: the input
    layers, the output layers and the skip connection each map a
    length [L] to [L], for every kernel size the block accepts and
    with or without the efficient configuration. *)
Theorem ResBlock_keeps_length `{!LayerConstructors} (ch ech : Z) (dr : scalar)
    (oc : option Z) (dims k : Z) (eff ssn : bool) b :
  ResBlock_init ch ech dr oc dims k eff ssn = Ok b ->
  forall L : Z,
    sequential_length (in_layers b) L = L /\
    sequential_length (out_layers b) L = L /\
    layer_length (skip_connection b) L = L.
Proof.
  intros Hb L. apply ResBlock_init_inv in Hb as (p & Hp & ->).
  apply kernel_padding_same in Hp. simpl.
  split; [destruct eff; lia|]. split; [lia|].
  destruct (Z.eqb (py_or oc ch) ch); simpl; [reflexivity|destruct eff; lia].
Qed.

(** X11: the channels of a ResBlock. [out_channels] absent or 0
    means the input's channel count; the skip connection is the
    identity exactly when the two counts are equal, and otherwise a
    convolution to [out_channels], so that the skip path and the main
    path always end with [out_channels] channels; the embedding is
    projected to [out_channels], or to twice that with scale-shift
    normalisation. *)
Theorem ResBlock_channels `{!LayerConstructors} (ch ech : Z) (dr : scalar)
    (oc : option Z) (dims k : Z) (eff ssn : bool) b :
  ResBlock_init ch ech dr oc dims k eff ssn = Ok b ->
  out_channels b = match oc with
                   | Some 0%Z | None => ch
                   | Some c => c
                   end /\
  (skip_connection b = Identity <-> out_channels b = ch) /\
  sequential_channels (in_layers b) ch = out_channels b /\
  sequential_channels (out_layers b) (out_channels b) = out_channels b /\
  layer_channels (skip_connection b) ch = out_channels b /\
  sequential_channels (emb_layers b) ech =
    (if ssn then 2 * out_channels b else out_channels b)%Z.
Proof.
  intros Hb. apply ResBlock_init_inv in Hb as (p & Hp & ->). simpl.
  split; [destruct oc as [[| |]|]; reflexivity|].
  split; [|split; [reflexivity|split; [reflexivity|split; [|reflexivity]]]].
  - destruct (Z.eqb_spec (py_or oc ch) ch) as [Heq|Hne]; split; intros Hx;
      [exact Heq|reflexivity|discriminate|contradiction].
  - destruct (Z.eqb_spec (py_or oc ch) ch) as [Heq|Hne]; simpl;
      [symmetry; exact Heq|reflexivity].
Qed.

(** X12: the residual block of a DiffusionLayer. It is built as
    soon as the normalisation, the convolution of kernel 3 and padding
    1, the linear layer to [2 * model_channels] outputs and the
    dropout accept their arguments: the kernel size is always in the
    padding table, and no skip convolution is built. Whenever it is
    built it keeps [model_channels] channels, its skip connection is
    the identity, its embedding projection has [2 * model_channels]
    outputs, one half for the scale and one for the shift, and it
    keeps the length of the sequence. *)
Theorem DiffusionLayer_resblk_shape `{!LayerConstructors} (model_channels : Z)
    (dr : scalar) :
  (normalization_raises model_channels = None ->
   conv_nd_raises 1 model_channels model_channels 3 1 = None ->
   linear_raises model_channels (2 * model_channels) = None ->
   Dropout_raises dr = None ->
   exists b, DiffusionLayer_resblk model_channels dr = Ok b) /\
  (forall b, DiffusionLayer_resblk model_channels dr = Ok b ->
     out_channels b = model_channels /\
     skip_connection b = Identity /\
     use_scale_shift_norm b = true /\
     sequential_channels (emb_layers b) model_channels = (2 * model_channels)%Z /\
     forall L : Z,
       sequential_length (in_layers b) L = L /\
       sequential_length (out_layers b) L = L).
Proof.
  assert (py_or (Some model_channels) model_channels = model_channels) as Hor.
  { simpl. destruct (Z.eqb_spec model_channels 0); congruence. }
  unfold DiffusionLayer_resblk. split.
  - intros Hn Hc Hl Hd.
    apply (ResBlock_init_run model_channels model_channels dr (Some model_channels)
             1 3 1 false true); rewrite ?Hor; try assumption.
    rewrite kernel_padding_lookup. reflexivity.
  - intros b Hb.
    pose proof (ResBlock_init_inv _ _ _ _ _ _ _ _ _ Hb) as (p & Hp & ->).
    rewrite Hor. simpl. rewrite Z.eqb_refl.
    apply kernel_padding_same in Hp.
    repeat split; lia.
Qed.

Lemma expand_emb_out_run fuel : forall h_rank (emb : tensor),
  h_rank - length (shape emb) <= fuel ->
  expand_emb_out fuel h_rank emb =
    Some (mkTensor (shape emb ++ repeat 1 (h_rank - length (shape emb))) (data emb)).
Proof.
  induction fuel as [|fuel IH]; intros h_rank emb Hfuel; simpl.
  - destruct (Nat.ltb_spec (length (shape emb)) h_rank) as [Hlt|Hge]; [lia|].
    replace (h_rank - length (shape emb)) with 0 by lia. simpl.
    rewrite app_nil_r. destruct emb; reflexivity.
  - destruct (Nat.ltb_spec (length (shape emb)) h_rank) as [Hlt|Hge].
    + rewrite IH by (simpl; rewrite length_app; simpl; lia).
      simpl. rewrite length_app. simpl.
      replace (h_rank - length (shape emb))
        with (S (h_rank - (length (shape emb) + 1))) by lia.
      simpl. rewrite <- app_assoc. reflexivity.
    + replace (h_rank - length (shape emb)) with 0 by lia. simpl.
      rewrite app_nil_r. destruct emb; reflexivity.
Qed.

Lemma numel_app_ones sh n : numel (sh ++ repeat 1 n)%list = numel sh.
Proof.
  induction sh as [|d sh IH]; simpl.
  - induction n as [|n IHn]; simpl; [reflexivity|]. rewrite IHn. reflexivity.
  - rewrite IH. reflexivity.
Qed.

(** X13: the loop that gives the embedding the rank of the features
    ends, after as many rounds as the embedding has dimensions fewer
    than the features (none when it has as many or more): the result
    has the same elements in the same order, the same shape followed
    by dimensions of size 1, as many dimensions as the larger of the
    two ranks, and is well formed when the embedding was. *)
Theorem expand_emb_out_spec fuel h_rank (emb : tensor) :
  h_rank - length (shape emb) <= fuel ->
  exists t,
    expand_emb_out fuel h_rank emb = Some t /\
    data t = data emb /\
    shape t = (shape emb ++ repeat 1 (h_rank - length (shape emb)))%list /\
    length (shape t) = Nat.max (length (shape emb)) h_rank /\
    (tensor_wf emb -> tensor_wf t).
Proof.
  intros Hfuel. eexists. split; [apply expand_emb_out_run, Hfuel|].
  simpl. split; [reflexivity|]. split; [reflexivity|]. split.
  - rewrite length_app, repeat_length. lia.
  - unfold tensor_wf. simpl. rewrite numel_app_ones. auto.
Qed.

(** ** The arguments of TransformerDiffusion.forward *)

(** X14: the conditioning input is never read. [forward] of the
    diffusion network, called without precomputed embeddings, returns
    the same result whatever [conditioning_input] is; and so does
    [forward] of the network with its quantizer, which hands the
    argument on and passes no precomputed embeddings. *)
Theorem conditioning_input_never_read `{!FloatOps} `{!TorchOps}
    (self : TransformerDiffusion) (wq : TransformerDiffusionWithQuantizer)
    rng (x timesteps truth_mel : tensor) (codes cond cond' : option tensor)
    (disable_diversity conditioning_free : bool) :
  TransformerDiffusion_forward self rng x timesteps codes cond None conditioning_free
  = TransformerDiffusion_forward self rng x timesteps codes cond' None conditioning_free /\
  TransformerDiffusionWithQuantizer_forward wq rng x timesteps truth_mel cond
    disable_diversity conditioning_free
  = TransformerDiffusionWithQuantizer_forward wq rng x timesteps truth_mel cond'
      disable_diversity conditioning_free.
Proof. split; reflexivity. Qed.

(** X15: with [conditioning_free] the codes play no part. For one
    and the same random source, the result does not depend on [codes]
    (nor on [conditioning_input]), and precomputed embeddings given
    alone are ignored: the call returns what it returns without them,
    and leaves the random source as that call leaves it. *)
Theorem TransformerDiffusion_forward_conditioning_free `{!FloatOps} `{!TorchOps}
    (self : TransformerDiffusion) rng (x timesteps : tensor)
    (codes codes' cond cond' : option tensor) (p : tensor) :
  TransformerDiffusion_forward self rng x timesteps codes cond None true
  = TransformerDiffusion_forward self rng x timesteps codes' cond' None true /\
  TransformerDiffusion_forward self rng x timesteps None None (Some p) true
  = TransformerDiffusion_forward self rng x timesteps codes' cond' None true.
Proof. split; reflexivity. Qed.

Lemma add_scalar_zero (t : tensor) :
  (forall a, radd a rzero = a) -> add_scalar t rzero = t.
Proof.
  intros Hadd. unfold add_scalar. destruct t as [sh d]. simpl. f_equal.
  induction d as [|a d IH]; simpl; [reflexivity|]. rewrite Hadd, IH. reflexivity.
Qed.

(** X16: the addition that involves the unused parameters in the
    loss leaves the output alone. When a number times zero is zero and
    adding zero changes nothing, [forward] returns the output of the
    last sub-network, element for element, whatever the unused
    parameters hold; in any case the result has the shape of that
    output, and the addition draws nothing from the random source. *)
Theorem TransformerDiffusion_forward_extraneous `{!FloatOps} `{!TorchOps}
    (self : TransformerDiffusion) rng (x timesteps : tensor)
    (codes cond precomputed : option tensor) (conditioning_free : bool) o unused :
  fst (TransformerDiffusion_out self rng x timesteps codes cond precomputed
         conditioning_free)
  = Ok (o, unused) ->
  exists r,
    fst (TransformerDiffusion_forward self rng x timesteps codes cond precomputed
           conditioning_free) = Ok r /\
    snd (TransformerDiffusion_forward self rng x timesteps codes cond precomputed
           conditioning_free)
    = snd (TransformerDiffusion_out self rng x timesteps codes cond precomputed
             conditioning_free) /\
    shape r = shape o /\
    length (data r) = length (data o) /\
    ((forall a, rmul a rzero = rzero) -> (forall a, radd a rzero = a) -> r = o).
Proof.
  intros Hout. unfold TransformerDiffusion_forward, rand_bind.
  destruct (TransformerDiffusion_out self rng x timesteps codes cond precomputed
              conditioning_free) as [[[o' unused']|e] rng'];
    simpl in Hout; [|discriminate].
  injection Hout as -> ->. simpl.
  eexists. split; [reflexivity|]. simpl. split; [reflexivity|]. split; [reflexivity|].
  split; [apply length_map|].
  intros Hmul Hadd. rewrite Hmul. apply add_scalar_zero, Hadd.
Qed.

(** X17: the arguments [forward] refuses. Precomputed embeddings
    given together with [codes] or with a [conditioning_input] fail
    the assertion at the start, whatever the other arguments, also
    with [conditioning_free]. Called with [codes=None] (the default),
    without precomputed embeddings and not conditioning-free,
    [forward] raises IndexError when [x] has no dimension and
    TypeError, from the input converter, otherwise. In each case
    nothing has been drawn from the random source. *)
Theorem TransformerDiffusion_forward_arguments `{!FloatOps} `{!TorchOps}
    (self : TransformerDiffusion) rng (x timesteps : tensor)
    (codes cond : option tensor) (p : tensor) (conditioning_free : bool) :
  (is_Some codes \/ is_Some cond ->
   TransformerDiffusion_forward self rng x timesteps codes cond (Some p) conditioning_free
   = (Err AssertionError, rng)) /\
  TransformerDiffusion_forward self rng x timesteps None cond None false
  = (match shape x with
     | [] => Err IndexError
     | _ => Err TypeError
     end, rng).
Proof.
  split.
  - intros [[c ->]|[c ->]]; unfold TransformerDiffusion_forward, TransformerDiffusion_out.
    + reflexivity.
    + destruct codes; reflexivity.
  - unfold TransformerDiffusion_forward, TransformerDiffusion_out, shape_last,
      timestep_independent, rand_bind, rand_lift, call_on.
    destruct (shape x) as [|d sh] eqn:Hsh; [reflexivity|].
    destruct (last (d :: sh)) as [l|] eqn:Hl; [reflexivity|].
    apply last_None in Hl. discriminate.
Qed.

(** X18: outside training, or with an unconditioned percentage that
    is not above zero, the codes are never masked: [torch.rand] is not
    called, the unconditioned embedding is not read, and the embedding
    handed to the code converter is the one the input converter
    returned. The random source is drawn from by the two converters
    only. *)
Theorem timestep_independent_eval `{!FloatOps} `{!TorchOps}
    (self : TransformerDiffusion) rng (codes : option tensor) len :
  training self = false \/ rltb rzero (unconditioned_percentage self) = false ->
  timestep_independent self codes len rng =
    rand_bind (call_on (input_converter self) codes) (fun code_emb =>
    rand_bind (code_converter self code_emb) (fun code_emb =>
    rand_lift (do p <- torch_permute code_emb [0; 2; 1] ;
               do i <- F_interpolate_nearest p len ;
               torch_permute i [0; 2; 1]))) rng.
Proof.
  intros Hoff. unfold timestep_independent.
  assert (training self && rltb rzero (unconditioned_percentage self) = false) as ->.
  { destruct Hoff as [-> | ->]; [reflexivity|apply andb_false_r]. }
  unfold rand_bind, rand_ret, rand_lift.
  destruct (call_on (input_converter self) codes rng) as [[code_emb|e] rng1];
    [|reflexivity].
  destruct (code_converter self code_emb rng1) as [[code_emb'|e] rng2]; [|reflexivity].
  destruct (torch_permute code_emb' [0; 2; 1]) as [q|e]; [|reflexivity]. simpl.
  destruct (F_interpolate_nearest q len) as [i|e]; reflexivity.
Qed.

(** ** The quantizer's freeze *)

(** X19: [update_for_step] and the gradient switch of [forward]
    agree on when the quantizer is frozen. After
    [update_for_step(step)] with [step] up to
    [freeze_quantizer_until], gradients are off and the temperature
    is [max(max_gumbel_temperature, min_gumbel_temperature)] (a number
    times [decay ** 0] being that number): the decay has not begun.
    From the next step on gradients are on and the temperature is
    [max(max_gumbel_temperature * decay ** (step - freeze),
    min_gumbel_temperature)]. The settings of the quantizer are not
    changed. *)
Theorem update_for_step_freeze `{!FloatOps}
    (self : TransformerDiffusionWithQuantizer) (step : Z) :
  let self' := update_for_step self step in
  let q := quantizer self in
  internal_step self' = step /\
  freeze_quantizer_until self' = freeze_quantizer_until self /\
  max_gumbel_temperature (quantizer self') = max_gumbel_temperature q /\
  min_gumbel_temperature (quantizer self') = min_gumbel_temperature q /\
  gumbel_temperature_decay (quantizer self') = gumbel_temperature_decay q /\
  ((step <= freeze_quantizer_until self)%Z ->
     quant_grad_enabled self' = false /\
     ((forall a d, rmul a (rpow d 0) = a) ->
      temperature (quantizer self') =
        py_max (max_gumbel_temperature q) (min_gumbel_temperature q))) /\
  ((freeze_quantizer_until self < step)%Z ->
     quant_grad_enabled self' = true /\
     temperature (quantizer self') =
       py_max (rmul (max_gumbel_temperature q)
                 (rpow (gumbel_temperature_decay q) (step - freeze_quantizer_until self)))
         (min_gumbel_temperature q)).
Proof.
  cbv zeta. unfold update_for_step, quant_grad_enabled. simpl.
  repeat (split; [reflexivity|]). split.
  - intros Hle. split; [apply Z.ltb_ge; exact Hle|].
    intros Hpow. rewrite Z.max_l by lia. rewrite Hpow. reflexivity.
  - intros Hlt. split; [apply Z.ltb_lt; exact Hlt|].
    rewrite Z.max_r by lia. reflexivity.
Qed.

(** X20: the temperature set by [update_for_step] is never below
    [min_gumbel_temperature] (no number being less than itself),
    whatever the step, the decay and the maximum are. The constructor
    sets it to [min_gumbel_temperature] itself. *)
Theorem update_for_step_temperature_floor `{!FloatOps}
    (self : TransformerDiffusionWithQuantizer) (step : Z) :
  (forall a, rltb a a = false) ->
  rltb (temperature (quantizer (update_for_step self step)))
       (min_gumbel_temperature (quantizer self)) = false.
Proof.
  intros Hirr. unfold update_for_step, py_max. simpl.
  set (a := rmul _ _).
  destruct (rltb a (min_gumbel_temperature (quantizer self))) eqn:Hlt;
    [apply Hirr|exact Hlt].
Qed.

Lemma unused_sum_zero (ps : list tensor) :
  (forall a, rmul a rzero = rzero) -> (forall a, radd a rzero = a) ->
  unused_sum ps = rzero.
Proof.
  intros Hmul Hadd. unfold unused_sum.
  assert (forall acc, acc = rzero ->
            fold_left (fun unused p => radd unused (rmul (rmean (data p)) rzero)) ps acc
            = rzero) as Hfold.
  { induction ps as [|p ps IH]; intros acc ->; simpl; [reflexivity|].
    apply IH. rewrite Hmul, Hadd. reflexivity. }
  apply Hfold. reflexivity.
Qed.

(** X21: the freeze changes no value. Take two networks that differ
    in their step counter only, one up to [freeze_quantizer_until] and
    one past it, with the same quantizer at the same temperature, and
    the same random source. With [disable_diversity], [forward]
    returns the same output for both and leaves the random source the
    same (a number times zero being zero, adding zero changing
    nothing): up to the freeze the parameters of the quantizer are
    only added times zero. Without [disable_diversity] and up to the
    freeze, the loss returned beside that output is the diversity loss
    times zero, zero in every element. *)
Theorem WithQuantizer_forward_frozen `{!FloatOps} `{!TorchOps}
    (d : TransformerDiffusion) (q : MusicQuantizer2) (freeze step step' : Z)
    rng (x timesteps truth_mel : tensor)
    (cond : option tensor) (conditioning_free : bool) :
  (forall a, rmul a rzero = rzero) ->
  (forall a, radd a rzero = a) ->
  (step <= freeze)%Z ->
  (freeze < step')%Z ->
  TransformerDiffusionWithQuantizer_forward (mkWithQuantizer _ step freeze d q) rng
    x timesteps truth_mel cond true conditioning_free
  = TransformerDiffusionWithQuantizer_forward (mkWithQuantizer _ step' freeze d q) rng
      x timesteps truth_mel cond true conditioning_free /\
  (forall v,
     fst (TransformerDiffusionWithQuantizer_forward (mkWithQuantizer _ step freeze d q) rng
            x timesteps truth_mel cond false conditioning_free) = Ok v ->
     exists out loss,
       v = VTuple [VTensor out; VTensor loss] /\
       fst (TransformerDiffusionWithQuantizer_forward
              (mkWithQuantizer _ step' freeze d q) rng
              x timesteps truth_mel cond true conditioning_free) = Ok (VTensor out) /\
       forall e, In e (data loss) -> e = rzero).
Proof.
  intros Hmul Hadd Hle Hlt.
  unfold TransformerDiffusionWithQuantizer_forward, quant_grad_enabled, rand_bind,
    rand_lift, rand_ret.
  cbn [internal_step freeze_quantizer_until diff quantizer].
  rewrite (proj2 (Z.ltb_ge _ _) Hle), (proj2 (Z.ltb_lt _ _) Hlt).
  cbn [negb fst snd].
  rewrite (unused_sum_zero _ Hmul Hadd).
  destruct (quantizer_call q (temperature q) truth_mel rng) as [[[proj div]|e] rng1];
    cbn [fst snd]; [|split; [reflexivity|discriminate]].
  destruct (torch_permute proj [0; 2; 1]) as [proj'|e];
    [|split; [reflexivity|discriminate]].
  rewrite (add_scalar_zero proj' Hadd).
  split; [reflexivity|].
  intros v.
  destruct (TransformerDiffusion_forward d rng1 x timesteps (Some proj') cond None
              conditioning_free) as [[out|e] rng2]; cbn [fst]; [|discriminate].
  intros Hv. injection Hv as <-. exists out, (scale_tensor div rzero).
  split; [reflexivity|]. split; [reflexivity|].
  intros e He. unfold scale_tensor in He. simpl in He.
  apply in_map_iff in He as (a & <- & _). apply Hmul.
Qed.

(** ** The multi-group embedding *)

Local Open Scope list_scope.

Context `{!TorchErrors}.

Lemma mapM_result_ok {A B} (f : A -> result B) l bs :
  mapM_result f l = Ok bs -> Forall2 (fun a b => f a = Ok b) l bs.
Proof.
  revert bs. induction l as [|a l IH]; intros bs Hbs; simpl in Hbs.
  - injection Hbs as <-. constructor.
  - destruct (f a) as [b|e] eqn:Hb; simpl in Hbs; [|discriminate].
    destruct (mapM_result f l) as [bs'|e]; simpl in Hbs; [|discriminate].
    injection Hbs as <-. constructor; [exact Hb|apply IH; reflexivity].
Qed.

Lemma mapM_result_err {A B} (f : A -> result B) l e :
  mapM_result f l = Err e -> exists a, In a l /\ f a = Err e.
Proof.
  induction l as [|a l IH]; simpl; [discriminate|].
  destruct (f a) as [b|e'] eqn:Hb; simpl.
  - destruct (mapM_result f l) as [bs'|e'']; simpl; [discriminate|].
    intros He. injection He as ->. destruct IH as (a' & Hin & Ha'); [reflexivity|].
    exists a'. split; [right; exact Hin|exact Ha'].
  - intros He. injection He as ->. exists a. split; [left; reflexivity|exact Hb].
Qed.

Lemma block_length {A} n i (l : list A) :
  (i + 1) * n <= length l -> length (block n i l) = n.
Proof.
  intros Hlen. unfold block. rewrite length_take, length_drop. lia.
Qed.

Lemma concat_rows_length {A} (rows : list (list A)) d :
  Forall (fun r => length r = d) rows -> length (concat rows) = length rows * d.
Proof.
  induction 1 as [|r rows Hr _ IH]; simpl; [reflexivity|].
  rewrite length_app, Hr, IH. reflexivity.
Qed.

Lemma numel_app sh sh' : numel (sh ++ sh') = numel sh * numel sh'.
Proof.
  induction sh as [|d sh IH]; simpl; [lia|]. rewrite IH. lia.
Qed.

Lemma Embedding_forward_ok init tokens d idx t :
  Embedding_forward (nn_Embedding init tokens d) idx = Ok t ->
  shape t = ishape idx ++ [d] /\ length (data t) = length (idata idx) * d.
Proof.
  unfold Embedding_forward. simpl.
  destruct (mapM_result _ (idata idx)) as [rows|e] eqn:Hrows; simpl; [|discriminate].
  intros Ht. injection Ht as <-. simpl. split; [reflexivity|].
  apply mapM_result_ok in Hrows.
  rewrite (concat_rows_length rows d).
  - rewrite (Forall2_length _ _ _ Hrows). reflexivity.
  - induction Hrows as [|k r ks rows Hk _ IH]; constructor; [|exact IH].
    destruct (0 <=? k)%Z eqn:Hge0; simpl in Hk; [|discriminate].
    destruct (k <? Z.of_nat tokens)%Z eqn:Hlt1; [|discriminate].
    injection Hk as <-. apply block_length.
    rewrite length_map, length_seq.
    apply Z.leb_le in Hge0. apply Z.ltb_lt in Hlt1. nia.
Qed.

Lemma Embedding_forward_err e idx err :
  Embedding_forward e idx = Err err ->
  exists k, ~ (0 <= k < Z.of_nat (num_embeddings e))%Z /\
            err = embedding_error (num_embeddings e) (embedding_dim e) k.
Proof.
  unfold Embedding_forward.
  destruct (mapM_result _ (idata idx)) as [rows|e'] eqn:Hrows; simpl; [discriminate|].
  intros He. injection He as ->.
  apply mapM_result_err in Hrows as (k & _ & Hk).
  destruct (0 <=? k)%Z eqn:Hge0; simpl in Hk.
  - destruct (k <? Z.of_nat (num_embeddings e))%Z eqn:Hlt1; [discriminate|].
    injection Hk as <-. exists k. split; [|reflexivity].
    apply Z.ltb_ge in Hlt1. lia.
  - injection Hk as <-. exists k. split; [|reflexivity].
    apply Z.leb_gt in Hge0. lia.
Qed.

Lemma select_dim2_ok x i xi :
  length (idata x) = numel (ishape x) ->
  select_dim2 x i = Ok xi ->
  exists B T G rest,
    ishape x = B :: T :: G :: rest /\ i < G /\
    ishape xi = B :: T :: rest /\
    length (idata xi) = B * T * numel rest.
Proof.
  intros Hwf. unfold select_dim2.
  destruct (ishape x) as [|B [|T [|G rest]]] eqn:Hsh; try discriminate.
  destruct (Nat.ltb_spec i G) as [Hlt|]; [|discriminate].
  intros Hxi. injection Hxi as <-. exists B, T, G, rest.
  split; [reflexivity|]. split; [exact Hlt|]. split; [reflexivity|]. simpl.
  apply flat_map_block_length. intros p Hp. apply block_length.
  rewrite Hwf. simpl.
  assert (p * G + i + 1 <= B * T * G) as Hle.
  { assert (p + 1 <= B * T) as Hp1 by lia.
    apply Nat.le_trans with ((p + 1) * G); [lia|].
    apply Nat.mul_le_mono_r. exact Hp1. }
  apply Nat.le_trans with (B * T * G * numel rest); [|lia].
  apply Nat.mul_le_mono_r. exact Hle.
Qed.

Lemma select_dim2_err x i err : select_dim2 x i = Err err -> err = IndexError.
Proof.
  unfold select_dim2.
  destruct (ishape x) as [|B [|T [|G rest]]]; try (intros He; injection He as <-; reflexivity).
  destruct (Nat.ltb i G); [discriminate|]. intros He; injection He as <-; reflexivity.
Qed.


Lemma embed_groups_err (init : nat -> nat -> scalar) tokens d n : forall i x err,
  embed_groups (map (fun j => nn_Embedding (init j) tokens d) (seq i n)) i x = Err err ->
  err = IndexError \/
  exists k, ~ (0 <= k < Z.of_nat tokens)%Z /\ err = embedding_error tokens d k.
Proof.
  induction n as [|n IH]; intros i x err; simpl; [discriminate|].
  destruct (select_dim2 x i) as [xi|e1] eqn:Hsel; simpl.
  2: { intros He. injection He as <-. left. apply (select_dim2_err _ _ _ Hsel). }
  destruct (Embedding_forward _ xi) as [hi|e2] eqn:Hemb; simpl.
  2: { intros He. injection He as <-. right.
       apply Embedding_forward_err in Hemb. exact Hemb. }
  destruct (embed_groups _ (S i) x) as [hs|e3] eqn:Hrest; simpl; [discriminate|].
  intros He. injection He as <-. apply (IH _ _ _ Hrest).
Qed.

Lemma embed_groups_ok (init : nat -> nat -> scalar) tokens d x B T G rest n :
  length (idata x) = numel (ishape x) ->
  ishape x = B :: T :: G :: rest ->
  forall i h,
    embed_groups (map (fun j => nn_Embedding (init j) tokens d) (seq i n)) i x = Ok h ->
    (n = 0 \/ i + n <= G) /\ length h = n /\
    Forall (fun t => shape t = (B :: T :: rest) ++ [d] /\
                     length (data t) = B * T * numel rest * d) h.
Proof.
  intros Hwf Hsh. induction n as [|n IH]; intros i h; simpl.
  - intros Hh. injection Hh as <-. auto.
  - destruct (select_dim2 x i) as [xi|e1] eqn:Hsel; simpl; [|discriminate].
    destruct (Embedding_forward _ xi) as [hi|e2] eqn:Hemb; simpl; [|discriminate].
    destruct (embed_groups _ (S i) x) as [hs|e3] eqn:Hrest; simpl; [|discriminate].
    intros Hh. injection Hh as <-.
    destruct (IH _ _ Hrest) as (Hb & Hlen & Hall).
    destruct (select_dim2_ok x i xi Hwf Hsel) as (B' & T' & G' & rest' & Hsh' & Hi & Hxs & Hxl).
    rewrite Hsh in Hsh'. injection Hsh' as <- <- <- <-.
    destruct (Embedding_forward_ok _ _ _ _ _ Hemb) as (Hs & Hl).
    split; [right; lia|]. split; [simpl; lia|].
    constructor; [|exact Hall].
    split; [rewrite Hs, Hxs; reflexivity|rewrite Hl, Hxl; reflexivity].
Qed.

Lemma cat_rows_length (h : list tensor) d q N :
  Forall (fun t => last_dim t = d /\ length (data t) = N * d) h ->
  q < N ->
  length (flat_map (fun t => block (last_dim t) q (data t)) h) = length h * d.
Proof.
  intros Hall Hq. induction Hall as [|u us [Hd Hl] _ IH]; simpl; [reflexivity|].
  rewrite length_app, IH, Hd. rewrite block_length; [reflexivity|].
  rewrite Hl. nia.
Qed.

Lemma cat_last_ok (h : list tensor) outer d :
  h ≠ [] ->
  Forall (fun t => shape t = outer ++ [d] /\ length (data t) = numel outer * d) h ->
  exists t, cat_last h = Ok t /\ shape t = outer ++ [length h * d] /\ tensor_wf t.
Proof.
  intros Hne Hall. destruct h as [|t0 h]; [congruence|].
  unfold cat_last.
  assert (removelast (shape t0) = outer) as Houter.
  { inversion Hall as [|? ? [Hs _] _]; subst. rewrite Hs. apply removelast_last. }
  rewrite Houter.
  assert (forallb (fun t => bool_decide (shape t ≠ [] /\ removelast (shape t) = outer))
            (t0 :: h) = true) as ->.
  { apply forallb_forall. intros t Hin. apply bool_decide_eq_true_2.
    rewrite Forall_forall in Hall. apply list_elem_of_In in Hin.
    destruct (Hall t Hin) as [Hs _]. rewrite Hs. split.
    - destruct outer; discriminate.
    - apply removelast_last. }
  assert (Forall (fun t => last_dim t = d /\ length (data t) = numel outer * d) (t0 :: h))
    as Hall'.
  { eapply Forall_impl; [exact Hall|]. intros t [Hs Hl]. split; [|exact Hl].
    unfold last_dim. rewrite Hs, last_snoc. reflexivity. }
  assert (list_sum (map last_dim (t0 :: h)) = length (t0 :: h) * d) as ->.
  { clear -Hall'. induction Hall' as [|u us [Hd _] _ IH]; [reflexivity|].
    cbn [map length].
    change (list_sum (last_dim u :: map last_dim us))
      with (last_dim u + list_sum (map last_dim us)).
    rewrite IH, Hd. lia. }
  eexists. split; [reflexivity|]. split; [reflexivity|].
  unfold tensor_wf. cbn [shape data].
  rewrite (flat_map_block_length _ (length (t0 :: h) * d) (numel outer) 0).
  - rewrite numel_app. simpl. lia.
  - intros q Hq. apply (cat_rows_length _ d q (numel outer) Hall'). lia.
Qed.

Lemma mge_width (init : nat -> nat -> scalar)
    tokens groups dim x t :
  length (idata x) = numel (ishape x) ->
  MultiGroupEmbedding_forward (MultiGroupEmbedding_init init tokens groups dim) x = Ok t ->
  exists B T G rest,
    ishape x = B :: T :: G :: rest /\
    0 < groups <= G /\
    shape t = (B :: T :: rest) ++ [groups * (dim / groups)] /\
    tensor_wf t /\
    groups * (dim / groups) <= dim /\
    (groups * (dim / groups) = dim <-> dim mod groups = 0).
Proof.
  intros Hwf. unfold MultiGroupEmbedding_forward, MultiGroupEmbedding_init.
  destruct (embed_groups _ 0 x) as [h|e] eqn:Hh; simpl; [|discriminate].
  intros Hcat.
  destruct groups as [|g].
  { simpl in Hh. injection Hh as <-. discriminate. }
  assert (exists B T G rest, ishape x = B :: T :: G :: rest) as (B & T & G & rest & Hsh).
  { simpl in Hh. unfold select_dim2 in Hh.
    destruct (ishape x) as [|B [|T [|G rest]]]; try discriminate. eauto. }
  destruct (embed_groups_ok init tokens (dim / S g) x B T G rest (S g) Hwf Hsh 0 h Hh)
    as (Hb & Hlen & Hall).
  destruct (cat_last_ok h (B :: T :: rest) (dim / S g)) as (t' & Ht' & Hts & Htwf).
  { destruct h; [discriminate|congruence]. }
  { eapply Forall_impl; [exact Hall|]. intros u [Hs Hl]. split; [exact Hs|].
    rewrite Hl. simpl. lia. }
  rewrite Ht' in Hcat. injection Hcat as <-.
  exists B, T, G, rest. split; [exact Hsh|]. split; [lia|].
  split; [rewrite Hts, Hlen; reflexivity|]. split; [exact Htwf|].
  pose proof (Nat.div_mod_eq dim (S g)) as Hdm.
  split; [lia|]. split; lia.
Qed.


Lemma nth_block {A} n i j (l : list A) d :
  j < n -> nth j (block n i l) d = nth (i * n + j) l d.
Proof.
  intros Hj. unfold block. rewrite nth_firstn.
  destruct (Nat.ltb_spec j n) as [_|Hge]; [|lia]. apply nth_skipn.
Qed.

Lemma In_block {A} n i (l : list A) a : In a (block n i l) -> In a l.
Proof.
  intros Hin. apply (In_nth _ _ a) in Hin as (j & Hj & Hnth).
  unfold block in Hj. rewrite length_take, length_drop in Hj.
  rewrite nth_block in Hnth by lia. rewrite <- Hnth. apply nth_In. lia.
Qed.

Lemma nth_flat_map_list {A B} (f : A -> list B) (h : list A) n d a0 : forall i j,
  Forall (fun u => length (f u) = n) h ->
  i < length h -> j < n ->
  nth (i * n + j) (flat_map f h) d = nth j (f (nth i h a0)) d.
Proof.
  induction h as [|u h IH]; intros i j Hall Hi Hj; simpl in *; [lia|].
  inversion Hall as [|? ? Hu Hall']; subst.
  destruct i as [|i].
  - rewrite app_nth1 by lia. reflexivity.
  - rewrite app_nth2 by lia.
    replace (S i * length (f u) + j - length (f u)) with (i * length (f u) + j) by lia.
    apply IH; [exact Hall'|lia|exact Hj].
Qed.

Lemma nth_concat_rows {A} (rows : list (list A)) n d q j :
  Forall (fun r => length r = n) rows ->
  q < length rows -> j < n ->
  nth (q * n + j) (concat rows) d = nth j (nth q rows []) d.
Proof.
  intros Hall Hq Hj.
  rewrite <- (map_id rows) at 1. rewrite <- flat_map_concat_map.
  apply (nth_flat_map_list (fun r => r) rows n d []); assumption.
Qed.


Lemma row_of_ok init tokens d g k r :
  row_of init tokens d g k = Ok r ->
  (0 <= k < Z.of_nat tokens)%Z /\ length r = d /\
  forall j, j < d -> nth j r rzero = init g (Z.to_nat k * d + j).
Proof.
  unfold row_of.
  destruct (0 <=? k)%Z eqn:Hge0; simpl; [|discriminate].
  destruct (k <? Z.of_nat tokens)%Z eqn:Hlt1; [|discriminate].
  apply Z.leb_le in Hge0. apply Z.ltb_lt in Hlt1.
  intros Hr. injection Hr as <-. split; [lia|]. split.
  - apply block_length. rewrite length_map, length_seq. nia.
  - intros j Hj. rewrite nth_block by exact Hj.
    rewrite (nth_map_seq (init g)); [reflexivity|]. nia.
Qed.

Lemma embed_groups_spec (init : nat -> nat -> scalar) tokens d x B T G rest n :
  length (idata x) = numel (ishape x) ->
  ishape x = B :: T :: G :: rest ->
  forall i h,
    embed_groups (map (fun j => nn_Embedding (init j) tokens d) (seq i n)) i x = Ok h ->
    length h = n /\
    forall g, g < n ->
      i + g < G /\
      exists rows,
        mapM_result (row_of init tokens d (i + g))
          (flat_map (fun p => block (numel rest) (p * G + (i + g)) (idata x))
                    (seq 0 (B * T))) = Ok rows /\
        nth g h (mkTensor [] []) = mkTensor ((B :: T :: rest) ++ [d]) (concat rows).
Proof.
  intros Hwf Hsh. induction n as [|n IH]; intros i h; simpl.
  - intros Hh. injection Hh as <-. split; [reflexivity|]. intros g Hg. lia.
  - destruct (select_dim2 x i) as [xi|e1] eqn:Hsel; simpl; [|discriminate].
    destruct (Embedding_forward _ xi) as [hi|e2] eqn:Hemb; simpl; [|discriminate].
    destruct (embed_groups _ (S i) x) as [hs|e3] eqn:Hrest; simpl; [|discriminate].
    intros Hh. injection Hh as <-.
    destruct (IH _ _ Hrest) as (Hlen & Hspec).
    split; [simpl; lia|].
    intros g Hg. destruct g as [|g].
    + rewrite Nat.add_0_r. unfold select_dim2 in Hsel. rewrite Hsh in Hsel.
      destruct (Nat.ltb_spec i G) as [Hlt|]; [|discriminate].
      injection Hsel as <-. split; [exact Hlt|].
      unfold Embedding_forward in Hemb. cbn [idata ishape nn_Embedding num_embeddings
        embedding_dim weight] in Hemb.
      change (fun k : Z => if (0 <=? k)%Z && (k <? Z.of_nat tokens)%Z
                then Ok (block d (Z.to_nat k) (map (init i) (seq 0 (tokens * d))))
                else Err (embedding_error tokens d k))
        with (row_of init tokens d i) in Hemb.
      destruct (mapM_result (row_of init tokens d i) _) as [rows|e] eqn:Hrows;
        simpl in Hemb; [|discriminate].
      injection Hemb as <-. exists rows. split; [reflexivity|reflexivity].
    + destruct (Hspec g) as (Hlt & rows & Hrows & Hnth); [lia|].
      replace (i + S g) with (S i + g) by lia.
      split; [exact Hlt|]. exists rows. split; [exact Hrows|exact Hnth].
Qed.


Lemma Forall2_nth_both {A B} (P : A -> B -> Prop) l l' a b q :
  Forall2 P l l' -> q < length l -> P (nth q l a) (nth q l' b).
Proof.
  intros Hall. revert q. induction Hall as [|x y l l' Hxy _ IH]; intros q Hq; simpl in *.
  - lia.
  - destruct q as [|q]; [exact Hxy|]. apply IH. lia.
Qed.

Lemma cat_last_run (h : list tensor) outer d :
  h ≠ [] ->
  Forall (fun t => shape t = outer ++ [d]) h ->
  cat_last h = Ok (mkTensor (outer ++ [length h * d])
                     (flat_map (fun q => flat_map (fun t => block d q (data t)) h)
                               (seq 0 (numel outer)))).
Proof.
  intros Hne Hall. destruct h as [|t0 h]; [congruence|].
  unfold cat_last.
  assert (removelast (shape t0) = outer) as Houter.
  { inversion Hall as [|? ? Hs _]; subst. rewrite Hs. apply removelast_last. }
  rewrite Houter.
  assert (forallb (fun t => bool_decide (shape t ≠ [] /\ removelast (shape t) = outer))
            (t0 :: h) = true) as ->.
  { apply forallb_forall. intros t Hin. apply bool_decide_eq_true_2.
    rewrite Forall_forall in Hall. apply list_elem_of_In in Hin.
    rewrite (Hall t Hin). split.
    - destruct outer; discriminate.
    - apply removelast_last. }
  assert (Forall (fun t => last_dim t = d) (t0 :: h)) as Hall'.
  { eapply Forall_impl; [exact Hall|]. intros t Hs.
    unfold last_dim. rewrite Hs, last_snoc. reflexivity. }
  assert (list_sum (map last_dim (t0 :: h)) = length (t0 :: h) * d) as ->.
  { clear -Hall'. induction Hall' as [|u us Hd _ IH]; [reflexivity|].
    cbn [map length].
    change (list_sum (last_dim u :: map last_dim us))
      with (last_dim u + list_sum (map last_dim us)).
    rewrite IH, Hd. lia. }
  f_equal. f_equal. apply flat_map_ext. intros q.
  clear -Hall'. induction Hall' as [|u us Hd _ IH]; [reflexivity|].
  simpl. rewrite Hd. f_equal. exact IH.
Qed.

Lemma mge_rows (init : nat -> nat -> scalar)
    tokens groups dim x t B T G rest :
  length (idata x) = numel (ishape x) ->
  ishape x = B :: T :: G :: rest ->
  MultiGroupEmbedding_forward (MultiGroupEmbedding_init init tokens groups dim) x = Ok t ->
  forall p r g,
    p < B * T -> r < numel rest -> g < groups ->
    let k := nth ((p * G + g) * numel rest + r) (idata x) 0%Z in
    (0 <= k < Z.of_nat tokens)%Z /\
    forall j, j < dim / groups ->
      nth ((p * numel rest + r) * (groups * (dim / groups)) + (g * (dim / groups) + j))
          (data t) rzero
      = init g (Z.to_nat k * (dim / groups) + j).
Proof.
  intros Hwf Hsh. unfold MultiGroupEmbedding_forward, MultiGroupEmbedding_init.
  set (d := dim / groups). set (inner := numel rest).
  destruct (embed_groups _ 0 x) as [h|e] eqn:Hh; simpl; [|discriminate].
  intros Hcat p r g Hp Hr Hg.
  destruct (embed_groups_ok init tokens d x B T G rest groups Hwf Hsh 0 h Hh)
    as (_ & Hlen & Hall).
  destruct (embed_groups_spec init tokens d x B T G rest groups Hwf Hsh 0 h Hh)
    as (_ & Hspec).
  destruct (Hspec g Hg) as (HgG & rows & Hrows & Hnth). simpl in HgG, Hrows, Hnth.
  fold inner in Hrows, Hall.
  assert (h ≠ []) as Hne by (destruct h; [simpl in Hlen; lia|discriminate]).
  rewrite (cat_last_run h (B :: T :: rest) d Hne) in Hcat.
  2: { eapply Forall_impl; [exact Hall|]. intros u [Hs _]. exact Hs. }
  injection Hcat as <-. cbn [data].
  set (N := numel (B :: T :: rest)).
  assert (N = B * T * inner) as HN by (unfold N, inner; simpl; lia).
  set (Q := p * inner + r).
  assert (Q < N) as HQ by (unfold Q; rewrite HN; nia).
  assert (forall p0, p0 < B * T ->
            length (block inner (p0 * G + g) (idata x)) = inner) as Hsel.
  { intros p0 Hp0. apply block_length.
    rewrite Hwf, Hsh. simpl. fold inner.
    assert (p0 * G + g + 1 <= B * T * G) as Hle.
    { apply Nat.le_trans with ((p0 + 1) * G); [lia|].
      apply Nat.mul_le_mono_r. lia. }
    apply Nat.le_trans with (B * T * G * inner); [|lia].
    apply Nat.mul_le_mono_r. exact Hle. }
  assert (length (flat_map (fun p0 => block inner (p0 * G + g) (idata x)) (seq 0 (B * T)))
          = B * T * inner) as Hks.
  { apply flat_map_block_length. intros p0 Hp0. apply Hsel. lia. }
  pose proof (mapM_result_ok _ _ _ Hrows) as Hrows2.
  pose proof (Forall2_nth_both _ _ _ 0%Z [] Q Hrows2) as HrowQ.
  rewrite Hks, <- HN in HrowQ. specialize (HrowQ HQ).
  assert (nth Q (flat_map (fun p0 => block inner (p0 * G + g) (idata x)) (seq 0 (B * T))) 0%Z
          = nth ((p * G + g) * inner + r) (idata x) 0%Z) as Hk.
  { unfold Q.
    rewrite (nth_flat_map_block _ inner 0%Z (B * T) 0 p r); [| |exact Hp|exact Hr].
    - simpl. apply nth_block. exact Hr.
    - intros p0 Hp0. apply Hsel. lia. }
  rewrite Hk in HrowQ. apply row_of_ok in HrowQ as (Hrange & _ & Hval).
  split; [exact Hrange|]. intros j Hj.
  (* the row of position Q *)
  rewrite (nth_flat_map_block _ (groups * d) rzero N 0 Q (g * d + j)); [| |exact HQ|nia].
  2: { intros q Hq.
       assert (Forall (fun u => length (block d q (data u)) = d) h) as Hbq.
       { eapply Forall_impl; [exact Hall|]. intros u [_ Hl]. apply block_length.
         rewrite Hl, <- HN. nia. }
       rewrite <- Hlen. clear -Hbq.
       induction Hbq as [|u us Hu _ IH]; [reflexivity|].
       cbn [flat_map length]. rewrite length_app, Hu, IH. lia. }
  simpl.
  (* the part of group g in that row *)
  assert (Forall (fun u => length (block d Q (data u)) = d) h) as Hblocks.
  { eapply Forall_impl; [exact Hall|]. intros u [_ Hl]. apply block_length.
    rewrite Hl, <- HN. nia. }
  rewrite (nth_flat_map_list _ h d rzero (mkTensor [] []) g j Hblocks); [|lia|exact Hj].
  rewrite nth_block by exact Hj. rewrite Hnth. cbn [data].
  (* the row of the token in the table of group g *)
  assert (Forall (fun r0 => length r0 = d) rows) as Hrowlen.
  { clear -Hrows2. induction Hrows2 as [|k0 r0 ks rs Hk0 _ IH]; constructor; [|exact IH].
    apply row_of_ok in Hk0. tauto. }
  rewrite (nth_concat_rows rows d rzero Q j Hrowlen); [| |exact Hj].
  2: { rewrite <- (Forall2_length _ _ _ Hrows2), Hks, <- HN. exact HQ. }
  apply Hval. exact Hj.
Qed.

Lemma mapM_result_success {A B} (f : A -> result B) l :
  (forall a, In a l -> exists b, f a = Ok b) ->
  exists bs, mapM_result f l = Ok bs.
Proof.
  induction l as [|a l IH]; intros Hf; simpl; [eauto|].
  destruct (Hf a) as [b Hb]; [left; reflexivity|]. rewrite Hb. simpl.
  destruct IH as [bs Hbs]; [intros a' Ha'; apply Hf; right; exact Ha'|].
  rewrite Hbs. simpl. eauto.
Qed.


Lemma embed_groups_success (init : nat -> nat -> scalar) tokens d x B T G rest groups :
  length (idata x) = numel (ishape x) ->
  ishape x = B :: T :: G :: rest ->
  (forall p r g, p < B * T -> r < numel rest -> g < groups ->
     (0 <= nth ((p * G + g) * numel rest + r) (idata x) 0 < Z.of_nat tokens)%Z) ->
  forall n i, i + n <= groups -> groups <= G ->
    exists h, embed_groups (map (fun j => nn_Embedding (init j) tokens d) (seq i n)) i x
              = Ok h.
Proof.
  intros Hwf Hsh Hrange. induction n as [|n IH]; intros i Hin HG; simpl; [eauto|].
  unfold select_dim2. rewrite Hsh.
  destruct (Nat.ltb_spec i G) as [Hlt|]; [|lia]. simpl.
  unfold Embedding_forward. cbn [idata ishape nn_Embedding num_embeddings embedding_dim weight].
  destruct (mapM_result_success
              (fun k : Z => if (0 <=? k)%Z && (k <? Z.of_nat tokens)%Z
                 then Ok (block d (Z.to_nat k) (map (init i) (seq 0 (tokens * d))))
                 else Err (embedding_error tokens d k))
              (flat_map (fun p => block (numel rest) (p * G + i) (idata x)) (seq 0 (B * T))))
    as [rows Hrows].
  { intros k Hk. apply in_flat_map in Hk as (p & Hp & Hk).
    apply in_seq in Hp.
    apply (In_nth _ _ 0%Z) in Hk as (r & Hr & Hnth).
    unfold block in Hr. rewrite length_take, length_drop in Hr.
    rewrite nth_block in Hnth by lia.
    destruct (Hrange p r i) as [Hge0 Hlt1]; [lia|lia|lia|].
    rewrite Hnth in Hge0, Hlt1.
    rewrite (proj2 (Z.leb_le _ _) Hge0), (proj2 (Z.ltb_lt _ _) Hlt1). simpl. eauto. }
  rewrite Hrows. simpl.
  destruct (IH (S i)) as [hs Hhs]; [lia|exact HG|].
  rewrite Hhs. simpl. eauto.
Qed.

Lemma mge_raises (init : nat -> nat -> scalar)
    tokens groups dim x :
  length (idata x) = numel (ishape x) ->
  (groups = 0 ->
   MultiGroupEmbedding_forward (MultiGroupEmbedding_init init tokens groups dim) x
   = Err cat_empty_error) /\
  (0 < groups ->
   (tokens_in_range tokens groups x ->
    exists t,
      MultiGroupEmbedding_forward (MultiGroupEmbedding_init init tokens groups dim) x
      = Ok t) /\
   (~ tokens_in_range tokens groups x ->
    exists e,
      MultiGroupEmbedding_forward (MultiGroupEmbedding_init init tokens groups dim) x
      = Err e /\
      (e = IndexError \/
       exists k, ~ (0 <= k < Z.of_nat tokens)%Z /\
                 e = embedding_error tokens (dim / groups) k))).
Proof.
  intros Hwf. split; [intros ->; reflexivity|].
  intros Hpos. split.
  - intros (B & T & G & rest & Hsh & HG & Hrange).
    unfold MultiGroupEmbedding_forward, MultiGroupEmbedding_init.
    destruct (embed_groups_success init tokens (dim / groups) x B T G rest groups
                Hwf Hsh Hrange groups 0) as [h Hh]; [lia|exact HG|].
    rewrite Hh. simpl.
    destruct (embed_groups_ok init tokens (dim / groups) x B T G rest groups Hwf Hsh 0 h Hh)
      as (_ & Hlen & Hall).
    destruct (cat_last_ok h (B :: T :: rest) (dim / groups)) as (t & Ht & _).
    + destruct h; [simpl in Hlen; lia|discriminate].
    + eapply Forall_impl; [exact Hall|]. intros u [Hs Hl]. split; [exact Hs|].
      rewrite Hl. simpl. lia.
    + eauto.
  - intros Hnot.
    destruct (MultiGroupEmbedding_forward _ x) as [t|e] eqn:Hf.
    + exfalso. apply Hnot.
      destruct (mge_width init tokens groups dim x t Hwf Hf)
        as (B & T & G & rest & Hsh & HG & _).
      exists B, T, G, rest. split; [exact Hsh|]. split; [lia|].
      intros p r g Hp Hr Hg.
      apply (mge_rows init tokens groups dim x t B T G rest
               Hwf Hsh Hf p r g Hp Hr Hg).
    + exists e. split; [reflexivity|].
      unfold MultiGroupEmbedding_forward, MultiGroupEmbedding_init in Hf.
      destruct (embed_groups _ 0 x) as [h|e'] eqn:Hh; simpl in Hf.
      * exfalso.
        assert (exists B T G rest, ishape x = B :: T :: G :: rest)
          as (B & T & G & rest & Hsh).
        { destruct groups as [|g]; [lia|]. simpl in Hh. unfold select_dim2 in Hh.
          destruct (ishape x) as [|B [|T [|G rest]]]; try discriminate. eauto. }
        destruct (embed_groups_ok init tokens (dim / groups) x B T G rest groups
                    Hwf Hsh 0 h Hh) as (_ & Hlen & Hall).
        destruct (cat_last_ok h (B :: T :: rest) (dim / groups)) as (t & Ht & _).
        -- destruct h; [simpl in Hlen; lia|discriminate].
        -- eapply Forall_impl; [exact Hall|]. intros u [Hs Hl]. split; [exact Hs|].
           rewrite Hl. simpl. lia.
        -- congruence.
      * injection Hf as <-. apply (embed_groups_err _ _ _ _ _ _ _ Hh).
Qed.

(** X22: the width of a multi-group embedding is
    [groups * (dim // groups)], not [dim]. Whenever [forward] returns,
    its input has three dimensions or more with at least [groups]
    entries along the third, and the result has the input's shape with
    the third dimension removed and a last dimension of
    [groups * (dim // groups)], with as many elements as its shape
    says. That width is at most [dim], and is [dim] exactly when
    [groups] divides [dim]: otherwise the remainder is silently
    dropped. *)
Theorem MultiGroupEmbedding_forward_width (init : nat -> nat -> scalar)
    tokens groups dim x t :
  length (idata x) = numel (ishape x) ->
  MultiGroupEmbedding_forward (MultiGroupEmbedding_init init tokens groups dim) x = Ok t ->
  exists B T G rest,
    ishape x = B :: T :: G :: rest /\
    0 < groups <= G /\
    shape t = (B :: T :: rest) ++ [groups * (dim / groups)] /\
    tensor_wf t /\
    groups * (dim / groups) <= dim /\
    (groups * (dim / groups) = dim <-> dim mod groups = 0).
Proof. apply mge_width. Qed.

(** X23: what a multi-group embedding computes. In the row of the
    result at position [(p, r)] (position [p] of the first two
    dimensions, [r] of those after the third), the columns
    [g * d .. g * d + d - 1], with [d = dim // groups], hold the row of
    the table of group [g] for the token [x[p, g, r]], which is an
    index of that table. *)
Theorem MultiGroupEmbedding_forward_rows (init : nat -> nat -> scalar)
    tokens groups dim x t B T G rest :
  length (idata x) = numel (ishape x) ->
  ishape x = B :: T :: G :: rest ->
  MultiGroupEmbedding_forward (MultiGroupEmbedding_init init tokens groups dim) x = Ok t ->
  forall p r g,
    p < B * T -> r < numel rest -> g < groups ->
    let k := nth ((p * G + g) * numel rest + r) (idata x) 0%Z in
    (0 <= k < Z.of_nat tokens)%Z /\
    forall j, j < dim / groups ->
      nth ((p * numel rest + r) * (groups * (dim / groups)) + (g * (dim / groups) + j))
          (data t) rzero
      = init g (Z.to_nat k * (dim / groups) + j).
Proof. apply mge_rows. Qed.

(** X24: when a multi-group embedding runs. Built with no group it
    constructs, and [forward] raises on every input: there is nothing
    to concatenate. With one group or more, [forward] returns exactly
    when the input has three dimensions or more, at least [groups]
    entries along the third, and every token it looks up is an index
    of the table; otherwise it raises, either IndexError from the
    subscript [x[:, :, i]] or what the embedding raises for a token
    that is outside its table. Entries of the third dimension past the
    first [groups] are never read. *)
Theorem MultiGroupEmbedding_forward_raises (init : nat -> nat -> scalar)
    tokens groups dim x :
  length (idata x) = numel (ishape x) ->
  (groups = 0 ->
   MultiGroupEmbedding_forward (MultiGroupEmbedding_init init tokens groups dim) x
   = Err cat_empty_error) /\
  (0 < groups ->
   (tokens_in_range tokens groups x ->
    exists t,
      MultiGroupEmbedding_forward (MultiGroupEmbedding_init init tokens groups dim) x
      = Ok t) /\
   (~ tokens_in_range tokens groups x ->
    exists e,
      MultiGroupEmbedding_forward (MultiGroupEmbedding_init init tokens groups dim) x
      = Err e /\
      (e = IndexError \/
       exists k, ~ (0 <= k < Z.of_nat tokens)%Z /\
                 e = embedding_error tokens (dim / groups) k))).
Proof. apply mge_raises. Qed.

End Properties.

(** ** The theorems at the configuration over the integers *)

Lemma model_forward_three_results_two_keys :
  create_injector (opt ex_gen) (ex_env 0) = Ok ex_gen /\
  create_injector (opt ex_disc) (ex_env 0) = Ok ex_disc /\
  output ex_gen = Keys ["a"; "b"] /\
  output ex_disc = Keys ["a"; "b"] /\
  fst (ImageGeneratorInjector_results ex_gen (ex_env 0) ex_state)
    = Ok (@VTuple Z_scalar [@VFloat Z_scalar 1%Z; @VFloat Z_scalar 2%Z; @VFloat Z_scalar 3%Z]) /\
  fst (DiscriminatorInjector_results ex_disc (ex_env 0) ex_state)
    = Ok (@VTuple Z_scalar [@VFloat Z_scalar 1%Z; @VFloat Z_scalar 2%Z; @VFloat Z_scalar 3%Z]) /\
  fst (forward ex_gen (ex_env 0) ex_zero_rng ex_state)
    = Ok (<[ "b" := @VFloat Z_scalar 2%Z ]> (<[ "a" := @VFloat Z_scalar 1%Z ]> ∅)) /\
  fst (forward ex_disc (ex_env 0) ex_zero_rng ex_state)
    = Ok (<[ "b" := @VFloat Z_scalar 2%Z ]> (<[ "a" := @VFloat Z_scalar 1%Z ]> ∅)).
Proof. repeat split; vm_compute; reflexivity. Qed.

Lemma model_forward_list_out_witness :
  exists m,
    fst (ImageGeneratorInjector_forward ex_gen (ex_env 0) ex_state) = Ok m /\
    dom m = list_to_set ["a"; "b"] /\
    m !! "a" = Some (@VFloat Z_scalar 1%Z) /\ m !! "b" = Some (@VFloat Z_scalar 2%Z).
Proof.
  destruct (model_forward_list_out ex_gen (ex_env 0) ex_state ["a"; "b"]
              (@VTuple Z_scalar [@VFloat Z_scalar 1%Z; @VFloat Z_scalar 2%Z; @VFloat Z_scalar 3%Z]) eq_refl) as [Hg _].
  specialize (Hg eq_refl). simpl in Hg.
  destruct Hg as (m & Hm & Hdom & Hat).
  exists m. split; [exact Hm|]. split; [exact Hdom|]. split.
  - apply (Hat 0 "a" eq_refl). intros [|[|j]] Hj; simpl; [lia|discriminate|discriminate].
  - apply (Hat 1 "b" eq_refl). intros [|[|j]] Hj; simpl; [lia|lia|discriminate].
Defined.

Lemma forward_key_set_witness :
  exists out,
    opt_out (opt ex_gen) = Some out /\
    dom (<[ "b" := @VFloat Z_scalar 2%Z ]>
           (<[ "a" := @VFloat Z_scalar 1%Z ]> (∅ : gmap string (@value Z_scalar))))
      = keys_set out.
Proof.
  apply (forward_key_set (opt ex_gen) (ex_env 0) ex_gen (ex_env 0) ex_zero_rng ex_state).
  - reflexivity.
  - vm_compute. reflexivity.
Defined.

Lemma create_injector_generator_without_out :
  ("generator" ∈ constructed_tags) /\
  create_injector (ex_options "generator" (Some (Key "lr")) None ex_scale) (ex_env 0)
    = Err (KeyError "out").
Proof. split; [unfold constructed_tags; set_solver|reflexivity]. Qed.

Lemma create_injector_dispatch_witness :
  create_injector (ex_options "upsample" (Some (Key "lr")) (Some (Key "hr")) ex_scale)
    (ex_env 0) = Err NotImplementedError /\
  exists self,
    create_injector (opt ex_grey) (ex_env 0) = Ok self /\
    class_tag (cls self) = "greyscale" /\ opt self = opt ex_grey /\
    input self = Some (Key "lr") /\ output self = Key "grey".
Proof.
  split.
  - apply (create_injector_dispatch
             (ex_options "upsample" (Some (Key "lr")) (Some (Key "hr")) ex_scale)
             (ex_env 0) "upsample" eq_refl).
    unfold dispatch_tags, constructed_tags. simpl. intros Hin.
    repeat (apply elem_of_cons in Hin as [Hin|Hin]; [discriminate|]).
    apply elem_of_nil in Hin. exact Hin.
  - apply (create_injector_dispatch (opt ex_grey) (ex_env 0) "greyscale" eq_refl).
    + unfold constructed_tags. do 5 apply list_elem_of_further. apply list_elem_of_here.
    + reflexivity.
    + discriminate.
    + discriminate.
Defined.

Lemma construct_requires_out_witness :
  Injector_init GreyInjector
    (ex_options "greyscale" (Some (Key "lr")) None ex_scale) (ex_env 0)
    = Err (KeyError "out") /\
  ScheduledScalarInjector_init
    (ex_options "scheduled_scalar" None None ex_scale) (ex_env 0)
    = Err (KeyError "out") /\
  Injector_init GreyInjector
    (ex_options "greyscale" None (Some (Key "grey")) ex_scale) (ex_env 0)
    = Ok (mkInjector GreyInjector
            (ex_options "greyscale" None (Some (Key "grey")) ex_scale)
            None (Key "grey")) /\
  ScheduledScalarInjector_init (opt ex_sched) (ex_env 0) = Ok ex_sched /\
  input ex_sched = None /\
  ImageGradientInjector_init
    (ex_options "img_grad" (Some (Key "lr")) (Some (Key "grad")) ex_scale) (ex_env 0)
    = Ok (mkInjector ImageGradientInjector
            (ex_options "img_grad" (Some (Key "lr")) (Some (Key "grad")) ex_scale)
            (Some (Key "lr")) (Key "grad")) /\
  exists self,
    create_injector (opt ex_sched) (ex_env 0) = Ok self /\
    class_tag (cls self) = "scheduled_scalar" /\ opt self = opt ex_sched /\
    input self = None /\ output self = Key "weight".
Proof.
  destruct (construct_requires_out
              (ex_options "greyscale" (Some (Key "lr")) None ex_scale) (ex_env 0))
    as [Hgrey_none _].
  destruct (construct_requires_out
              (ex_options "scheduled_scalar" None None ex_scale) (ex_env 0))
    as [Hsched_none _].
  destruct (construct_requires_out
              (ex_options "greyscale" None (Some (Key "grey")) ex_scale) (ex_env 0))
    as [_ Hgrey].
  destruct (construct_requires_out (opt ex_sched) (ex_env 0)) as [_ Hsched].
  destruct (construct_requires_out
              (ex_options "img_grad" (Some (Key "lr")) (Some (Key "grad")) ex_scale)
              (ex_env 0)) as [_ Hgrad].
  destruct (Hgrey_none eq_refl) as (Hbase_none & _).
  destruct (Hsched_none eq_refl) as (_ & Hs_none & _).
  destruct (Hgrey (Key "grey") eq_refl) as (Hbase & _).
  destruct (Hsched (Key "weight") eq_refl) as (_ & Hs & _ & Hfactory).
  destruct (Hgrad (Key "grad") eq_refl) as (_ & _ & Hg & _).
  split; [apply Hbase_none|].
  split; [exact Hs_none|].
  split; [apply Hbase|].
  split; [apply (Hs 2%Z 2%Z); reflexivity|].
  split; [reflexivity|].
  split; [apply (Hg "cuda"); reflexivity|].
  apply (Hfactory "scheduled_scalar").
  - reflexivity.
  - unfold constructed_tags. do 2 apply list_elem_of_further. apply list_elem_of_here.
  - intros _. exists 2%Z, 2%Z. split; reflexivity.
  - discriminate.
Defined.

Lemma add_noise_forward_witness :
  fst (forward ex_noise (ex_env 0) ex_zero_rng ex_state)
    = Ok {[ "noisy_lr" := @VTensor Z_scalar ex_image ]}.
Proof.
  destruct (add_noise_forward ex_noise (ex_env 0) ex_zero_rng ex_state
              "lr" "noisy_lr" ex_scale (@VFloat Z_scalar 3%Z) ex_image "cuda"
              eq_refl eq_refl eq_refl eq_refl eq_refl eq_refl eq_refl)
    as (noise & _ & _ & _ & _ & _ & _ & Hzero).
  apply (Hzero 3%Z eq_refl eq_refl).
  - intros i. reflexivity.
  - intros a. reflexivity.
  - intros a. apply Z.add_0_r.
Defined.

Lemma grey_forward_mean_witness :
  exists o,
    fst (forward ex_grey (ex_env 0) ex_zero_rng ex_state)
      = Ok {[ "grey" := @VTensor Z_scalar o ]} /\
    shape o = [1; 3; 1; 2] /\
    at4 o 0 0 0 0 = 3%Z /\ at4 o 0 1 0 0 = 3%Z /\ at4 o 0 2 0 0 = 3%Z /\
    at4 o 0 0 0 1 = 6%Z /\ at4 o 0 1 0 1 = 6%Z /\ at4 o 0 2 0 1 = 6%Z.
Proof.
  destruct (grey_forward_mean ex_grey (ex_env 0) ex_zero_rng ex_state
              "lr" "grey" ex_image 1 2 1 2 eq_refl eq_refl eq_refl eq_refl eq_refl)
    as (o & Hf & Hsh & _ & Hat & _).
  exists o. split; [exact Hf|]. split; [exact Hsh|].
  repeat split; rewrite Hat by lia; reflexivity.
Defined.

Lemma scheduled_scalar_pure_witness :
  fst (forward ex_sched (ex_env 5) ex_zero_rng ex_state)
    = fst (forward ex_sched (ex_env 5) (fun i => Z.of_nat i) ∅) /\
  fst (forward ex_sched (ex_env 5) ex_zero_rng ex_state)
    = Ok {[ "weight" := @VFloat Z_scalar 10%Z ]}.
Proof.
  destruct (scheduled_scalar_pure ex_sched 2%Z (ex_env 5) (ex_env 5)
              ex_zero_rng (fun i => Z.of_nat i) ex_state ∅ eq_refl eq_refl)
    as (Hsame & _ & Hval).
  split; [exact Hsame|].
  apply (Hval "weight" 5%Z (@VFloat Z_scalar 10%Z)); reflexivity.
Defined.

Lemma forward_missing_key_witness :
  (exists k', fst (forward ex_noise (ex_env 0) ex_zero_rng ∅) = Err (KeyError k')) /\
  snd (forward ex_noise (ex_env 0) ex_zero_rng ∅) = ∅.
Proof.
  apply (forward_missing_key ex_noise (ex_env 0) ex_zero_rng ∅ "lr").
  - apply list_elem_of_here.
  - reflexivity.
Defined.

(** ** Further properties at the configuration over the integers *)

Lemma forward_reads_declared_keys_witness :
  fst (forward ex_grey (ex_env 0) ex_zero_rng ex_state)
  = fst (forward ex_grey (ex_env 0) ex_zero_rng
           (<[ "other" := @VFloat Z_scalar 1%Z ]> ex_state)).
Proof.
  apply (forward_reads_declared_keys ex_grey (ex_env 0) ex_zero_rng ex_state
           (<[ "other" := @VFloat Z_scalar 1%Z ]> ex_state)).
  intros k Hk. apply list_elem_of_singleton in Hk as ->. reflexivity.
Defined.

Lemma model_forward_call_witness :
  fst (forward ex_gen (ex_env 0) ex_zero_rng ex_state)
  = store_results (Keys ["a"; "b"])
      (@VTuple Z_scalar [@VFloat Z_scalar 1%Z; @VFloat Z_scalar 2%Z; @VFloat Z_scalar 3%Z]).
Proof.
  apply (model_forward_call ex_gen (ex_env 0) ex_zero_rng ex_state
           {[ "netG" := ex_three_results ]} "netG" ex_three_results
           [@VTensor Z_scalar ex_image]).
  - split; reflexivity.
  - reflexivity.
  - exists (@VTensor Z_scalar ex_image). split; reflexivity.
Defined.

Lemma forward_without_in_witness :
  exists e,
    fst (forward ex_grey_without_in (ex_env 0) ex_zero_rng ex_state) = Err e /\
    (e = AttributeError "input" \/ exists k, e = KeyError k).
Proof.
  apply (forward_without_in (opt ex_grey_without_in) (ex_env 0) ex_grey_without_in
           (ex_env 0) ex_zero_rng ex_state).
  - reflexivity.
  - reflexivity.
  - discriminate.
Defined.

Lemma forward_list_keys_raise_witness :
  exists e, fst (forward ex_grey_list_out (ex_env 0) ex_zero_rng ex_state) = Err e.
Proof.
  apply (forward_list_keys_raise ex_grey_list_out (ex_env 0) ex_zero_rng ex_state
           ["a"; "b"]).
  - discriminate.
  - discriminate.
  - left. reflexivity.
Defined.

Lemma grey_forward_rank_witness :
  exists o,
    fst (forward ex_grey (ex_env 0) ex_zero_rng
           {[ "lr" := @VTensor Z_scalar (@mkTensor Z_scalar [2; 2; 2]
                                           [1; 2; 3; 4; 5; 6; 7; 8]%Z) ]})
    = Ok {[ "grey" := VTensor o ]} /\
    shape o = [1; 6; 1; 2].
Proof.
  apply (grey_forward_rank ex_grey (ex_env 0) ex_zero_rng
           {[ "lr" := @VTensor Z_scalar (@mkTensor Z_scalar [2; 2; 2]
                                           [1; 2; 3; 4; 5; 6; 7; 8]%Z) ]}
           "lr" "grey"
           (@VTensor Z_scalar (@mkTensor Z_scalar [2; 2; 2] [1; 2; 3; 4; 5; 6; 7; 8]%Z)));
    reflexivity.
Defined.

Lemma add_noise_type_errors_witness :
  fst (forward ex_noise (ex_env 0) ex_zero_rng {[ "lr" := @VFloat Z_scalar 1%Z ]})
  = Err TypeError.
Proof.
  apply (add_noise_type_errors ex_noise (ex_env 0) ex_zero_rng
           {[ "lr" := @VFloat Z_scalar 1%Z ]} "lr" ex_scale
           (@VFloat Z_scalar 3%Z) (@VFloat Z_scalar 1%Z) "cuda");
    reflexivity.
Defined.

Lemma scheduled_scale_feeds_noise_witness :
  exists y,
    fst (forward ex_noise_scheduled (ex_env 5) (fun i => Z.of_nat i)
           (<[ "weight" := @VFloat Z_scalar 10%Z ]> ex_state))
    = Ok {[ "noisy_lr" := VTensor y ]} /\
    shape y = [1; 2; 1; 2] /\
    nth 3 (data y) 0%Z = 39%Z.
Proof.
  destruct (@scheduled_scale_feeds_noise Z_scalar Z_collaborators 2%Z ex_sched ex_noise_scheduled (ex_env 5)
              ex_zero_rng (fun i => Z.of_nat i) ex_state
              (<[ "weight" := @VFloat Z_scalar 10%Z ]> ex_state)
              {[ "weight" := @VFloat Z_scalar 10%Z ]}
              "weight" "lr" "noisy_lr" ex_image "cuda" 5%Z 10%Z
              eq_refl eq_refl eq_refl eq_refl eq_refl)
    as (y & Hy & Hsh & Hat); try reflexivity.
  - apply map_singleton_subseteq_l. reflexivity.
  - exists y. split; [exact Hy|]. split; [exact Hsh|].
    refine (eq_trans (Hat 3 _) _); [simpl; lia|reflexivity].
Defined.

Lemma grey_forward_idempotent_witness :
  exists o,
    fst (forward ex_grey (ex_env 0) ex_zero_rng ex_state) = Ok {[ "grey" := VTensor o ]} /\
    (({[ "lr" := @VTensor Z_scalar (@mkTensor Z_scalar [1; 3; 1; 2]
                                      [3; 6; 3; 6; 3; 6]%Z) ]}
        : gmap string (@value Z_scalar)) !! "lr" = Some (VTensor o) ->
     exists o',
       fst (forward ex_grey (ex_env 0) ex_zero_rng
              {[ "lr" := @VTensor Z_scalar (@mkTensor Z_scalar [1; 3; 1; 2]
                                              [3; 6; 3; 6; 3; 6]%Z) ]})
       = Ok {[ "grey" := VTensor o' ]} /\
       shape o' = shape o /\
       forall n k h w, n < 1 -> k < 3 -> h < 1 -> w < 2 ->
         at4 o' n k h w = at4 o n k h w).
Proof.
  apply (grey_forward_idempotent ex_grey ex_grey (ex_env 0) ex_zero_rng ex_state
           {[ "lr" := @VTensor Z_scalar (@mkTensor Z_scalar [1; 3; 1; 2]
                                           [3; 6; 3; 6; 3; 6]%Z) ]}
           "lr" "grey" "lr" "grey" ex_image 1 2 1 2); try reflexivity.
  intros a. simpl. replace (a + (a + (a + 0)))%Z with (a * 3)%Z by lia.
  apply Z.div_mul. lia.
Defined.

Lemma ResBlock_init_kernel_size_witness :
  @ResBlock_init Z_scalar Z_layers 4 8 0%Z None 1 7 false true = Err (KeyError "7") /\
  exists b,
    @ResBlock_init Z_scalar Z_layers 64 256 0%Z (Some 128%Z) 1 5 false true = Ok b /\
    nth 3 (out_layers b) Identity = zero_module (conv_nd 1 128 128 5 2).
Proof.
  split.
  - apply (@ResBlock_init_kernel_size Z_scalar Z_layers 4 8 0%Z None 1 7 false true);
      discriminate.
  - apply (@ResBlock_init_kernel_size Z_scalar Z_layers 64 256 0%Z (Some 128%Z)
             1 5 false true); [auto|reflexivity..].
Defined.

Lemma ResBlock_keeps_length_witness :
  exists b,
    @ResBlock_init Z_scalar Z_layers 64 256 0%Z (Some 128%Z) 1 5 true false = Ok b /\
    sequential_length (in_layers b) 400 = 400%Z /\
    sequential_length (out_layers b) 400 = 400%Z /\
    layer_length (skip_connection b) 400 = 400%Z.
Proof.
  destruct (@ResBlock_init Z_scalar Z_layers 64 256 0%Z (Some 128%Z) 1 5 true false)
    as [b|e] eqn:Hb; [|discriminate].
  exists b. split; [reflexivity|].
  apply (@ResBlock_keeps_length Z_scalar Z_layers 64 256 0%Z (Some 128%Z) 1 5 true false
           b Hb).
Defined.

Lemma ResBlock_channels_witness :
  exists b,
    @ResBlock_init Z_scalar Z_layers 4 8 0%Z (Some 0%Z) 1 3 false true = Ok b /\
    out_channels b = 4%Z /\ skip_connection b = Identity /\
    sequential_channels (emb_layers b) 8 = 8%Z.
Proof.
  destruct (@ResBlock_init Z_scalar Z_layers 4 8 0%Z (Some 0%Z) 1 3 false true)
    as [b|e] eqn:Hb; [|discriminate].
  exists b. split; [reflexivity|].
  destruct (@ResBlock_channels Z_scalar Z_layers 4 8 0%Z (Some 0%Z) 1 3 false true b Hb)
    as (Hout & Hskip & _ & _ & _ & Hemb).
  split; [exact Hout|]. split; [apply Hskip; exact Hout|].
  rewrite Hemb, Hout. reflexivity.
Defined.

Lemma DiffusionLayer_resblk_shape_witness :
  exists b,
    @DiffusionLayer_resblk Z_scalar Z_layers 64 0%Z = Ok b /\
    out_channels b = 64%Z /\ skip_connection b = Identity /\
    sequential_channels (emb_layers b) 64 = 128%Z /\
    sequential_length (out_layers b) 400 = 400%Z.
Proof.
  destruct (@DiffusionLayer_resblk_shape Z_scalar Z_layers 64 0%Z) as [Hbuild Hshape].
  destruct Hbuild as [b Hb]; [reflexivity..|].
  exists b. split; [exact Hb|].
  destruct (Hshape b Hb) as (Hout & Hskip & _ & Hemb & Hlen).
  split; [exact Hout|]. split; [exact Hskip|]. split; [exact Hemb|].
  apply (Hlen 400%Z).
Defined.

Lemma expand_emb_out_spec_witness :
  exists t,
    expand_emb_out 2 3 (@mkTensor Z_scalar [2; 2] [1; 2; 3; 4]%Z) = Some t /\
    data t = [1; 2; 3; 4]%Z /\ shape t = [2; 2; 1].
Proof.
  destruct (expand_emb_out_spec 2 3 (@mkTensor Z_scalar [2; 2] [1; 2; 3; 4]%Z))
    as (t & Ht & Hd & Hs & _); [simpl; lia|].
  exists t. split; [exact Ht|]. split; [exact Hd|exact Hs].
Defined.

Lemma TransformerDiffusion_forward_extraneous_witness :
  fst (@TransformerDiffusion_forward Z_scalar Z_float Z_torch ex_diffusion ex_zero_rng
         ex_image ex_image None None None true) = Ok ex_image.
Proof.
  destruct (@TransformerDiffusion_forward_extraneous Z_scalar Z_float Z_torch
              ex_diffusion ex_zero_rng ex_image ex_image None None None true
              ex_image [ex_image] eq_refl) as (r & Hr & _ & _ & _ & Heq).
  rewrite Hr. f_equal. apply Heq.
  - intros a. apply Z.mul_0_r.
  - intros a. apply Z.add_0_r.
Defined.

Lemma timestep_independent_eval_witness :
  fst (@timestep_independent Z_scalar Z_float Z_torch ex_diffusion (Some ex_image) 4
         (fun i => Z.of_nat (S i)))
  = Ok (@mkTensor Z_scalar [1; 2; 1; 2] [2; 4; 6; 10]%Z).
Proof.
  rewrite (@timestep_independent_eval Z_scalar Z_float Z_torch ex_diffusion
             (fun i => Z.of_nat (S i)) (Some ex_image) 4).
  - reflexivity.
  - left. reflexivity.
Defined.

Lemma update_for_step_freeze_witness :
  @quant_grad_enabled Z_scalar (@update_for_step Z_scalar Z_float ex_with_quantizer 20000)
    = false /\
  @temperature Z_scalar
    (quantizer (@update_for_step Z_scalar Z_float ex_with_quantizer 20000)) = 4%Z /\
  @quant_grad_enabled Z_scalar (@update_for_step Z_scalar Z_float ex_with_quantizer 20001)
    = true.
Proof.
  pose proof (@update_for_step_freeze Z_scalar Z_float ex_with_quantizer 20000)
    as (_ & _ & _ & _ & _ & Hfrozen & _).
  pose proof (@update_for_step_freeze Z_scalar Z_float ex_with_quantizer 20001)
    as (_ & _ & _ & _ & _ & _ & Hfree).
  destruct Hfrozen as [Hoff Htemp]; [simpl; lia|].
  destruct Hfree as [Hon _]; [simpl; lia|].
  split; [exact Hoff|]. split; [|exact Hon].
  rewrite Htemp; [reflexivity|]. intros a d. simpl. apply Z.mul_1_r.
Defined.

Lemma update_for_step_temperature_floor_witness :
  (@temperature Z_scalar
     (quantizer (@update_for_step Z_scalar Z_float ex_with_quantizer 50000)) <? 1)%Z
  = false.
Proof.
  apply (@update_for_step_temperature_floor Z_scalar Z_float ex_with_quantizer 50000).
  intros a. apply Z.ltb_irrefl.
Defined.

Lemma WithQuantizer_forward_frozen_witness :
  @TransformerDiffusionWithQuantizer_forward Z_scalar Z_float Z_torch
    (@mkWithQuantizer Z_scalar 5 20000 ex_diffusion (set_temperature ex_quantizer 2%Z))
    (fun i => Z.of_nat (S i)) ex_image ex_image ex_image None true false
  = @TransformerDiffusionWithQuantizer_forward Z_scalar Z_float Z_torch
      (@mkWithQuantizer Z_scalar 20001 20000 ex_diffusion (set_temperature ex_quantizer 2%Z))
      (fun i => Z.of_nat (S i)) ex_image ex_image ex_image None true false /\
  exists out loss,
    fst (@TransformerDiffusionWithQuantizer_forward Z_scalar Z_float Z_torch
           (@mkWithQuantizer Z_scalar 5 20000 ex_diffusion
              (set_temperature ex_quantizer 2%Z))
           (fun i => Z.of_nat (S i)) ex_image ex_image ex_image None false false)
    = Ok (VTuple [VTensor out; VTensor loss]) /\
    data loss = [0%Z].
Proof.
  destruct (@WithQuantizer_forward_frozen Z_scalar Z_float Z_torch ex_diffusion
              (set_temperature ex_quantizer 2%Z) 20000 5 20001
              (fun i => Z.of_nat (S i)) ex_image ex_image ex_image None false)
    as [Hsame Hloss].
  - intros a. apply Z.mul_0_r.
  - intros a. apply Z.add_0_r.
  - lia.
  - lia.
  - split; [exact Hsame|].
    destruct (Hloss _ eq_refl) as (out & loss & Hv & _ & Hzero).
    exists out, loss. split; [rewrite <- Hv; reflexivity|].
    injection Hv as _ <-. reflexivity.
Defined.

Lemma MultiGroupEmbedding_forward_width_witness :
  exists t,
    @MultiGroupEmbedding_forward Z_scalar Z_torch_errors ex_embeddings ex_tokens = Ok t /\
    shape t = [1; 2; 6] /\ tensor_wf t.
Proof.
  destruct (@MultiGroupEmbedding_forward Z_scalar Z_torch_errors ex_embeddings ex_tokens)
    as [t|e] eqn:Ht; [|discriminate].
  exists t. split; [reflexivity|].
  destruct (@MultiGroupEmbedding_forward_width Z_scalar Z_torch_errors
              (fun g i => (Z.of_nat g * 100 + Z.of_nat i)%Z) 4 3 8 ex_tokens t
              eq_refl Ht) as (B & T & G & rest & Hsh & _ & Hts & Hwf & _).
  injection Hsh as <- <- <- <-. split; [exact Hts|exact Hwf].
Defined.

Lemma MultiGroupEmbedding_forward_rows_witness :
  exists t,
    @MultiGroupEmbedding_forward Z_scalar Z_torch_errors ex_embeddings ex_tokens = Ok t /\
    nth 8 (data t) 0%Z = 100%Z /\ nth 9 (data t) 0%Z = 101%Z.
Proof.
  destruct (@MultiGroupEmbedding_forward Z_scalar Z_torch_errors ex_embeddings ex_tokens)
    as [t|e] eqn:Ht; [|discriminate].
  exists t. split; [reflexivity|].
  destruct (@MultiGroupEmbedding_forward_rows Z_scalar Z_torch_errors
              (fun g i => (Z.of_nat g * 100 + Z.of_nat i)%Z) 4 3 8 ex_tokens t 1 2 3 []
              eq_refl eq_refl Ht 1 0 1) as (_ & Hval); [lia|simpl; lia|lia|].
  split.
  - apply (Hval 0). simpl. lia.
  - apply (Hval 1). simpl. lia.
Defined.

Lemma MultiGroupEmbedding_forward_raises_witness :
  (exists t,
     @MultiGroupEmbedding_forward Z_scalar Z_torch_errors ex_embeddings ex_tokens = Ok t) /\
  (exists e,
     @MultiGroupEmbedding_forward Z_scalar Z_torch_errors ex_embeddings
       (mkITensor [1; 2; 3] [0; 1; 2; 7; 0; 1]%Z) = Err e /\
     (e = IndexError \/
      exists k, ~ (0 <= k < 4)%Z /\ e = @embedding_error Z_torch_errors 4 2 k)).
Proof.
  split.
  - destruct (@MultiGroupEmbedding_forward_raises Z_scalar Z_torch_errors
                (fun g i => (Z.of_nat g * 100 + Z.of_nat i)%Z) 4 3 8 ex_tokens eq_refl)
      as [_ Hruns].
    destruct (Hruns ltac:(lia)) as [Hok _]. apply Hok.
    exists 1, 2, 3, []. split; [reflexivity|]. split; [lia|].
    intros p r g Hp Hr Hg. simpl in Hp, Hr.
    destruct p as [|[|p]]; [| |lia]; (destruct r as [|r]; [|lia]);
      (destruct g as [|[|[|g]]]; [| | |lia]); simpl; lia.
  - destruct (@MultiGroupEmbedding_forward_raises Z_scalar Z_torch_errors
                (fun g i => (Z.of_nat g * 100 + Z.of_nat i)%Z) 4 3 8
                (mkITensor [1; 2; 3] [0; 1; 2; 7; 0; 1]%Z) eq_refl)
      as [_ Hruns].
    destruct (Hruns ltac:(lia)) as [_ Hraises]. apply Hraises.
    intros (B & T & G & rest & Hsh & _ & Hrange).
    simpl in Hsh. injection Hsh as <- <- <- <-.
    specialize (Hrange 1 0 0). simpl in Hrange. lia.
Defined.
